(** * vmware.py: waiting for vSphere tasks, power operations and snapshot revert

    A shallow embedding of [src/vmware.py].  The script talks to a vSphere
    server through pyVmomi; here the server is a script of replies and every
    remote call the program issues is recorded, in order, as an event. *)

From stdpp Require Import base decidable option list strings.
From Stdlib Require Import Lia.

(** ** The pyVmomi objects, as far as the script reads them *)

(** [vim.TaskInfo.State] *)
Inductive TaskInfo_State := State_queued | State_running | State_success | State_error.

Global Instance TaskInfo_State_eq_dec : EqDecision TaskInfo_State.
Proof. solve_decision. Defined.

(** [vmodl.MethodFault]: what [task.info.error] holds and [raise] throws. *)
Record MethodFault := { fault_msg : string }.

Global Instance MethodFault_eq_dec : EqDecision MethodFault.
Proof. solve_decision. Defined.

(** A [vim.Task] managed object: the script reads [str(task)] and, when it
    gives up, [task.info.error]. *)
Record Task := {
  task_str : string;
  task_info_error : MethodFault
}.

Global Instance Task_eq_dec : EqDecision Task.
Proof. solve_decision. Defined.

(** The value of a property change.  For the path ['info'] the server sends a
    [vim.TaskInfo] (only its [state] attribute is read), for ['info.state'] a
    [vim.TaskInfo.State]; [VNone] is an unset value. *)
Inductive Val :=
  | VNone
  | VState (s : TaskInfo_State)
  | VTaskInfo (state : TaskInfo_State).

Global Instance Val_eq_dec : EqDecision Val.
Proof. solve_decision. Defined.

(** [vmodl.query.PropertyCollector.Change] *)
Record PropertyChange := {
  change_name : string;
  change_val : Val
}.

(** [vmodl.query.PropertyCollector.ObjectUpdate] *)
Record ObjectUpdate := {
  objSet_obj : Task;
  objSet_changeSet : list PropertyChange
}.

(** [vmodl.query.PropertyCollector.FilterUpdate] *)
Record FilterUpdate := {
  filterSet_objectSet : list ObjectUpdate
}.

(** [vmodl.query.PropertyCollector.UpdateSet] *)
Record UpdateSet := {
  update_version : string;
  update_filterSet : list FilterUpdate
}.

(** The filter object [pc.CreateFilter] hands back. *)
Record Filter := { filter_id : nat }.

Global Instance Filter_eq_dec : EqDecision Filter.
Proof. solve_decision. Defined.

(** [vim.VirtualMachinePowerState] *)
Inductive VirtualMachinePowerState := poweredOff | poweredOn | suspended.

Global Instance VirtualMachinePowerState_eq_dec : EqDecision VirtualMachinePowerState.
Proof. solve_decision. Defined.

(** [vim.vm.Snapshot]: the object behind a tree node; [RevertToSnapshot_Task]
    is the task the server returns for the call of that name. *)
Record Snapshot := {
  snap_id : string;
  RevertToSnapshot_Task : Task
}.

(** [vim.vm.SnapshotTree] *)
#[warnings="-register-all"]
Inductive SnapshotTree := {
  tree_name : string;
  tree_snapshot : Snapshot;
  childSnapshotList : list SnapshotTree
}.

(** [vim.vm.SnapshotInfo] *)
Record SnapshotInfo := {
  rootSnapshotList : list SnapshotTree
}.

(** [vim.VirtualMachine].  [vm.snapshot] is unset ([None]) for a machine
    that has no snapshot; [PowerOn] and [PowerOff] are the tasks the server
    returns for the calls of those names. *)
Record VirtualMachine := {
  vm_name : string;
  vm_powerState : VirtualMachinePowerState;
  vm_snapshot : option SnapshotInfo;
  PowerOn : Task;
  PowerOff : Task
}.

(** The service instance [si]: [si.content.propertyCollector.CreateFilter]
    answers with a filter object, or with a value that is false in a
    condition ([None]). *)
Record ServiceInstance := {
  CreateFilter : list Task → option Filter
}.

(** ** Effects *)

(** Of the remote calls only [pc.WaitForUpdates], the one blocking call of
    the script, is given replies that may be faults.  [CreateFilter],
    [Destroy], [PowerOn], [PowerOff] and [RevertToSnapshot_Task] are taken to
    come back normally; each of them is recorded as an event. *)

(** Exceptions the modelled code can raise. *)
Inductive Exn :=
  | TaskFault (f : MethodFault)   (* [raise task.info.error] *)
  | AttributeError                (* an attribute read on a value lacking it *)
  | ValueError                    (* [list.remove(x)] with [x] not in the list *)
  | UnboundLocalError             (* a local read before any assignment *)
  | ServerFault (msg : string)    (* a fault raised by a remote call *)
  | TypeError.                    (* a value pyVmomi refuses for a field *)

Global Instance Exn_eq_dec : EqDecision Exn.
Proof. solve_decision. Defined.

(** What the program does to the outside, in program order. *)
Inductive Event :=
  | EvCreateFilter (objectSet : list Task)
  | EvWaitForUpdates (version : option string)
  | EvDestroy (f : Filter)
  | EvPowerOn (vm : VirtualMachine)
  | EvPowerOff (vm : VirtualMachine)
  | EvRevertToSnapshot (snap_obj : Snapshot)
  | EvPrint (args : list string).

(** How a call ends: it returns, it raises, or it never comes back because
    [pc.WaitForUpdates] blocks for good. *)
Inductive Result (A : Type) :=
  | Return (a : A)
  | Raise (e : Exn)
  | Blocked.
Arguments Return {A} a.
Arguments Raise {A} e.
Arguments Blocked {A}.

(** The replies the property collector will give to the coming
    [WaitForUpdates] calls, one per call: a fault or an update set.  When the
    script is used up the call blocks for ever. *)
Definition Pending := list (Exn + UpdateSet).

(** A computation reads replies and emits events. *)
Definition M (A : Type) : Type := Pending → Result A * Pending * list Event.

Definition ret {A} (a : A) : M A := λ p, (Return a, p, []).

Definition bind {A B} (m : M A) (k : A → M B) : M B := λ p,
  match m p with
  | (Return a, p1, ev1) => let '(r, p2, ev2) := k a p1 in (r, p2, ev1 ++ ev2)
  | (Raise e, p1, ev1) => (Raise e, p1, ev1)
  | (Blocked, p1, ev1) => (Blocked, p1, ev1)
  end.

Definition emit (e : Event) : M unit := λ p, (Return tt, p, [e]).

Definition raise {A} (e : Exn) : M A := λ p, (Raise e, p, []).

(** [try: body finally: fin].  The handler runs on return and on raise; an
    exception of the handler replaces the pending outcome. *)
Definition try_finally {A} (body : M A) (fin : M unit) : M A := λ p,
  match body p with
  | (Blocked, p1, ev1) => (Blocked, p1, ev1)
  | (r, p1, ev1) =>
      match fin p1 with
      | (Return _, p2, ev2) => (r, p2, ev1 ++ ev2)
      | (Raise e, p2, ev2) => (Raise e, p2, ev1 ++ ev2)
      | (Blocked, p2, ev2) => (Blocked, p2, ev1 ++ ev2)
      end
  end.

Global Instance M_ret : MRet M := @ret.
Global Instance M_bind : MBind M := λ A B k m, bind m k.

(** Projections of a finished run. *)
Definition result {A} (r : Result A * Pending * list Event) : Result A := r.1.1.
Definition unread {A} (r : Result A * Pending * list Event) : Pending := r.1.2.
Definition events {A} (r : Result A * Pending * list Event) : list Event := r.2.

(** ** [WaitForTasks] *)

(** A [for] loop whose body may raise, over a loop-carried state. *)
Fixpoint for_each {A S} (body : S → A → Exn + S) (l : list A) (s : S) : Exn + S :=
  match l with
  | [] => inr s
  | x :: l' =>
      match body s x with
      | inl e => inl e
      | inr s' => for_each body l' s'
      end
  end.

(** [taskList.remove(x)]: drops the first occurrence, [None] when there is
    none (Python raises [ValueError]). *)
Fixpoint list_remove (x : string) (l : list string) : option (list string) :=
  match l with
  | [] => None
  | y :: l' => if decide (x = y) then Some l' else (y ::.) <$> list_remove x l'
  end.

(** Lines 75-80: the [state] a change record yields; [inr None] stands for
    the [continue] of the [else] branch.  The local [state] (set to [None] on
    line 66) is assigned here on every path that goes on to read it, so it is
    not carried from one record to the next. *)
Definition change_state (change : PropertyChange) : Exn + option Val :=
  if decide (change_name change = "info") then
    match change_val change with
    | VTaskInfo state => inr (Some (VState state))
    | _ => inl AttributeError
    end
  else if decide (change_name change = "info.state") then
    inr (Some (change_val change))
  else inr None.

(** Lines 75-89: the body of [for change in objSet.changeSet]. *)
Definition on_change (task : Task) (taskList : list string) (change : PropertyChange)
  : Exn + list string :=
  match change_state change with
  | inl e => inl e
  | inr None => inr taskList
  | inr (Some state) =>
      if decide (task_str task ∈ taskList) then
        if decide (state = VState State_success) then
          match list_remove (task_str task) taskList with
          | Some taskList' => inr taskList'
          | None => inl ValueError
          end
        else if decide (state = VState State_error) then
          inl (TaskFault (task_info_error task))
        else inr taskList
      else inr taskList
  end.

(** Lines 72-89 *)
Definition on_objSet (taskList : list string) (objSet : ObjectUpdate) : Exn + list string :=
  for_each (on_change (objSet_obj objSet)) (objSet_changeSet objSet) taskList.

(** Lines 71-89 *)
Definition on_filterSet (taskList : list string) (filterSet : FilterUpdate) : Exn + list string :=
  for_each on_objSet (filterSet_objectSet filterSet) taskList.

Definition on_update (taskList : list string) (update : UpdateSet) : Exn + list string :=
  for_each on_filterSet (update_filterSet update) taskList.

(** Lines 69-91: [while len(taskList)].  Each turn takes the next reply of
    the property collector. *)
Fixpoint wait_loop (taskList : list string) (version : option string) (pending : Pending)
  {struct pending} : Result unit * Pending * list Event :=
  if decide (length taskList = 0) then (Return tt, pending, [])
  else
    match pending with
    | [] => (Blocked, [], [EvWaitForUpdates version])
    | inl e :: rest => (Raise e, rest, [EvWaitForUpdates version])
    | inr update :: rest =>
        match on_update taskList update with
        | inl e => (Raise e, rest, [EvWaitForUpdates version])
        | inr taskList' =>
            let '(r, p, ev) := wait_loop taskList' (Some (update_version update)) rest in
            (r, p, EvWaitForUpdates version :: ev)
        end
    end.

Definition pc_CreateFilter (si : ServiceInstance) (tasks : list Task) : M (option Filter) :=
  emit (EvCreateFilter tasks);; ret (CreateFilter si tasks).

Definition filter_Destroy (f : Filter) : M unit := emit (EvDestroy f).

(** Line 61, [filterSpec.objectSet = objSpecs]: [objectSet] is a required
    field of the filter spec, and pyVmomi refuses the empty list for it with
    a [TypeError]. *)
Definition set_objectSet (objSpecs : list Task) : M (list Task) :=
  if decide (objSpecs = []) then raise TypeError else mret objSpecs.

(** Lines 45-94.  The object specs of lines 56-57 are one per task, in
    order; they are stood for by the tasks themselves. *)
Definition WaitForTasks (tasks : list Task) (si : ServiceInstance) : M unit :=
  let taskList := task_str <$> tasks in
  objectSet ← set_objectSet tasks;
  filter ← pc_CreateFilter si objectSet;
  try_finally
    (wait_loop taskList None)
    (match filter with
     | Some f => filter_Destroy f
     | None => ret tt
     end).

(** ** The callers: [turn_vm_on], [turn_vm_off], [revert_vm] *)

(** How the body of a [for] loop hands over: to the next element, or out of
    the loop with [break]. *)
Inductive Flow := Next | Break.

(** A [for] loop with effects, over the locals it assigns. *)
Fixpoint for_M {A S} (body : S → A → M (Flow * S)) (l : list A) (s : S) : M S :=
  match l with
  | [] => mret s
  | x :: l' =>
      fs ← body s x;
      match fs.1 with
      | Break => mret fs.2
      | Next => for_M body l' fs.2
      end
  end.

Definition print (args : list string) : M unit := emit (EvPrint args).

Definition vm_PowerOn (vm : VirtualMachine) : M Task :=
  emit (EvPowerOn vm);; mret (PowerOn vm).

Definition vm_PowerOff (vm : VirtualMachine) : M Task :=
  emit (EvPowerOff vm);; mret (PowerOff vm).

Definition snap_RevertToSnapshot_Task (snap_obj : Snapshot) : M Task :=
  emit (EvRevertToSnapshot snap_obj);; mret (RevertToSnapshot_Task snap_obj).

(** Lines 96-105 *)
Definition turn_vm_on (vmList : list VirtualMachine) (vmnames : list string)
    (si : ServiceInstance) : M unit :=
  for_M (λ (_ : unit) vm,
    (if decide (vm_name vm ∈ vmnames) then
       if decide (vm_powerState vm ≠ poweredOn) then
         print ["Powering on machine!"];;
         task ← vm_PowerOn vm;
         WaitForTasks [task] si;;
         print ["Virtual Machine(s) have been powered ON successfully"]
       else print ["Virtual Machine(s) already ON"]
     else mret tt);;
    mret (Next, tt)) vmList tt.

(** Lines 107-116 *)
Definition turn_vm_off (vmList : list VirtualMachine) (vmnames : list string)
    (si : ServiceInstance) : M unit :=
  for_M (λ (_ : unit) vm,
    (if decide (vm_name vm ∈ vmnames) then
       if decide (vm_powerState vm ≠ poweredOff) then
         print ["Powering off machine!"];;
         task ← vm_PowerOff vm;
         WaitForTasks [task] si;;
         print ["Virtual Machine(s) have been powered OFF successfully"]
       else print ["Virtual Machine(s) already OFF"]
     else mret tt);;
    mret (Next, tt)) vmList tt.

(** The locals of [revert_vm] that outlive the loops; [task] is unbound
    ([None]) until a snapshot is found. *)
Record RevertLocals := {
  snapshot_found : bool;
  task : option (list Task)
}.

(** The four statements every level runs on a match (lines 127-130, 134-137,
    141-144); [level] is the label of the [print]. *)
Definition revert_here (level : string) (node : SnapshotTree) : M (Flow * RevertLocals) :=
  let snap_obj := tree_snapshot node in
  print [level +:+ " Reverting snapshot "; tree_name node];;
  t ← snap_RevertToSnapshot_Task snap_obj;
  mret (Break, {| snapshot_found := true; task := Some [t] |}).

(** Lines 139-145 *)
Definition level3 (snapshot_name : string) (s : RevertLocals) (subsnapshot2 : SnapshotTree)
  : M (Flow * RevertLocals) :=
  if decide (snapshot_name = tree_name subsnapshot2) then revert_here "LEVEL3" subsnapshot2
  else mret (Next, s).

(** Lines 132-145 *)
Definition level2 (snapshot_name : string) (s : RevertLocals) (subsnapshot : SnapshotTree)
  : M (Flow * RevertLocals) :=
  if decide (snapshot_name = tree_name subsnapshot) then revert_here "LEVEL2" subsnapshot
  else
    s' ← for_M (level3 snapshot_name) (childSnapshotList subsnapshot) s;
    mret (Next, s').

(** Lines 123-145 *)
Definition level1 (snapshot_name : string) (s : RevertLocals) (snapshot : SnapshotTree)
  : M (Flow * RevertLocals) :=
  if decide (snapshot_name = tree_name snapshot) then revert_here "LEVEL1" snapshot
  else
    s' ← for_M (level2 snapshot_name) (childSnapshotList snapshot) s;
    mret (Next, s').

(** Lines 120-145: [vm.snapshot.rootSnapshotList] raises when [vm.snapshot]
    is unset. *)
Definition revert_search (vmnames : list string) (snapshot_name : string)
    (s : RevertLocals) (vm : VirtualMachine) : M (Flow * RevertLocals) :=
  if decide (vm_name vm ∈ vmnames) then
    match vm_snapshot vm with
    | None => raise AttributeError
    | Some info =>
        s' ← for_M (level1 snapshot_name) (rootSnapshotList info) s;
        mret (Next, s')
    end
  else mret (Next, s).

(** Lines 118-152 *)
Definition revert_vm (vmList : list VirtualMachine) (vmnames : list string)
    (snapshot_name : string) (si : ServiceInstance) : M unit :=
  s ← for_M (revert_search vmnames snapshot_name) vmList
        {| snapshot_found := false; task := None |};
  if snapshot_found s then
    match task s with
    | None => raise UnboundLocalError
    | Some task => WaitForTasks task si;; print ["Done reverting"]
    end
  else print ["Snapshot *" +:+ snapshot_name +:+ "* not found"].

(** ** Vocabulary of the statements *)

(** The change records of an update set, each with the task of its object
    set, in the order the three nested loops visit them. *)
Definition records (update : UpdateSet) : list (Task * PropertyChange) :=
  filterSet ← update_filterSet update;
  objSet ← filterSet_objectSet filterSet;
  (λ change, (objSet_obj objSet, change)) <$> objSet_changeSet objSet.

Definition all_records (updates : list UpdateSet) : list (Task * PropertyChange) :=
  updates ≫= records.

(** The loop body on one such record. *)
Definition on_record (taskList : list string) (r : Task * PropertyChange) : Exn + list string :=
  on_change r.1 taskList r.2.

(** A change record shows state [s]: either the coarse ['info'] field with a
    task info in that state, or the fine ['info.state'] field with the state
    as its value. *)
Definition shows (s : TaskInfo_State) (change : PropertyChange) : Prop :=
  (change_name change = "info" ∧ change_val change = VTaskInfo s) ∨
  (change_name change = "info.state" ∧ change_val change = VState s).

Global Instance shows_dec s change : Decision (shows s change).
Proof. unfold shows. apply _. Defined.

(** The value of an ['info'] record is a task info, as the server sends it. *)
Definition typed (change : PropertyChange) : Prop :=
  change_name change = "info" → ∃ state, change_val change = VTaskInfo state.

Global Instance typed_dec change : Decision (typed change).
Proof.
  unfold typed. destruct (decide (change_name change = "info")) as [Hn|Hn].
  - destruct (change_val change) as [| |state].
    + right. intros H. by destruct (H Hn).
    + right. intros H. by destruct (H Hn).
    + left. intros _. by exists state.
  - left. intros H. by destruct (Hn H).
Defined.

(** Handle [h] (the [str] of a task) has a Success record among [rs]. *)
Definition success_seen (h : string) (rs : list (Task * PropertyChange)) : Prop :=
  Exists (λ r, task_str r.1 = h ∧ shows State_success r.2) rs.

Global Instance success_seen_dec h rs : Decision (success_seen h rs).
Proof. unfold success_seen. apply _. Defined.

(** Every handle of [tasks] has a Success record in the batches [updates]. *)
Definition all_seen (tasks : list Task) (updates : list UpdateSet) : Prop :=
  Forall (λ t, success_seen (task_str t) (all_records updates)) tasks.

Global Instance all_seen_dec tasks updates : Decision (all_seen tasks updates).
Proof. unfold all_seen. apply _. Defined.

(** The cursors handed to [pc.WaitForUpdates], in call order. *)
Definition receives (evs : list Event) : list (option string) :=
  omap (λ e, match e with EvWaitForUpdates version => Some version | _ => None end) evs.

(** The cursor after the batches [updates], starting from [version]. *)
Definition cursor_after (version : option string) (updates : list UpdateSet) : option string :=
  foldl (λ _ update, Some (update_version update)) version updates.

(** The cursors of the calls that fetch the batches [updates], one after
    another. *)
Fixpoint cursors (version : option string) (updates : list UpdateSet) : list (option string) :=
  match updates with
  | [] => []
  | update :: updates' => version :: cursors (Some (update_version update)) updates'
  end.

Definition is_receive (e : Event) : Prop :=
  match e with EvWaitForUpdates _ => True | _ => False end.

(** Events of the callers before any wait: a [print] or a submitted
    operation. *)
Definition is_local (e : Event) : Prop :=
  match e with
  | EvPrint _ | EvPowerOn _ | EvPowerOff _ | EvRevertToSnapshot _ => True
  | _ => False
  end.

(** [snapshot_name] names a node [d] levels down from [node] ([d = 1]: the
    node itself). *)
Fixpoint named_at (d : nat) (snapshot_name : string) (node : SnapshotTree) : Prop :=
  match d with
  | 0 => False
  | S d' =>
      match d' with
      | 0 => snapshot_name = tree_name node
      | S _ => Exists (named_at d' snapshot_name) (childSnapshotList node)
      end
  end.

(** [snap_obj] is the snapshot of a node of that name, [d] levels down. *)
Fixpoint snapshot_at (d : nat) (snapshot_name : string) (snap_obj : Snapshot)
    (node : SnapshotTree) : Prop :=
  match d with
  | 0 => False
  | S d' =>
      match d' with
      | 0 => snapshot_name = tree_name node ∧ snap_obj = tree_snapshot node
      | S _ => Exists (snapshot_at d' snapshot_name snap_obj) (childSnapshotList node)
      end
  end.

(** The name, or the snapshot, occurs at most [k] levels down from [node]. *)
Definition named_within (k : nat) (snapshot_name : string) (node : SnapshotTree) : Prop :=
  ∃ d, 1 ≤ d ≤ k ∧ named_at d snapshot_name node.

Definition snapshot_within (k : nat) (snapshot_name : string) (snap_obj : Snapshot)
    (node : SnapshotTree) : Prop :=
  ∃ d, 1 ≤ d ≤ k ∧ snapshot_at d snapshot_name snap_obj node.

(** Some requested machine of the inventory has a snapshot of that name at
    nesting depth 1, 2 or 3. *)
Definition found_shallow (vmList : list VirtualMachine) (vmnames : list string)
    (snapshot_name : string) : Prop :=
  ∃ vm info, vm ∈ vmList ∧ vm_name vm ∈ vmnames ∧ vm_snapshot vm = Some info ∧
    Exists (named_within 3 snapshot_name) (rootSnapshotList info).

(** [snap_obj] is such a snapshot. *)
Definition shallow_snapshot (vmList : list VirtualMachine) (vmnames : list string)
    (snapshot_name : string) (snap_obj : Snapshot) : Prop :=
  ∃ vm info, vm ∈ vmList ∧ vm_name vm ∈ vmnames ∧ vm_snapshot vm = Some info ∧
    Exists (snapshot_within 3 snapshot_name snap_obj) (rootSnapshotList info).

(** The locals after a match on [snap_obj]. *)
Definition found (snap_obj : Snapshot) : RevertLocals :=
  {| snapshot_found := true; task := Some [RevertToSnapshot_Task snap_obj] |}.

(** What a search loop over the nodes [l], looking at most [k] levels down,
    comes to: it returns, reads no reply, prints and submits only; either
    the name occurs and the locals hold the task of a revert it has
    submitted, or the name does not occur and nothing has happened. *)
Definition search_outcome (k : nat) (snapshot_name : string) (l : list SnapshotTree)
    (s : RevertLocals) (p : Pending) (out : Result RevertLocals * Pending * list Event) : Prop :=
  ∃ s' ev, out = (Return s', p, ev) ∧ Forall is_local ev ∧
    ((Exists (named_within k snapshot_name) l ∧
      ∃ snap_obj, Exists (snapshot_within k snapshot_name snap_obj) l ∧
                  s' = found snap_obj ∧ EvRevertToSnapshot snap_obj ∈ ev) ∨
     (¬ Exists (named_within k snapshot_name) l ∧ s' = s ∧ ev = [])).

(** A machine the power loop acts on: requested, and not yet in state
    [target]. *)
Definition to_switch (vmnames : list string) (target : VirtualMachinePowerState)
    (vm : VirtualMachine) : Prop :=
  vm_name vm ∈ vmnames ∧ vm_powerState vm ≠ target.

(** A record of a schedule in which the tasks of [taskList] only succeed:
    well typed, and not an Error record of one of them. *)
Definition benign (taskList : list string) (r : Task * PropertyChange) : Prop :=
  typed r.2 ∧ (task_str r.1 ∈ taskList → ¬ shows State_error r.2).

Global Instance benign_dec taskList r : Decision (benign taskList r).
Proof. unfold benign. apply _. Defined.

(** [turn_vm_on] and [turn_vm_off] are the same loop up to the state they
    aim at, the operation they submit and what they print; [power_loop true]
    is the former and [power_loop false] the latter. *)
Definition target (on : bool) : VirtualMachinePowerState :=
  if on then poweredOn else poweredOff.

Definition switch_task (on : bool) (vm : VirtualMachine) : Task :=
  if on then PowerOn vm else PowerOff vm.

Definition switch_event (on : bool) (vm : VirtualMachine) : Event :=
  if on then EvPowerOn vm else EvPowerOff vm.

Definition power_loop (on : bool) (vmList : list VirtualMachine) (vmnames : list string)
    (si : ServiceInstance) : M unit :=
  for_M (λ (_ : unit) vm,
    (if decide (vm_name vm ∈ vmnames) then
       if decide (vm_powerState vm ≠ target on) then
         print [if on then "Powering on machine!" else "Powering off machine!"];;
         task ← (if on then vm_PowerOn vm else vm_PowerOff vm);
         WaitForTasks [task] si;;
         print [if on then "Virtual Machine(s) have been powered ON successfully"
                else "Virtual Machine(s) have been powered OFF successfully"]
       else print [if on then "Virtual Machine(s) already ON"
                   else "Virtual Machine(s) already OFF"]
     else mret tt);;
    mret (Next, tt)) vmList tt.

Definition is_print (e : Event) : Prop :=
  match e with EvPrint _ => True | _ => False end.

(** An event of a wait: the filter is created over [tasks], updates are
    received, the filter is destroyed. *)
Definition wait_event (tasks : list Task) (e : Event) : Prop :=
  match e with
  | EvCreateFilter objectSet => objectSet = tasks
  | EvWaitForUpdates _ | EvDestroy _ => True
  | _ => False
  end.

(** [e1] comes right before [e2] in [evs]. *)
Definition adjacent (e1 e2 : Event) (evs : list Event) : Prop :=
  ∃ l1 l2, evs = l1 ++ e1 :: e2 :: l2.

(** ** Sample data *)

Definition task_A : Task :=
  {| task_str := "'vim.Task:task-1'"; task_info_error := {| fault_msg := "A failed" |} |}.
Definition task_B : Task :=
  {| task_str := "'vim.Task:task-2'"; task_info_error := {| fault_msg := "B failed" |} |}.
Definition task_C : Task :=
  {| task_str := "'vim.Task:task-3'"; task_info_error := {| fault_msg := "C failed" |} |}.

Definition si_0 : ServiceInstance :=
  {| CreateFilter := λ _, Some {| filter_id := 1 |} |}.

Definition change (name : string) (val : Val) : PropertyChange :=
  {| change_name := name; change_val := val |}.

(** An update set with one filter update reporting the given changes. *)
Definition batch (version : string) (l : list (Task * list PropertyChange)) : UpdateSet :=
  {| update_version := version;
     update_filterSet :=
       [ {| filterSet_objectSet :=
              (λ tc, {| objSet_obj := tc.1; objSet_changeSet := tc.2 |}) <$> l |} ] |}.

(** C succeeds first, then A, then B, over three batches; a fourth batch is
    left over. *)
Definition schedule_CAB : list UpdateSet :=
  [ batch "1" [ (task_A, [change "info" (VTaskInfo State_running)]);
                (task_B, [change "info" (VTaskInfo State_queued)]);
                (task_C, [change "info" (VTaskInfo State_success)]) ];
    batch "2" [ (task_A, [change "info.state" (VState State_success)]);
                (task_B, [change "info.state" (VState State_running);
                          change "info.progress" VNone]) ];
    batch "3" [ (task_B, [change "info.state" (VState State_success)]) ];
    batch "4" [ (task_C, [change "info.state" (VState State_success)]) ] ].

(** A fails in the first batch, before anything is heard of B. *)
Definition schedule_A_fails : list UpdateSet :=
  [ batch "1" [ (task_A, [change "info" (VTaskInfo State_running);
                          change "info.state" (VState State_error);
                          change "info.state" (VState State_success)]);
                (task_B, [change "info" (VTaskInfo State_error)]) ];
    batch "2" [ (task_B, [change "info.state" (VState State_success)]) ] ].

(** A batch in which task B, which nobody waits for here, reports an error,
    and task A progress and then success; and the same batch less A's Success
    record, less the progress record, less B's record. *)
Definition batch_AB : UpdateSet :=
  batch "1" [ (task_B, [change "info" (VTaskInfo State_error)]);
              (task_A, [change "info.progress" VNone;
                        change "info" (VTaskInfo State_success)]) ].

Definition batch_AB_less_A : UpdateSet :=
  batch "1" [ (task_B, [change "info" (VTaskInfo State_error)]);
              (task_A, [change "info.progress" VNone]) ].

Definition batch_AB_less_progress : UpdateSet :=
  batch "1" [ (task_B, [change "info" (VTaskInfo State_error)]);
              (task_A, [change "info" (VTaskInfo State_success)]) ].

Definition batch_AB_less_B : UpdateSet :=
  batch "1" [ (task_B, []);
              (task_A, [change "info.progress" VNone;
                        change "info" (VTaskInfo State_success)]) ].

(** A batch in which the ['info'] record of task B carries no task info, and
    the same batch less that record. *)
Definition batch_B_stateless : UpdateSet :=
  batch "1" [ (task_B, [change "info" VNone]);
              (task_A, [change "info.state" (VState State_success)]) ].

Definition batch_B_absent : UpdateSet :=
  batch "1" [ (task_B, []);
              (task_A, [change "info.state" (VState State_success)]) ].

(** Snapshots and machines: "web" is off and has a chain of four nested
    snapshots besides a second root; "db" is on and has no snapshot. *)
Definition snap (id : string) : Snapshot :=
  {| snap_id := id;
     RevertToSnapshot_Task :=
       {| task_str := "'vim.Task:revert-" +:+ id +:+ "'";
          task_info_error := {| fault_msg := "revert failed" |} |} |}.

Definition node (name : string) (children : list SnapshotTree) : SnapshotTree :=
  {| tree_name := name; tree_snapshot := snap name; childSnapshotList := children |}.

Definition vm_web : VirtualMachine :=
  {| vm_name := "web";
     vm_powerState := poweredOff;
     vm_snapshot :=
       Some {| rootSnapshotList :=
                 [ node "base" [ node "patched" [ node "tested" [ node "golden" [] ] ] ];
                   node "clean" [] ] |};
     PowerOn := task_A;
     PowerOff := task_B |}.

Definition vm_db : VirtualMachine :=
  {| vm_name := "db";
     vm_powerState := poweredOn;
     vm_snapshot := None;
     PowerOn := task_C;
     PowerOff := task_B |}.

(** ** [main] *)

(** The parsed command line, as [GetArgs] hands it over: [-p] and [-s] are
    optional, [-v] may be given several times. *)
Record Args := {
  args_host : string;
  args_port : Z;
  args_user : string;
  args_password : option string;
  args_vmname : list string;
  args_action : string;
  args_snapshot : option string
}.

(** Line 160, how [GetArgs] ends.  [parse_args] leaves through [SystemExit]
    when a required option is missing, when the port is no integer, or on
    [-h]; what argparse writes then is not recorded.  Otherwise it hands over
    the options; [-v] is required and appends, so the list of names it hands
    over holds at least one name. *)
Inductive GetArgsResult :=
  | ArgparseExit
  | Parsed (args : Args) (given : args_vmname args ≠ []).

Definition parsed_args (parse : GetArgsResult) : option Args :=
  match parse with
  | ArgparseExit => None
  | Parsed args _ => Some args
  end.

(** How [SmartConnect] ends: with an [IOError], with another exception, or
    with a service instance, whose inventory view then lists the machines
    [view]. *)
Inductive ConnectReply :=
  | ConnectIOError
  | ConnectRaises (e : Exn)
  | Connected (si : ServiceInstance) (view : list VirtualMachine).

(** What [main] meets outside the property collector: the password typed at
    the prompt, the answer of [SmartConnect] to host, user, password and
    port, and the text [str(e)] of an exception. *)
Record Host := {
  getpass : string → string;
  SmartConnect : string → string → string → Z → ConnectReply;
  exn_str : Exn → string
}.

(** What [main] does to the outside; [Act] wraps the events of the code
    above, prints included. *)
Inductive MainEvent :=
  | EvGetpass (prompt : string)
  | EvSmartConnect (host user pwd : string) (port : Z)
  | EvAtexitRegister (si : ServiceInstance)
  | EvCreateContainerView
  | EvViewDestroy
  | Act (e : Event).

(** How [main] ends: it returns, it leaves through [SystemExit] (raised by
    argparse on line 160, or by [sys.exit()] and [exit()] inside the [try]:
    [SystemExit] is no [Exception] and passes both handlers), or it hangs in
    a wait. *)
Inductive MainResult := MainReturned | MainExit | MainBlocked.

(** [str.lower] on the ASCII letters.  Bytes outside ASCII stay as they are;
    Python maps no character onto a letter of the three action words other
    than that letter's upper case. *)
Definition lower_ascii (c : Ascii.ascii) : Ascii.ascii :=
  let n := Ascii.nat_of_ascii c in
  if decide (65 ≤ n ≤ 90) then Ascii.ascii_of_nat (n + 32) else c.

Fixpoint lower (s : string) : string :=
  match s with
  | EmptyString => EmptyString
  | String c s' => String (lower_ascii c) (lower s')
  end.

(** Lines 225-228: the line a handler prints.  [TaskFault] and [ServerFault]
    are [vmodl.MethodFault]s and carry their [msg]. *)
Definition caught (host : Host) (e : Exn) : string :=
  match e with
  | TaskFault f => "Caught vmodl fault : " +:+ fault_msg f
  | ServerFault msg => "Caught vmodl fault : " +:+ msg
  | _ => "Caught Exception : " +:+ exn_str host e
  end.

(** An action inside the [try] of [main]: what it raises is caught and
    printed, and [main] returns. *)
Definition guarded (host : Host) (action : M unit) (pending : Pending)
  : MainResult * Pending * list MainEvent :=
  match action pending with
  | (Return _, p, ev) => (MainReturned, p, Act <$> ev)
  | (Raise e, p, ev) => (MainReturned, p, (Act <$> ev) ++ [Act (EvPrint [caught host e])])
  | (Blocked, p, ev) => (MainBlocked, p, Act <$> ev)
  end.

(** Lines 200-203 *)
Definition name_present (vmList : list VirtualMachine) (vmnames : list string) : bool :=
  foldl (λ found vm, if decide (vm_name vm ∈ vmnames) then true else found) false vmList.

(** Lines 211-222 *)
Definition dispatch (args : Args) (host : Host) (si : ServiceInstance)
    (vmList : list VirtualMachine) (pending : Pending)
  : MainResult * Pending * list MainEvent :=
  let vmnames := args_vmname args in
  if decide (lower (args_action args) = "poweron") then
    guarded host (turn_vm_on vmList vmnames si) pending
  else if decide (lower (args_action args) = "poweroff") then
    guarded host (turn_vm_off vmList vmnames si) pending
  else if decide (lower (args_action args) = "revert") then
    match args_snapshot args with
    | None =>
        (MainExit, pending,
         [Act (EvPrint ["You forgot to specify snapshot name. Example: -s snapshotname"])])
    | Some snapshot_name => guarded host (revert_vm vmList vmnames snapshot_name si) pending
    end
  else (MainReturned, pending, [Act (EvPrint ["wrong action"])]).

(** Lines 166-228, the [try] block with its handlers. *)
Definition main_body (args : Args) (host : Host) (password : string) (pending : Pending)
  : MainResult * Pending * list MainEvent :=
  let vmnames := args_vmname args in
  if decide (length vmnames = 0) then
    (MainExit, pending, [Act (EvPrint ["No virtual machine specified for poweron"])])
  else
    let connect := EvSmartConnect (args_host args) (args_user args) password (args_port args) in
    match SmartConnect host (args_host args) (args_user args) password (args_port args) with
    | ConnectIOError =>
        (MainExit, pending,
         [connect;
          Act (EvPrint
            ["Cannot connect to specified host using specified username and password"])])
    | ConnectRaises e =>
        (MainReturned, pending, [connect; Act (EvPrint [caught host e])])
    | Connected si vmList =>
        let opening :=
          [connect; EvAtexitRegister si; EvCreateContainerView; EvViewDestroy] in
        if name_present vmList vmnames then
          let '(r, p, ev) := dispatch args host si vmList pending in
          (r, p, opening ++ ev)
        else
          (MainExit, pending, opening ++ [Act (EvPrint ["VM specified was not found"])])
    end.

(** Lines 161-228: [main] from the parsed options on. *)
Definition main_parsed (args : Args) (host : Host) (pending : Pending)
  : MainResult * Pending * list MainEvent :=
  let prompt :=
    "Enter password for host " +:+ args_host args +:+ " and user " +:+ args_user args +:+ ": " in
  match args_password args with
  | Some password =>
      if decide (password ≠ "") then main_body args host password pending
      else
        let '(r, p, ev) := main_body args host (getpass host prompt) pending in
        (r, p, EvGetpass prompt :: ev)
  | None =>
      let '(r, p, ev) := main_body args host (getpass host prompt) pending in
      (r, p, EvGetpass prompt :: ev)
  end.

(** Lines 155-228 *)
Definition main (parse : GetArgsResult) (host : Host) (pending : Pending)
  : MainResult * Pending * list MainEvent :=
  match parse with
  | ArgparseExit => (MainExit, pending, [])
  | Parsed args _ => main_parsed args host pending
  end.

(** The events of the code above among those of [main]. *)
Definition acts (evs : list MainEvent) : list Event :=
  omap (λ e, match e with Act e' => Some e' | _ => None end) evs.

(** An event that reaches the machines: a power operation, a revert, or a
    call on the property collector. *)
Definition touches_server (e : Event) : Prop :=
  match e with EvPrint _ => False | _ => True end.

(** The password [main] connects with: the one of the command line unless
    it is missing or empty, else the one typed at the prompt. *)
Definition password_used (args : Args) (host : Host) : string :=
  match args_password args with
  | Some password =>
      if decide (password ≠ "") then password
      else getpass host ("Enter password for host " +:+ args_host args +:+
                         " and user " +:+ args_user args +:+ ": ")
  | None => getpass host ("Enter password for host " +:+ args_host args +:+
                          " and user " +:+ args_user args +:+ ": ")
  end.

(** How [SmartConnect] answers [main]. *)
Definition connect_reply (args : Args) (host : Host) : ConnectReply :=
  SmartConnect host (args_host args) (args_user args) (password_used args host)
    (args_port args).

Definition main_result (r : MainResult * Pending * list MainEvent) : MainResult := r.1.1.
Definition main_unread (r : MainResult * Pending * list MainEvent) : Pending := r.1.2.
Definition main_events (r : MainResult * Pending * list MainEvent) : list MainEvent := r.2.

(** ** Further vocabulary: which snapshots are reverted to *)

(** The snapshots reverted to, in the order the calls are made. *)
Definition reverts (evs : list Event) : list Snapshot :=
  omap (λ e, match e with EvRevertToSnapshot snap_obj => Some snap_obj | _ => None end) evs.

(** The snapshots of the nodes named [snapshot_name] at most [k] levels down
    from the nodes [l]: a node before the nodes below it, siblings from left
    to right. *)
Fixpoint named_nodes (k : nat) (snapshot_name : string) (l : list SnapshotTree)
  : list Snapshot :=
  match k with
  | 0 => []
  | S k' =>
      l ≫= λ node,
        (if decide (snapshot_name = tree_name node) then [tree_snapshot node] else []) ++
        named_nodes k' snapshot_name (childSnapshotList node)
  end.

(** The same over the requested machines of the inventory, three levels
    down. *)
Definition candidates (vmList : list VirtualMachine) (vmnames : list string)
    (snapshot_name : string) : list Snapshot :=
  vmList ≫= λ vm,
    if decide (vm_name vm ∈ vmnames) then
      match vm_snapshot vm with
      | Some info => named_nodes 3 snapshot_name (rootSnapshotList info)
      | None => []
      end
    else [].

(** The events of the search loops: a [print] or a revert. *)
Definition is_search_event (e : Event) : Prop :=
  match e with EvPrint _ | EvRevertToSnapshot _ => True | _ => False end.

(** The locals after the reverts [rs], starting from [s]: they hold the task
    of the last one. *)
Definition locals_after (s : RevertLocals) (rs : list Snapshot) : RevertLocals :=
  match last rs with
  | Some snap_obj => found snap_obj
  | None => s
  end.

(** What a search loop over the nodes [l] leaves behind, in terms of the
    reverts it has submitted. *)
Definition search_trace (k : nat) (snapshot_name : string) (l : list SnapshotTree)
    (s : RevertLocals) (p : Pending) (out : Result RevertLocals * Pending * list Event) : Prop :=
  ∃ ev, out = (Return (locals_after s (reverts ev)), p, ev) ∧
        Forall is_search_event ev ∧
        reverts ev `sublist_of` named_nodes k snapshot_name l ∧
        (named_nodes k snapshot_name l ≠ [] → reverts ev ≠ []).

(** A machine with two snapshots of one name under different branches. *)
Definition vm_lab : VirtualMachine :=
  {| vm_name := "lab";
     vm_powerState := poweredOn;
     vm_snapshot :=
       Some {| rootSnapshotList :=
                 [ {| tree_name := "base"; tree_snapshot := snap "base";
                      childSnapshotList :=
                        [ {| tree_name := "daily"; tree_snapshot := snap "daily-1";
                             childSnapshotList := [] |} ] |};
                   {| tree_name := "daily"; tree_snapshot := snap "daily-2";
                      childSnapshotList := [] |} ] |};
     PowerOn := task_A;
     PowerOff := task_B |}.

(** Two command lines, as parsed, and two hosts: one that lets everybody in
    and shows the machines "web" and "db", one that cannot be reached. *)
Definition args_web (action : string) (snapshot : option string) : Args :=
  {| args_host := "10.10.1.1"; args_port := 443; args_user := "root";
     args_password := Some "secret"; args_vmname := ["web"];
     args_action := action; args_snapshot := snapshot |}.

Definition args_mail (action : string) (snapshot : option string) : Args :=
  {| args_host := "10.10.1.1"; args_port := 443; args_user := "root";
     args_password := None; args_vmname := ["mail"];
     args_action := action; args_snapshot := snapshot |}.

Definition parsed_web (action : string) (snapshot : option string) : GetArgsResult :=
  Parsed (args_web action snapshot) ltac:(done).

Definition parsed_mail (action : string) (snapshot : option string) : GetArgsResult :=
  Parsed (args_mail action snapshot) ltac:(done).

Definition host_up : Host :=
  {| getpass := λ _, "typed";
     SmartConnect := λ _ _ _ _, Connected si_0 [vm_web; vm_db];
     exn_str := λ _, "error" |}.

Definition host_down : Host :=
  {| getpass := λ _, "typed";
     SmartConnect := λ _ _ _ _, ConnectIOError;
     exn_str := λ _, "error" |}.

(** ** Running computations *)

Lemma run_bind {A B} (m : M A) (k : A → M B) p :
  (m ≫= k) p =
  match m p with
  | (Return a, p1, ev1) => let '(r, p2, ev2) := k a p1 in (r, p2, ev1 ++ ev2)
  | (Raise e, p1, ev1) => (Raise e, p1, ev1)
  | (Blocked, p1, ev1) => (Blocked, p1, ev1)
  end.
Proof. reflexivity. Qed.

Lemma run_ret {A} (a : A) p : (mret a : M A) p = (Return a, p, []).
Proof. reflexivity. Qed.

Lemma run_emit e p : emit e p = (Return tt, p, [e]).
Proof. reflexivity. Qed.

(** ** Loops over lists *)

Lemma for_each_app {A S} (body : S → A → Exn + S) l1 l2 s :
  for_each body (l1 ++ l2) s =
  match for_each body l1 s with
  | inl e => inl e
  | inr s' => for_each body l2 s'
  end.
Proof.
  revert s. induction l1 as [|x l1 IH]; intros s; simpl; [done|].
  destruct (body s x); [done|]. apply IH.
Qed.

Lemma for_each_bind {A B S} (body : S → B → Exn + S) (f : A → list B) l s :
  for_each body (l ≫= f) s = for_each (λ s x, for_each body (f x) s) l s.
Proof.
  revert s. induction l as [|x l IH]; intros s; [done|].
  rewrite bind_cons, for_each_app. simpl.
  destruct (for_each body (f x) s); [done|]. apply IH.
Qed.

Lemma for_each_fmap {A B S} (body : S → B → Exn + S) (f : A → B) l s :
  for_each body (f <$> l) s = for_each (λ s x, body s (f x)) l s.
Proof.
  revert s. induction l as [|x l IH]; intros s; simpl; [done|].
  destruct (body s (f x)); [done|]. apply IH.
Qed.

Lemma for_each_ext {A S} (body1 body2 : S → A → Exn + S) l s :
  (∀ s x, body1 s x = body2 s x) → for_each body1 l s = for_each body2 l s.
Proof.
  intros Hext. revert s. induction l as [|x l IH]; intros s; simpl; [done|].
  rewrite Hext. destruct (body2 s x); [done|]. apply IH.
Qed.

Lemma on_update_records taskList update :
  on_update taskList update = for_each on_record (records update) taskList.
Proof.
  unfold on_update, records. rewrite for_each_bind.
  apply for_each_ext. intros s filterSet. rewrite for_each_bind.
  apply for_each_ext. intros s' objSet. by rewrite for_each_fmap.
Qed.

(** ** [list.remove] *)

Lemma list_remove_elem x l : x ∈ l → ∃ l', list_remove x l = Some l'.
Proof.
  induction l as [|y l IH]; intros Hin; [by apply elem_of_nil in Hin|].
  simpl. destruct (decide (x = y)) as [|Hne]; [by eexists|].
  apply elem_of_cons in Hin as [|Hin]; [done|].
  destruct (IH Hin) as [l' ->]. by eexists.
Qed.

Lemma list_remove_None x l : x ∉ l → list_remove x l = None.
Proof.
  induction l as [|y l IH]; intros Hnin; [done|].
  simpl. apply not_elem_of_cons in Hnin as [Hne Hnin].
  destruct (decide (x = y)); [done|]. by rewrite IH.
Qed.

Lemma list_remove_sublist x l l' : list_remove x l = Some l' → l' `sublist_of` l.
Proof.
  revert l'. induction l as [|y l IH]; intros l' Hrem; [done|].
  simpl in Hrem. destruct (decide (x = y)).
  - injection Hrem as <-. by apply sublist_cons.
  - destruct (list_remove x l) as [l0|]; [|done].
    injection Hrem as <-. apply sublist_skip. by apply IH.
Qed.

Lemma list_remove_length x l l' : list_remove x l = Some l' → length l = S (length l').
Proof.
  revert l'. induction l as [|y l IH]; intros l' Hrem; [done|].
  simpl in Hrem. destruct (decide (x = y)).
  - by injection Hrem as <-.
  - destruct (list_remove x l) as [l0|]; [|done].
    injection Hrem as <-. simpl. f_equal. by apply IH.
Qed.

Lemma list_remove_NoDup x l l' :
  NoDup l → list_remove x l = Some l' → l' = filter (λ y, y ≠ x) l.
Proof.
  revert l'. induction l as [|y l IH]; intros l' Hnd Hrem; [done|].
  apply NoDup_cons in Hnd as [Hy Hnd]. simpl in Hrem.
  destruct (decide (x = y)) as [->|Hne].
  - injection Hrem as <-. rewrite filter_cons_False by (intros H; by apply H).
    symmetry. clear IH. induction l as [|z l IH]; [done|].
    apply not_elem_of_cons in Hy as [Hyz Hy]. apply NoDup_cons in Hnd as [_ Hnd].
    rewrite filter_cons_True by done. f_equal. by apply IH.
  - destruct (list_remove x l) as [l0|]; [|done].
    injection Hrem as <-. rewrite filter_cons_True by done.
    f_equal. by apply IH.
Qed.

(** ** One change record *)

Lemma change_state_shows s change :
  change_state change = inr (Some (VState s)) ↔ shows s change.
Proof.
  unfold change_state, shows.
  destruct (decide (change_name change = "info")) as [Hn|Hn].
  - rewrite Hn. destruct (change_val change); split; intros H;
      try done; try (injection H as ->; by left);
      destruct H as [[_ H]|[H _]]; try done; by injection H as ->.
  - destruct (decide (change_name change = "info.state")) as [Hn'|Hn'].
    + split; intros H.
      * injection H as H. by right.
      * destruct H as [[H _]|[_ ->]]; done.
    + split; intros H; [done|]. by destruct H as [[H _]|[H _]].
Qed.

Lemma change_state_typed change :
  typed change ↔ ∃ o, change_state change = inr o.
Proof.
  unfold change_state, typed.
  destruct (decide (change_name change = "info")) as [Hn|Hn].
  - split.
    + intros H. destruct (H Hn) as [state ->]. by eexists.
    + intros [o H] _. destruct (change_val change); try done. by eexists.
  - split; [|done]. intros _. destruct (decide _); by eexists.
Qed.

Lemma shows_typed s change : shows s change → typed change.
Proof. intros H. apply change_state_typed. apply change_state_shows in H. by eexists. Qed.

Lemma shows_inj s1 s2 change : shows s1 change → shows s2 change → s1 = s2.
Proof.
  intros H1%change_state_shows H2%change_state_shows. congruence.
Qed.

Lemma on_change_other_name t taskList change :
  change_name change ≠ "info" → change_name change ≠ "info.state" →
  on_change t taskList change = inr taskList.
Proof.
  intros H1 H2. unfold on_change, change_state.
  by rewrite !decide_False.
Qed.

Lemma on_change_untracked t taskList change :
  task_str t ∉ taskList → typed change → on_change t taskList change = inr taskList.
Proof.
  intros Hnin [o Ho]%change_state_typed. unfold on_change. rewrite Ho.
  destruct o; [|done]. by rewrite decide_False.
Qed.

Lemma on_change_success t taskList change :
  shows State_success change → task_str t ∈ taskList →
  ∃ taskList', on_change t taskList change = inr taskList' ∧
               list_remove (task_str t) taskList = Some taskList'.
Proof.
  intros Hs%change_state_shows Hin. unfold on_change. rewrite Hs.
  rewrite decide_True by done. rewrite decide_True by done.
  destruct (list_remove_elem _ _ Hin) as [l' ->]. by eexists.
Qed.

Lemma on_change_error t taskList change :
  shows State_error change → task_str t ∈ taskList →
  on_change t taskList change = inl (TaskFault (task_info_error t)).
Proof.
  intros Hs%change_state_shows Hin. unfold on_change. rewrite Hs.
  rewrite decide_True by done. rewrite decide_False by done.
  by rewrite decide_True.
Qed.

Lemma on_change_inr t taskList change taskList' :
  on_change t taskList change = inr taskList' →
  taskList' = taskList ∨
  (shows State_success change ∧ task_str t ∈ taskList ∧
   list_remove (task_str t) taskList = Some taskList').
Proof.
  unfold on_change. intros H.
  destruct (change_state change) as [e|[state|]] eqn:Hcs; [done| |by left; injection H].
  destruct (decide (task_str t ∈ taskList)) as [Hin|]; [|by left; injection H].
  destruct (decide (state = VState State_success)) as [->|].
  - destruct (list_remove _ _) eqn:Hrem; [|done]. injection H as <-.
    right. by rewrite <-change_state_shows.
  - destruct (decide _); [done|]. left. by injection H.
Qed.

Lemma on_change_inl t taskList change e :
  on_change t taskList change = inl e →
  (e = AttributeError ∧ ¬ typed change) ∨
  (e = TaskFault (task_info_error t) ∧ shows State_error change ∧ task_str t ∈ taskList).
Proof.
  unfold on_change. intros H.
  destruct (change_state change) as [e'|[state|]] eqn:Hcs; [| |done].
  - left. injection H as <-. split.
    + unfold change_state in Hcs. repeat case_decide; try done.
      destruct (change_val change); congruence.
    + intros [o Ho]%change_state_typed. congruence.
  - destruct (decide (task_str t ∈ taskList)) as [Hin|]; [|done].
    destruct (decide (state = VState State_success)) as [->|].
    + destruct (list_remove_elem _ _ Hin) as [l' Hl']. by rewrite Hl' in H.
    + destruct (decide (state = VState State_error)) as [->|]; [|done].
      right. injection H as <-. by rewrite <-change_state_shows.
Qed.

Lemma on_change_sublist t taskList change taskList' :
  on_change t taskList change = inr taskList' → taskList' `sublist_of` taskList.
Proof.
  intros [->|(_ & _ & H)]%on_change_inr; [done|]. by eapply list_remove_sublist.
Qed.

Lemma on_records_sublist rs taskList taskList' :
  for_each on_record rs taskList = inr taskList' → taskList' `sublist_of` taskList.
Proof.
  revert taskList. induction rs as [|[t c] rs IH]; intros taskList H; simpl in H.
  - by injection H as <-.
  - unfold on_record at 1 in H. simpl in H.
    destruct (on_change t taskList c) as [|l1] eqn:H1; [done|].
    etrans; [by apply IH|]. by eapply on_change_sublist.
Qed.

Lemma on_updates_records updates taskList :
  for_each on_update updates taskList = for_each on_record (all_records updates) taskList.
Proof.
  unfold all_records. rewrite for_each_bind.
  apply for_each_ext. intros. apply on_update_records.
Qed.

Lemma on_updates_sublist updates taskList taskList' :
  for_each on_update updates taskList = inr taskList' → taskList' `sublist_of` taskList.
Proof. rewrite on_updates_records. apply on_records_sublist. Qed.

(** ** The receive loop *)

Lemma wait_loop_nil version pending :
  wait_loop [] version pending = (Return tt, pending, []).
Proof. by destruct pending. Qed.

Lemma wait_loop_fault taskList version e rest :
  taskList ≠ [] →
  wait_loop taskList version (inl e :: rest) = (Raise e, rest, [EvWaitForUpdates version]).
Proof. intros Hne. destruct taskList; [done|]. reflexivity. Qed.

Lemma wait_loop_update taskList version update rest :
  taskList ≠ [] →
  wait_loop taskList version (inr update :: rest) =
  match on_update taskList update with
  | inl e => (Raise e, rest, [EvWaitForUpdates version])
  | inr taskList' =>
      let '(r, p, ev) := wait_loop taskList' (Some (update_version update)) rest in
      (r, p, EvWaitForUpdates version :: ev)
  end.
Proof. intros Hne. destruct taskList; [done|]. reflexivity. Qed.

Lemma wait_loop_starved taskList version :
  taskList ≠ [] →
  wait_loop taskList version [] = (Blocked, [], [EvWaitForUpdates version]).
Proof. intros Hne. destruct taskList; [done|]. reflexivity. Qed.

Lemma sublist_not_nil (l1 l2 : list string) : l1 `sublist_of` l2 → l1 ≠ [] → l2 ≠ [].
Proof. intros Hsub Hne ->. by apply sublist_nil_r in Hsub. Qed.

(** Batches that leave some task active are consumed one by one, and the
    loop goes on from what they leave. *)
Lemma wait_loop_prefix updates taskList taskList1 version pending :
  for_each on_update updates taskList = inr taskList1 → taskList1 ≠ [] →
  wait_loop taskList version ((inr <$> updates) ++ pending) =
  let '(r, p, ev) := wait_loop taskList1 (cursor_after version updates) pending in
  (r, p, (EvWaitForUpdates <$> cursors version updates) ++ ev).
Proof.
  revert taskList version.
  induction updates as [|u updates IH]; intros taskList version Hrun Hne; simpl in Hrun.
  - injection Hrun as ->. simpl. by destruct (wait_loop _ _ _) as [[r p] ev].
  - destruct (on_update taskList u) as [|taskList2] eqn:Hu; [done|].
    rewrite fmap_cons, <-app_comm_cons, wait_loop_update.
    + rewrite Hu, (IH _ _ Hrun Hne). simpl.
      by destruct (wait_loop _ _ _) as [[r p] ev].
    + apply on_updates_sublist in Hrun.
      rewrite on_update_records in Hu. apply on_records_sublist in Hu.
      eapply sublist_not_nil; [|done]. by etrans.
Qed.

Lemma wait_loop_events taskList version pending :
  Forall is_receive (events (wait_loop taskList version pending)).
Proof.
  revert taskList version.
  induction pending as [|[e|u] rest IH]; intros taskList version.
  - destruct taskList; simpl; repeat constructor.
  - destruct taskList; simpl; repeat constructor.
  - destruct taskList as [|h taskList]; [by constructor|].
    rewrite wait_loop_update by done.
    destruct (on_update _ u) as [|taskList'].
    + by repeat constructor.
    + specialize (IH taskList' (Some (update_version u))).
      destruct (wait_loop _ _ rest) as [[r p] ev]. by constructor.
Qed.

(** Without a task nothing but line 61 happens. *)
Lemma WaitForTasks_nil si pending :
  WaitForTasks [] si pending = (Raise TypeError, pending, []).
Proof. reflexivity. Qed.

(** A list that update sets leave non-empty was not empty to begin with. *)
Lemma tasks_not_nil tasks updates taskList :
  for_each on_update updates (task_str <$> tasks) = inr taskList →
  taskList ≠ [] → tasks ≠ [].
Proof.
  intros Hrun%on_updates_sublist Hne ->. by apply sublist_nil_r in Hrun.
Qed.

(** The whole of [WaitForTasks] on some tasks, in terms of its loop. *)
Lemma WaitForTasks_run tasks si pending :
  tasks ≠ [] →
  WaitForTasks tasks si pending =
  let '(r, p, ev) := wait_loop (task_str <$> tasks) None pending in
  match r with
  | Blocked => (Blocked, p, EvCreateFilter tasks :: ev)
  | _ =>
      (r, p, EvCreateFilter tasks :: ev ++
               match CreateFilter si tasks with
               | Some f => [EvDestroy f]
               | None => []
               end)
  end.
Proof.
  intros Hne.
  unfold WaitForTasks, set_objectSet, pc_CreateFilter, try_finally, filter_Destroy.
  rewrite decide_False by done.
  rewrite !run_bind, run_ret, !run_bind, run_emit. simpl.
  destruct (wait_loop _ _ _) as [[[a|e|] p] ev]; destruct (CreateFilter si tasks);
    simpl; by rewrite ?app_nil_r.
Qed.

(** ** Schedules in which the tasks only succeed *)

Lemma filter_all {A} (P : A → Prop) `{!∀ x, Decision (P x)} (l : list A) :
  (∀ x, x ∈ l → P x) → filter P l = l.
Proof.
  induction l as [|x l IH]; intros HP; [done|].
  rewrite filter_cons_True by (apply HP; left).
  f_equal. apply IH. intros y Hy. apply HP. by right.
Qed.

Lemma filter_nil_iff {A} (P : A → Prop) `{!∀ x, Decision (P x)} (l : list A) :
  filter P l = [] ↔ ∀ x, x ∈ l → ¬ P x.
Proof.
  split.
  - intros Hnil x Hx HP. by eapply filter_nil_not_elem_of.
  - induction l as [|x l IH]; intros HP; [done|].
    rewrite filter_cons_False by (apply HP; left).
    apply IH. intros y Hy. apply HP. by right.
Qed.

Lemma benign_sublist taskList taskList' r :
  taskList' `sublist_of` taskList → benign taskList r → benign taskList' r.
Proof.
  intros Hsub [Ht Hne]. split; [done|]. intros Hin. apply Hne.
  by eapply sublist_subseteq.
Qed.

(** On a duplicate-free list a benign record removes its own handle when it
    shows Success, and nothing otherwise. *)
Lemma on_record_filter taskList r :
  NoDup taskList → benign taskList r →
  on_record taskList r =
  inr (filter (λ h, ¬ (task_str r.1 = h ∧ shows State_success r.2)) taskList).
Proof.
  intros Hnd [Ht Hne]. destruct r as [t c]. unfold on_record. simpl in *.
  destruct (decide (shows State_success c)) as [Hs|Hs].
  - destruct (decide (task_str t ∈ taskList)) as [Hin|Hin].
    + destruct (on_change_success t taskList c Hs Hin) as (l' & -> & Hrem).
      f_equal. rewrite (list_remove_NoDup _ _ _ Hnd Hrem).
      apply list_filter_iff. intros h. split.
      * intros Hh [Heq _]. by apply Hh.
      * intros Hh Heq. apply Hh. by split.
    + rewrite on_change_untracked by done. f_equal. symmetry.
      apply filter_all. intros h Hh [<- _]. done.
  - destruct (on_change t taskList c) as [e|l'] eqn:Hc.
    + apply on_change_inl in Hc as [[_ Hc]|(_ & Hc & Hin)]; [done|].
      by destruct (Hne Hin).
    + apply on_change_inr in Hc as [->|[Hc _]]; [|done].
      f_equal. symmetry. apply filter_all. by intros h Hh [_ ?].
Qed.

Lemma on_records_filter rs taskList :
  NoDup taskList → Forall (benign taskList) rs →
  for_each on_record rs taskList = inr (filter (λ h, ¬ success_seen h rs) taskList).
Proof.
  revert taskList. induction rs as [|r rs IH]; intros taskList Hnd Hb.
  - simpl. f_equal. symmetry. apply filter_all. intros h _ H. by apply Exists_nil in H.
  - apply Forall_cons in Hb as [Hr Hb]. simpl.
    rewrite on_record_filter by done. rewrite IH.
    + f_equal. rewrite list_filter_filter. apply list_filter_iff.
      intros h. unfold success_seen. rewrite Exists_cons. tauto.
    + by apply NoDup_filter.
    + eapply Forall_impl; [done|]. intros r'. apply benign_sublist, sublist_filter.
Qed.

Lemma all_records_cons u updates :
  all_records (u :: updates) = records u ++ all_records updates.
Proof. apply bind_cons. Qed.

Lemma success_seen_app h rs1 rs2 :
  success_seen h (rs1 ++ rs2) ↔ success_seen h rs1 ∨ success_seen h rs2.
Proof. apply Exists_app. Qed.

(** The loop proper: it takes batches until the one that brings the last
    missing Success record, and returns there. *)
Lemma wait_loop_all_success updates taskList version pending :
  NoDup taskList →
  Forall (benign taskList) (all_records updates) →
  (∀ h, h ∈ taskList → success_seen h (all_records updates)) →
  ∃ n, n ≤ length updates ∧
    wait_loop taskList version ((inr <$> updates) ++ pending) =
      (Return tt, (inr <$> drop n updates) ++ pending,
       EvWaitForUpdates <$> cursors version (take n updates)) ∧
    (∀ h, h ∈ taskList → success_seen h (all_records (take n updates))) ∧
    (∀ m, m < n → ∃ h, h ∈ taskList ∧ ¬ success_seen h (all_records (take m updates))).
Proof.
  revert taskList version.
  induction updates as [|u updates IH]; intros taskList version Hnd Hb Hall.
  - exists 0. destruct taskList as [|h taskList].
    + split; [done|]. split; [by rewrite wait_loop_nil|]. split; [done|]. lia.
    + specialize (Hall h (ltac:(left))). by apply Exists_nil in Hall.
  - destruct taskList as [|h0 taskList0] eqn:Hl.
    { exists 0. split; [lia|]. split; [by rewrite wait_loop_nil|].
      split; [intros h Hh; by apply elem_of_nil in Hh|lia]. }
    rewrite <-Hl in *. assert (taskList ≠ []) as Hne by by rewrite Hl.
    clear Hl h0 taskList0.
    rewrite all_records_cons in Hb, Hall.
    apply Forall_app in Hb as [Hbu Hb].
    pose proof (on_records_filter _ _ Hnd Hbu) as Hu.
    rewrite <-on_update_records in Hu.
    set (taskList' := filter (λ h, ¬ success_seen h (records u)) taskList) in *.
    destruct (IH taskList' (Some (update_version u))) as (n & Hn & Hrun & Hseen & Hmin).
    + by apply NoDup_filter.
    + eapply Forall_impl; [done|]. intros r'. apply benign_sublist, sublist_filter.
    + intros h [Hnot Hh]%list_elem_of_filter.
      specialize (Hall h Hh). apply success_seen_app in Hall as [|]; done.
    + exists (S n). split; [simpl; lia|]. split; [|split].
      * rewrite fmap_cons, <-app_comm_cons, wait_loop_update by done.
        by rewrite Hu, Hrun.
      * intros h Hh. change (take (S n) (u :: updates)) with (u :: take n updates).
        rewrite all_records_cons. apply success_seen_app.
        destruct (decide (success_seen h (records u))) as [|Hnot]; [by left|].
        right. apply Hseen. by apply list_elem_of_filter.
      * intros [|m] Hm.
        -- destruct taskList as [|h taskList]; [done|]. exists h.
           split; [left|]. simpl. intros H. by apply Exists_nil in H.
        -- destruct (Hmin m ltac:(lia)) as (h & [Hnot Hh]%list_elem_of_filter & Hm').
           exists h. split; [done|].
           change (take (S m) (u :: updates)) with (u :: take m updates).
           rewrite all_records_cons. intros [|]%success_seen_app; done.
Qed.

Lemma receives_fmap cs : receives (EvWaitForUpdates <$> cs) = cs.
Proof.
  induction cs as [|c cs IH]; [done|].
  unfold receives in *. rewrite fmap_cons. simpl. f_equal. exact IH.
Qed.

Lemma receives_WaitForTasks tasks si pending :
  receives (events (WaitForTasks tasks si pending)) =
  receives (events (wait_loop (task_str <$> tasks) None pending)).
Proof.
  destruct (decide (tasks = [])) as [->|Hne].
  { by rewrite WaitForTasks_nil, wait_loop_nil. }
  rewrite WaitForTasks_run by done.
  destruct (wait_loop _ _ _) as [[[a|e|] p] ev]; unfold receives, events; simpl;
    rewrite ?omap_app; destruct (CreateFilter si tasks); simpl; by rewrite ?app_nil_r.
Qed.

Lemma all_records_take_drop n updates :
  all_records updates = all_records (take n updates) ++ all_records (drop n updates).
Proof. unfold all_records. by rewrite <-bind_app, take_drop. Qed.

(** What is left active after the first [m] batches of a benign schedule. *)
Lemma active_after_filter m updates taskList :
  NoDup taskList → Forall (benign taskList) (all_records updates) →
  for_each on_update (take m updates) taskList =
  inr (filter (λ h, ¬ success_seen h (all_records (take m updates))) taskList).
Proof.
  intros Hnd Hb. rewrite on_updates_records. apply on_records_filter; [done|].
  rewrite (all_records_take_drop m) in Hb. by apply Forall_app in Hb as [? _].
Qed.

(** C1. Given a non-empty, duplicate-free collection of tasks and a schedule
    of update batches in which every task has a Success record (and no task
    of the collection an Error record), [WaitForTasks] returns normally.  It
    stops with batch [n], the first by which a Success record has been seen
    for every task: the active list is empty after it and non-empty after any
    shorter prefix, and the batches after it are left unread. *)
Theorem WaitForTasks_all_success tasks si updates pending :
  tasks ≠ [] →
  NoDup (task_str <$> tasks) →
  Forall (benign (task_str <$> tasks)) (all_records updates) →
  all_seen tasks updates →
  ∃ n, 0 < n ≤ length updates ∧
    result (WaitForTasks tasks si ((inr <$> updates) ++ pending)) = Return tt ∧
    unread (WaitForTasks tasks si ((inr <$> updates) ++ pending)) =
      (inr <$> drop n updates) ++ pending ∧
    receives (events (WaitForTasks tasks si ((inr <$> updates) ++ pending))) =
      cursors None (take n updates) ∧
    all_seen tasks (take n updates) ∧
    for_each on_update (take n updates) (task_str <$> tasks) = inr [] ∧
    ∀ m, m < n →
      ¬ all_seen tasks (take m updates) ∧
      ∃ taskList, for_each on_update (take m updates) (task_str <$> tasks) = inr taskList ∧
                  taskList ≠ [].
Proof.
  intros Hne Hnd Hb Hall.
  destruct (wait_loop_all_success updates (task_str <$> tasks) None pending Hnd Hb)
    as (n & Hn & Hrun & Hseen & Hmin).
  { intros h (t & -> & Ht)%list_elem_of_fmap.
    unfold all_seen in Hall. rewrite Forall_forall in Hall. by apply Hall. }
  assert (all_seen tasks (take n updates)) as Hseen'.
  { apply Forall_forall. intros t Ht. apply Hseen. by apply list_elem_of_fmap_2. }
  exists n. split; [|split; [|split; [|split; [|split; [|split]]]]]; [| | | |done| |].
  - split; [|done]. destruct n as [|n]; [|lia].
    destruct tasks as [|t tasks]; [done|].
    specialize (Hseen (task_str t) ltac:(left)).
    rewrite take_0 in Hseen. by apply Exists_nil in Hseen.
  - by rewrite WaitForTasks_run, Hrun.
  - by rewrite WaitForTasks_run, Hrun.
  - rewrite receives_WaitForTasks, Hrun. apply receives_fmap.
  - rewrite active_after_filter by done. f_equal.
    apply filter_nil_iff. intros h Hh Hnot. by apply Hnot, Hseen.
  - intros m Hm. destruct (Hmin m Hm) as (h & Hh & Hnot). split.
    + intros Hm'. apply Hnot. apply list_elem_of_fmap in Hh as (t & -> & Ht).
      unfold all_seen in Hm'. rewrite Forall_forall in Hm'. by apply Hm'.
    + rewrite active_after_filter by done. eexists. split; [done|].
      intros Hnil. eapply filter_nil_iff in Hnil; [|done]. by apply Hnil.
Qed.

Lemma WaitForTasks_all_success_witness :
  [task_A; task_B; task_C] ≠ [] ∧
  NoDup (task_str <$> [task_A; task_B; task_C]) ∧
  all_seen [task_A; task_B; task_C] schedule_CAB ∧
  ∃ n, 0 < n ≤ length schedule_CAB ∧
    result (WaitForTasks [task_A; task_B; task_C] si_0 ((inr <$> schedule_CAB) ++ []))
      = Return tt ∧
    all_seen [task_A; task_B; task_C] (take n schedule_CAB).
Proof.
  assert ([task_A; task_B; task_C] ≠ []) as H1 by done.
  assert (NoDup (task_str <$> [task_A; task_B; task_C])) as H2 by compute_done.
  assert (Forall (benign (task_str <$> [task_A; task_B; task_C])) (all_records schedule_CAB))
    as H3 by compute_done.
  assert (all_seen [task_A; task_B; task_C] schedule_CAB) as H4 by compute_done.
  split; [done|]. split; [done|]. split; [done|].
  destruct (WaitForTasks_all_success [task_A; task_B; task_C] si_0 schedule_CAB [] H1 H2 H3 H4)
    as (n & Hn & Hres & _ & _ & Hseen & _).
  by exists n.
Defined.

Lemma cursors_snoc version updates u :
  cursors version (updates ++ [u]) = cursors version updates ++ [cursor_after version updates].
Proof.
  revert version. induction updates as [|u' updates IH]; intros version; [done|].
  simpl. by rewrite IH.
Qed.

(** C2. Let the batches [updates] pass without a raise, leaving [taskList],
    and let the next batch [u] hold, after records [pre] that pass as well, a
    record of task [t] that shows Error while [t] is still in the active
    list.  Then [WaitForTasks] raises [t.info.error] and nothing else: the
    outcome does not depend on the records [post] behind it, and no reply
    after [u] is read. *)
Theorem WaitForTasks_fail_fast tasks si updates u pending pre t c post taskList taskList' :
  for_each on_update updates (task_str <$> tasks) = inr taskList →
  records u = pre ++ (t, c) :: post →
  for_each on_record pre taskList = inr taskList' →
  task_str t ∈ taskList' →
  shows State_error c →
  on_update taskList u = inl (TaskFault (task_info_error t)) ∧
  result (WaitForTasks tasks si ((inr <$> updates) ++ inr u :: pending)) =
    Raise (TaskFault (task_info_error t)) ∧
  unread (WaitForTasks tasks si ((inr <$> updates) ++ inr u :: pending)) = pending ∧
  receives (events (WaitForTasks tasks si ((inr <$> updates) ++ inr u :: pending))) =
    cursors None (updates ++ [u]).
Proof.
  intros Hrun Hrec Hpre Hin Herr.
  assert (on_update taskList u = inl (TaskFault (task_info_error t))) as Hu.
  { rewrite on_update_records, Hrec, for_each_app, Hpre. simpl.
    unfold on_record at 1. simpl. by rewrite on_change_error. }
  assert (taskList ≠ []) as Hne.
  { apply on_records_sublist in Hpre. intros ->.
    apply sublist_nil_r in Hpre as ->. by apply elem_of_nil in Hin. }
  assert (wait_loop (task_str <$> tasks) None ((inr <$> updates) ++ inr u :: pending) =
          (Raise (TaskFault (task_info_error t)), pending,
           EvWaitForUpdates <$> cursors None (updates ++ [u]))) as Hloop.
  { rewrite (wait_loop_prefix _ _ _ _ _ Hrun Hne), wait_loop_update, Hu by done.
    by rewrite cursors_snoc, fmap_app. }
  split; [done|].
  rewrite receives_WaitForTasks, WaitForTasks_run, Hloop by by eapply tasks_not_nil.
  split; [done|]. split; [done|]. apply receives_fmap.
Qed.

Lemma WaitForTasks_fail_fast_witness :
  result (WaitForTasks [task_A; task_B] si_0 (inr <$> schedule_A_fails)) =
    Raise (TaskFault {| fault_msg := "A failed" |}) ∧
  unread (WaitForTasks [task_A; task_B] si_0 (inr <$> schedule_A_fails)) =
    [inr (batch "2" [ (task_B, [change "info.state" (VState State_success)]) ])].
Proof.
  pose proof (WaitForTasks_fail_fast [task_A; task_B] si_0 []
    (batch "1" [ (task_A, [change "info" (VTaskInfo State_running);
                           change "info.state" (VState State_error);
                           change "info.state" (VState State_success)]);
                 (task_B, [change "info" (VTaskInfo State_error)]) ])
    [inr (batch "2" [ (task_B, [change "info.state" (VState State_success)]) ])]
    [(task_A, change "info" (VTaskInfo State_running))]
    task_A (change "info.state" (VState State_error))
    [(task_A, change "info.state" (VState State_success));
     (task_B, change "info" (VTaskInfo State_error))]
    (task_str <$> [task_A; task_B]) (task_str <$> [task_A; task_B])
    eq_refl eq_refl eq_refl ltac:(compute_done) ltac:(compute_done)) as (_ & Hres & Hun & _).
  split; [exact Hres|exact Hun].
Defined.

(** C3. Once [CreateFilter] has handed back a filter (which takes a task
    list that is not empty, line 61), every run of [WaitForTasks] that comes
    back to its caller, by returning or by raising (a task fault, an error in
    a record, a fault of [WaitForUpdates]), has destroyed that filter exactly
    once, as its last action: between the creation and the [Destroy] there
    are only receive calls. *)
Theorem WaitForTasks_destroys_filter tasks si pending f :
  tasks ≠ [] →
  CreateFilter si tasks = Some f →
  result (WaitForTasks tasks si pending) ≠ Blocked →
  ∃ mid, events (WaitForTasks tasks si pending) =
           EvCreateFilter tasks :: mid ++ [EvDestroy f] ∧
         Forall is_receive mid.
Proof.
  intros Hne Hf. rewrite WaitForTasks_run, Hf by done.
  pose proof (wait_loop_events (task_str <$> tasks) None pending) as Hev.
  destruct (wait_loop _ _ _) as [[[a|e|] p] ev]; intros Hres; [| |done];
    by exists ev.
Qed.

Lemma WaitForTasks_destroys_filter_witness :
  (∃ mid, events (WaitForTasks [task_A; task_B; task_C] si_0 (inr <$> schedule_CAB)) =
            EvCreateFilter [task_A; task_B; task_C] :: mid ++ [EvDestroy {| filter_id := 1 |}] ∧
          Forall is_receive mid) ∧
  (∃ mid, events (WaitForTasks [task_A; task_B] si_0 (inr <$> schedule_A_fails)) =
            EvCreateFilter [task_A; task_B] :: mid ++ [EvDestroy {| filter_id := 1 |}] ∧
          Forall is_receive mid) ∧
  (∃ mid, events (WaitForTasks [task_A] si_0 [inl (ServerFault "connection lost")]) =
            EvCreateFilter [task_A] :: mid ++ [EvDestroy {| filter_id := 1 |}] ∧
          Forall is_receive mid).
Proof.
  split; [|split].
  - apply (WaitForTasks_destroys_filter [task_A; task_B; task_C] si_0
             (inr <$> schedule_CAB) {| filter_id := 1 |}); [discriminate|reflexivity|].
    vm_compute. discriminate.
  - apply (WaitForTasks_destroys_filter [task_A; task_B] si_0
             (inr <$> schedule_A_fails) {| filter_id := 1 |}); [discriminate|reflexivity|].
    vm_compute. discriminate.
  - apply (WaitForTasks_destroys_filter [task_A] si_0
             [inl (ServerFault "connection lost")] {| filter_id := 1 |});
      [discriminate|reflexivity|].
    vm_compute. discriminate.
Defined.

(** C4, as the code has it.  Called with no task, [WaitForTasks] creates no
    filter and makes no receive call, and leaves the replies untouched; but
    it does not return: the empty object set is refused on line 61 and the
    call ends with [TypeError]. *)
Theorem WaitForTasks_empty si pending :
  result (WaitForTasks [] si pending) = Raise TypeError ∧
  unread (WaitForTasks [] si pending) = pending ∧
  events (WaitForTasks [] si pending) = [].
Proof. by rewrite WaitForTasks_nil. Qed.

(** C4 as stated fails: the run on an empty collection creates no filter,
    but it does not return successfully either. *)
Lemma WaitForTasks_empty_no_success :
  ¬ (result (WaitForTasks [] si_0 []) = Return tt ∧
     ∀ objectSet, EvCreateFilter objectSet ∉ events (WaitForTasks [] si_0 [])).
Proof. intros [H _]. discriminate H. Qed.

Lemma on_record_skip t taskList c post :
  on_change t taskList c = inr taskList →
  for_each on_record ((t, c) :: post) taskList = for_each on_record post taskList.
Proof. intros H. simpl. unfold on_record at 1. simpl. by rewrite H. Qed.

(** A batch at one of its records: the records before it are handled, then
    the record itself, then the rest. *)
Lemma on_update_at u pre t c post taskList taskList1 :
  records u = pre ++ (t, c) :: post →
  for_each on_record pre taskList = inr taskList1 →
  on_update taskList u =
  match on_change t taskList1 c with
  | inl e => inl e
  | inr taskList2 => for_each on_record post taskList2
  end.
Proof.
  intros Hrec Hpre. by rewrite on_update_records, Hrec, for_each_app, Hpre.
Qed.

Lemma on_update_without u' pre post taskList taskList1 :
  records u' = pre ++ post →
  for_each on_record pre taskList = inr taskList1 →
  on_update taskList u' = for_each on_record post taskList1.
Proof.
  intros Hrec Hpre. by rewrite on_update_records, Hrec, for_each_app, Hpre.
Qed.

(** A record that leaves the list alone may as well be left out of its
    batch. *)
Lemma on_update_skip u u' pre t c post taskList :
  records u = pre ++ (t, c) :: post →
  records u' = pre ++ post →
  (∀ taskList1, for_each on_record pre taskList = inr taskList1 →
                on_change t taskList1 c = inr taskList1) →
  on_update taskList u = on_update taskList u'.
Proof.
  intros Hrec Hrec' Hskip. rewrite !on_update_records, Hrec, Hrec', !for_each_app.
  destruct (for_each on_record pre taskList) as [|taskList1] eqn:Hpre; [done|].
  by apply on_record_skip, Hskip.
Qed.

(** Two batches of the same version on which the loop body agrees, for all
    the lists the loop can hold, are interchangeable in a run of the loop: it
    ends the same way, after the same receive calls and as many replies. *)
Lemma wait_loop_replace (P : list string → Prop) u u' p1 p2 taskList version :
  (∀ l l', l' `sublist_of` l → P l → P l') →
  (∀ l, P l → on_update l u = on_update l u') →
  update_version u' = update_version u →
  P taskList →
  result (wait_loop taskList version (p1 ++ inr u :: p2)) =
    result (wait_loop taskList version (p1 ++ inr u' :: p2)) ∧
  events (wait_loop taskList version (p1 ++ inr u :: p2)) =
    events (wait_loop taskList version (p1 ++ inr u' :: p2)) ∧
  length (unread (wait_loop taskList version (p1 ++ inr u :: p2))) =
    length (unread (wait_loop taskList version (p1 ++ inr u' :: p2))).
Proof.
  intros Hsub Hagree Hversion. revert taskList version.
  induction p1 as [|[e|u0] p1 IH]; intros taskList version HP.
  - destruct (decide (taskList = [])) as [->|Hne].
    { by rewrite !wait_loop_nil. }
    rewrite !app_nil_l, !wait_loop_update, <-Hagree by done.
    destruct (on_update taskList u); [done|]. by rewrite Hversion.
  - destruct taskList as [|h taskList].
    + rewrite !wait_loop_nil. unfold unread. simpl. by rewrite !length_app.
    + rewrite <-!app_comm_cons, !wait_loop_fault by done.
      unfold unread. simpl. by rewrite !length_app.
  - destruct (decide (taskList = [])) as [->|Hne].
    { rewrite !wait_loop_nil. unfold unread. simpl. by rewrite !length_app. }
    rewrite <-!app_comm_cons, !wait_loop_update by done.
    destruct (on_update taskList u0) as [|taskList'] eqn:Hu0.
    { unfold unread. simpl. by rewrite !length_app. }
    rewrite on_update_records in Hu0. apply on_records_sublist in Hu0.
    specialize (IH taskList' (Some (update_version u0)) (Hsub _ _ Hu0 HP)).
    destruct (wait_loop taskList' _ (p1 ++ inr u :: p2)) as [[r p] ev].
    destruct (wait_loop taskList' _ (p1 ++ inr u' :: p2)) as [[r' p'] ev'].
    unfold result, events, unread in *. simpl in *.
    destruct IH as (-> & -> & ->). done.
Qed.

Lemma WaitForTasks_replace (P : list string → Prop) tasks si u u' p1 p2 :
  (∀ l l', l' `sublist_of` l → P l → P l') →
  (∀ l, P l → on_update l u = on_update l u') →
  update_version u' = update_version u →
  P (task_str <$> tasks) →
  result (WaitForTasks tasks si (p1 ++ inr u :: p2)) =
    result (WaitForTasks tasks si (p1 ++ inr u' :: p2)) ∧
  events (WaitForTasks tasks si (p1 ++ inr u :: p2)) =
    events (WaitForTasks tasks si (p1 ++ inr u' :: p2)) ∧
  length (unread (WaitForTasks tasks si (p1 ++ inr u :: p2))) =
    length (unread (WaitForTasks tasks si (p1 ++ inr u' :: p2))).
Proof.
  intros Hsub Hagree Hversion HP.
  destruct (decide (tasks = [])) as [->|Hne].
  { rewrite !WaitForTasks_nil. unfold unread. simpl. by rewrite !length_app. }
  rewrite !WaitForTasks_run by done.
  pose proof (wait_loop_replace P u u' p1 p2 (task_str <$> tasks) None
                Hsub Hagree Hversion HP) as Hloop.
  destruct (wait_loop _ _ (p1 ++ inr u :: p2)) as [[r p] ev].
  destruct (wait_loop _ _ (p1 ++ inr u' :: p2)) as [[r' p'] ev'].
  unfold result, events, unread in *. simpl in *.
  destruct Hloop as (-> & -> & Hlen). by destruct r'.
Qed.

(** C5, as the code has it.  Take a batch [u] and one of its change records,
    of task [t], reached with the active list [taskList1]; [u'] is the same
    batch without that record.

    The state is read from the [state] attribute of the value when the field
    is ['info'], and is the value itself when the field is ['info.state'].
    With that state, and [t] in the active list, the loop removes [t] on
    Success and goes on with the rest of the batch, raises [t.info.error] on
    Error, and otherwise handles the batch as if the record were not there.

    A record of any other field is ignored: the batch is handled as without
    it, and so is the whole wait, which ends the same way after the same
    calls.  A record of a task that is not in the active list is ignored in
    the same sense provided its state can be read.  It is not ignored
    otherwise: an ['info'] record whose value has no [state] ends the wait
    with [AttributeError], whether its task is in the active list or not,
    because line 76 reads the state before line 82 looks the task up. *)
Theorem change_record_handling tasks si p1 p2 u u' pre t c post taskList taskList1 :
  records u = pre ++ (t, c) :: post →
  records u' = pre ++ post →
  update_version u' = update_version u →
  for_each on_record pre taskList = inr taskList1 →
  (∀ s, change_name c = "info" → change_val c = VTaskInfo s →
     change_state c = inr (Some (VState s))) ∧
  (change_name c = "info.state" → change_state c = inr (Some (change_val c))) ∧
  (∀ state, change_state c = inr (Some state) → task_str t ∈ taskList1 →
     (state = VState State_success →
        ∃ taskList2, list_remove (task_str t) taskList1 = Some taskList2 ∧
                     on_update taskList u = for_each on_record post taskList2) ∧
     (state = VState State_error →
        on_update taskList u = inl (TaskFault (task_info_error t))) ∧
     (state ≠ VState State_success → state ≠ VState State_error →
        on_update taskList u = on_update taskList u')) ∧
  (change_name c ≠ "info" → change_name c ≠ "info.state" →
     on_update taskList u = on_update taskList u' ∧
     result (WaitForTasks tasks si (p1 ++ inr u :: p2)) =
       result (WaitForTasks tasks si (p1 ++ inr u' :: p2)) ∧
     events (WaitForTasks tasks si (p1 ++ inr u :: p2)) =
       events (WaitForTasks tasks si (p1 ++ inr u' :: p2))) ∧
  (typed c →
     (task_str t ∉ taskList1 → on_update taskList u = on_update taskList u') ∧
     (task_str t ∉ task_str <$> tasks →
        result (WaitForTasks tasks si (p1 ++ inr u :: p2)) =
          result (WaitForTasks tasks si (p1 ++ inr u' :: p2)) ∧
        events (WaitForTasks tasks si (p1 ++ inr u :: p2)) =
          events (WaitForTasks tasks si (p1 ++ inr u' :: p2)))) ∧
  (change_name c = "info" → (∀ s, change_val c ≠ VTaskInfo s) →
     on_update taskList u = inl AttributeError).
Proof.
  intros Hrec Hrec' Hversion Hpre.
  pose proof (on_update_at _ _ _ _ _ _ _ Hrec Hpre) as Hu.
  pose proof (on_update_without _ _ _ _ _ Hrec' Hpre) as Hu'.
  split; [|split; [|split; [|split; [|split]]]].
  - intros s Hn Hv. unfold change_state. by rewrite decide_True, Hv.
  - intros Hn. unfold change_state. rewrite decide_False by by rewrite Hn.
    by rewrite decide_True.
  - intros state Hstate Hin. split; [|split].
    + intros ->. apply change_state_shows in Hstate.
      destruct (on_change_success t taskList1 c Hstate Hin) as (taskList2 & Hc & Hrem).
      exists taskList2. split; [done|]. by rewrite Hu, Hc.
    + intros ->. apply change_state_shows in Hstate.
      by rewrite Hu, on_change_error.
    + intros Hns Hne. rewrite Hu, Hu'. unfold on_change. rewrite Hstate.
      by rewrite decide_True, !decide_False.
  - intros Hn1 Hn2. split; [|split].
    + rewrite Hu, Hu'. by rewrite on_change_other_name.
    + apply (WaitForTasks_replace (λ _, True)); try done.
      intros l _. eapply on_update_skip; [done..|].
      intros. by apply on_change_other_name.
    + apply (WaitForTasks_replace (λ _, True)); try done.
      intros l _. eapply on_update_skip; [done..|].
      intros. by apply on_change_other_name.
  - intros Ht. split.
    + intros Hnin. rewrite Hu, Hu'. by rewrite on_change_untracked.
    + intros Hnin.
      assert (∀ l, task_str t ∉ l → on_update l u = on_update l u') as Hagree.
      { intros l Hl. eapply on_update_skip; [done..|].
        intros l1 Hl1%on_records_sublist. apply on_change_untracked; [|done].
        intros Hin. apply Hl. by eapply sublist_subseteq. }
      assert (∀ l l' : list string, l' `sublist_of` l → task_str t ∉ l → task_str t ∉ l')
        as Hsub.
      { intros l l' Hll Hl Hin. apply Hl. by eapply sublist_subseteq. }
      split; by apply (WaitForTasks_replace (λ l, task_str t ∉ l)).
  - intros Hn Hv. rewrite Hu. unfold on_change, change_state.
    rewrite decide_True by done.
    destruct (change_val c) as [| |s]; [done|done|]. by destruct (Hv s).
Qed.

Lemma change_record_handling_witness :
  change_state (change "info" (VTaskInfo State_success)) = inr (Some (VState State_success)) ∧
  (∃ taskList2,
     list_remove (task_str task_A) [task_str task_A; task_str task_C] = Some taskList2 ∧
     on_update [task_str task_A; task_str task_C] batch_AB = for_each on_record [] taskList2) ∧
  (on_update [task_str task_A; task_str task_C] batch_AB =
     on_update [task_str task_A; task_str task_C] batch_AB_less_progress ∧
   result (WaitForTasks [task_A; task_C] si_0 ([] ++ inr batch_AB :: [])) =
     result (WaitForTasks [task_A; task_C] si_0 ([] ++ inr batch_AB_less_progress :: [])) ∧
   events (WaitForTasks [task_A; task_C] si_0 ([] ++ inr batch_AB :: [])) =
     events (WaitForTasks [task_A; task_C] si_0 ([] ++ inr batch_AB_less_progress :: []))) ∧
  (result (WaitForTasks [task_A; task_C] si_0 ([] ++ inr batch_AB :: [])) =
     result (WaitForTasks [task_A; task_C] si_0 ([] ++ inr batch_AB_less_B :: [])) ∧
   events (WaitForTasks [task_A; task_C] si_0 ([] ++ inr batch_AB :: [])) =
     events (WaitForTasks [task_A; task_C] si_0 ([] ++ inr batch_AB_less_B :: []))) ∧
  on_update [task_str task_A] batch_B_stateless = inl AttributeError.
Proof.
  split; [|split; [|split; [|split]]].
  - destruct (change_record_handling [task_A; task_C] si_0 [] [] batch_AB batch_AB_less_A
                [(task_B, change "info" (VTaskInfo State_error));
                 (task_A, change "info.progress" VNone)]
                task_A (change "info" (VTaskInfo State_success)) []
                [task_str task_A; task_str task_C] [task_str task_A; task_str task_C]
                eq_refl eq_refl eq_refl eq_refl) as (H & _).
    apply H; reflexivity.
  - destruct (change_record_handling [task_A; task_C] si_0 [] [] batch_AB batch_AB_less_A
                [(task_B, change "info" (VTaskInfo State_error));
                 (task_A, change "info.progress" VNone)]
                task_A (change "info" (VTaskInfo State_success)) []
                [task_str task_A; task_str task_C] [task_str task_A; task_str task_C]
                eq_refl eq_refl eq_refl eq_refl) as (_ & _ & H & _).
    apply (H (VState State_success)); [reflexivity|compute_done|reflexivity].
  - destruct (change_record_handling [task_A; task_C] si_0 [] [] batch_AB
                batch_AB_less_progress
                [(task_B, change "info" (VTaskInfo State_error))]
                task_A (change "info.progress" VNone)
                [(task_A, change "info" (VTaskInfo State_success))]
                [task_str task_A; task_str task_C] [task_str task_A; task_str task_C]
                eq_refl eq_refl eq_refl eq_refl) as (_ & _ & _ & H & _).
    apply H; discriminate.
  - destruct (change_record_handling [task_A; task_C] si_0 [] [] batch_AB batch_AB_less_B
                [] task_B (change "info" (VTaskInfo State_error))
                [(task_A, change "info.progress" VNone);
                 (task_A, change "info" (VTaskInfo State_success))]
                [task_str task_A; task_str task_C] [task_str task_A; task_str task_C]
                eq_refl eq_refl eq_refl eq_refl) as (_ & _ & _ & _ & H & _).
    apply H; compute_done.
  - destruct (change_record_handling [task_A] si_0 [] [] batch_B_stateless batch_B_absent
                [] task_B (change "info" VNone)
                [(task_A, change "info.state" (VState State_success))]
                [task_str task_A] [task_str task_A]
                eq_refl eq_refl eq_refl eq_refl) as (_ & _ & _ & _ & _ & H).
    apply H; [reflexivity|discriminate].
Defined.

(** C5 as stated fails for a record whose state cannot be read: task B is
    not among the tasks waited for, and still its ['info'] record without a
    [state] turns a wait that would return into one that raises. *)
Lemma untracked_record_not_ignored :
  (task_str task_B ∉ task_str <$> [task_A]) ∧
  result (WaitForTasks [task_A] si_0 [inr batch_B_stateless]) = Raise AttributeError ∧
  result (WaitForTasks [task_A] si_0 [inr batch_B_absent]) = Return tt.
Proof. split; [compute_done|]. split; reflexivity. Qed.

(** C6. A Success record for a task that is not (or no longer) in the active
    list is a no-op: nothing is raised, the list stays as it is, and the rest
    of the batch goes on as without it.  In particular, on a duplicate-free
    list, a Success record that has been handled leaves a list on which the
    same record, sent again, changes nothing. *)
Theorem duplicate_success_noop t taskList c :
  shows State_success c →
  (task_str t ∉ taskList →
     on_change t taskList c = inr taskList ∧
     ∀ post, for_each on_record ((t, c) :: post) taskList = for_each on_record post taskList) ∧
  (NoDup taskList →
     ∃ taskList', on_change t taskList c = inr taskList' ∧
                  (task_str t ∉ taskList') ∧
                  on_change t taskList' c = inr taskList').
Proof.
  intros Hs. pose proof (shows_typed _ _ Hs) as Ht. split.
  - intros Hnin. split; [by apply on_change_untracked|].
    intros post. by apply on_record_skip, on_change_untracked.
  - intros Hnd. destruct (decide (task_str t ∈ taskList)) as [Hin|Hnin].
    + destruct (on_change_success t taskList c Hs Hin) as (l' & Hl' & Hrem).
      assert (task_str t ∉ l') as Hnin.
      { rewrite (list_remove_NoDup _ _ _ Hnd Hrem).
        intros [H _]%list_elem_of_filter. by apply H. }
      exists l'. split; [done|]. split; [done|]. by apply on_change_untracked.
    + exists taskList. split; [by apply on_change_untracked|].
      split; [done|]. by apply on_change_untracked.
Qed.

Lemma duplicate_success_noop_witness :
  on_change task_A ["'vim.Task:task-2'"] (change "info.state" (VState State_success)) =
    inr ["'vim.Task:task-2'"] ∧
  ∃ taskList',
    on_change task_A ["'vim.Task:task-1'"; "'vim.Task:task-2'"]
      (change "info.state" (VState State_success)) = inr taskList' ∧
    (task_str task_A ∉ taskList') ∧
    on_change task_A taskList' (change "info.state" (VState State_success)) = inr taskList'.
Proof.
  split.
  - apply (duplicate_success_noop task_A ["'vim.Task:task-2'"]
             (change "info.state" (VState State_success))); compute_done.
  - apply (duplicate_success_noop task_A ["'vim.Task:task-1'"; "'vim.Task:task-2'"]
             (change "info.state" (VState State_success))); compute_done.
Defined.

Lemma list_remove_keeps x l l' h :
  list_remove x l = Some l' → h ∈ l → h = x ∨ h ∈ l'.
Proof.
  revert l'. induction l as [|y l IH]; intros l' Hrem Hin; [by apply elem_of_nil in Hin|].
  simpl in Hrem. destruct (decide (x = y)) as [->|Hne].
  - injection Hrem as <-. apply elem_of_cons in Hin as [->|]; [by left|by right].
  - destruct (list_remove x l) as [l0|] eqn:Hl0; [|done]. injection Hrem as <-.
    apply elem_of_cons in Hin as [->|Hin]; [right; left|].
    destruct (IH l0 eq_refl Hin) as [|]; [by left|right; by right].
Qed.

Lemma list_remove_Permutation x l l' : list_remove x l = Some l' → l ≡ₚ x :: l'.
Proof.
  revert l'. induction l as [|y l IH]; intros l' Hrem; [done|].
  simpl in Hrem. destruct (decide (x = y)) as [->|Hne].
  - by injection Hrem as <-.
  - destruct (list_remove x l) as [l0|] eqn:Hl0; [|done]. injection Hrem as <-.
    rewrite (IH l0 eq_refl). apply Permutation_swap.
Qed.

(** A handle leaves the list only through a Success record of its own. *)
Lemma on_records_left rs taskList taskList' h :
  for_each on_record rs taskList = inr taskList' →
  h ∈ taskList → h ∈ taskList' ∨ success_seen h rs.
Proof.
  revert taskList. induction rs as [|[t c] rs IH]; intros taskList Hrun Hin; simpl in Hrun.
  - injection Hrun as <-. by left.
  - unfold on_record at 1 in Hrun. simpl in Hrun.
    destruct (on_change t taskList c) as [|l1] eqn:H1; [done|].
    apply on_change_inr in H1 as [->|(Hs & _ & Hrem)].
    + destruct (IH _ Hrun Hin) as [|]; [by left|]. right. by apply Exists_cons_tl.
    + destruct (list_remove_keeps _ _ _ _ Hrem Hin) as [->|Hin1].
      * right. by apply Exists_cons_hd.
      * destruct (IH _ Hrun Hin1) as [|]; [by left|]. right. by apply Exists_cons_tl.
Qed.

Lemma list_remove_other x l l' h :
  list_remove x l = Some l' → h ≠ x → h ∈ l → h ∈ l'.
Proof.
  intros Hrem Hne Hin. by destruct (list_remove_keeps _ _ _ _ Hrem Hin).
Qed.

Lemma on_record_active taskList r taskList' :
  NoDup taskList → on_record taskList r = inr taskList' →
  taskList' = filter (λ h, ¬ (task_str r.1 = h ∧ shows State_success r.2)) taskList.
Proof.
  intros Hnd Hr. destruct r as [t c]. unfold on_record in Hr. simpl in *.
  destruct (on_change_inr _ _ _ _ Hr) as [->|(Hs & Hin & Hrem)].
  - symmetry. apply filter_all. intros h Hh [<- Hs].
    destruct (on_change_success t taskList c Hs Hh) as (l' & Hl' & Hrem).
    rewrite Hr in Hl'. injection Hl' as <-. apply list_remove_length in Hrem. lia.
  - rewrite (list_remove_NoDup _ _ _ Hnd Hrem). apply list_filter_iff. intros h. split.
    + intros Hh [Heq _]. by apply Hh.
    + intros Hh Heq. apply Hh. by split.
Qed.

(** On a duplicate-free list, records that pass without a raise leave
    exactly the handles without a Success record. *)
Lemma on_records_active rs taskList taskList' :
  NoDup taskList → for_each on_record rs taskList = inr taskList' →
  taskList' = filter (λ h, ¬ success_seen h rs) taskList.
Proof.
  revert taskList. induction rs as [|r rs IH]; intros taskList Hnd Hrun.
  - injection Hrun as <-. symmetry. apply filter_all. intros h _ H.
    by apply Exists_nil in H.
  - simpl in Hrun. destruct (on_record taskList r) as [|l1] eqn:Hr; [done|].
    pose proof (on_record_active _ _ _ Hnd Hr) as Hl1.
    rewrite (IH l1); [| |done].
    + rewrite Hl1, list_filter_filter. apply list_filter_iff.
      intros h. unfold success_seen. rewrite Exists_cons. tauto.
    + rewrite Hl1. by apply NoDup_filter.
Qed.

(** A wait that comes to a batch on which the loop body raises. *)
Lemma WaitForTasks_raise_at tasks si updates u pending taskList e :
  for_each on_update updates (task_str <$> tasks) = inr taskList →
  taskList ≠ [] →
  on_update taskList u = inl e →
  result (WaitForTasks tasks si ((inr <$> updates) ++ inr u :: pending)) = Raise e ∧
  unread (WaitForTasks tasks si ((inr <$> updates) ++ inr u :: pending)) = pending.
Proof.
  intros Hrun Hne Hu.
  rewrite WaitForTasks_run by by eapply tasks_not_nil.
  rewrite (wait_loop_prefix _ _ _ _ _ Hrun Hne), wait_loop_update, Hu by done.
  done.
Qed.

(** C7. Let the batches [updates] have passed without a raise, leaving the
    active list [taskList].

    The loop goes on with exactly this list.  The list has only shrunk: it
    is a sub-list of what was left after any shorter prefix of the batches,
    which in turn is a sub-list of the [str]s of the caller's tasks.  A
    handle that is gone has had a Success record; and when the caller's
    tasks are distinct the list is exactly the caller's list without the
    handles that have had one, each of them gone once and for all.

    Within the next batch, a Success record of a task still in the list
    removes one occurrence of its handle (the only one, when the tasks are
    distinct), and the batch goes on with what is left.  An Error record of
    a task still in the list removes nothing: the loop body raises that
    task's fault on the spot, and so does the wait, which reads no further
    reply. *)
Theorem active_list_invariant tasks si updates taskList :
  for_each on_update updates (task_str <$> tasks) = inr taskList →
  (taskList ≠ [] → ∀ pending,
     wait_loop (task_str <$> tasks) None ((inr <$> updates) ++ pending) =
       let '(r, p, ev) := wait_loop taskList (cursor_after None updates) pending in
       (r, p, (EvWaitForUpdates <$> cursors None updates) ++ ev)) ∧
  (∀ updates1 updates2, updates = updates1 ++ updates2 →
     ∃ taskList1, for_each on_update updates1 (task_str <$> tasks) = inr taskList1 ∧
                  taskList1 `sublist_of` task_str <$> tasks ∧
                  taskList `sublist_of` taskList1) ∧
  (∀ h, h ∈ task_str <$> tasks → h ∉ taskList → success_seen h (all_records updates)) ∧
  (NoDup (task_str <$> tasks) →
     taskList =
       filter (λ h, ¬ success_seen h (all_records updates)) (task_str <$> tasks)) ∧
  (∀ u pre t c post taskList1,
     records u = pre ++ (t, c) :: post →
     for_each on_record pre taskList = inr taskList1 →
     task_str t ∈ taskList1 →
     taskList1 `sublist_of` taskList ∧
     (shows State_success c →
        ∃ taskList2, list_remove (task_str t) taskList1 = Some taskList2 ∧
                     length taskList1 = S (length taskList2) ∧
                     (NoDup (task_str <$> tasks) → task_str t ∉ taskList2) ∧
                     on_update taskList u = for_each on_record post taskList2) ∧
     (shows State_error c →
        on_update taskList u = inl (TaskFault (task_info_error t)) ∧
        ∀ pending,
          result (WaitForTasks tasks si ((inr <$> updates) ++ inr u :: pending)) =
            Raise (TaskFault (task_info_error t)) ∧
          unread (WaitForTasks tasks si ((inr <$> updates) ++ inr u :: pending)) =
            pending)) ∧
  (∀ u taskList', on_update taskList u = inr taskList' →
     taskList' `sublist_of` taskList ∧
     ∀ h, h ∈ taskList → h ∉ taskList' → success_seen h (records u)).
Proof.
  intros Hrun.
  pose proof (on_updates_sublist _ _ _ Hrun) as Hsub.
  split; [|split; [|split; [|split; [|split]]]].
  - intros Hne pending. by apply wait_loop_prefix.
  - intros updates1 updates2 ->. rewrite for_each_app in Hrun.
    destruct (for_each on_update updates1 _) as [|taskList1] eqn:H1; [done|].
    exists taskList1. split; [done|]. split; by eapply on_updates_sublist.
  - intros h Hin Hnin. rewrite on_updates_records in Hrun.
    by destruct (on_records_left _ _ _ h Hrun Hin).
  - intros Hnd. rewrite on_updates_records in Hrun. by apply on_records_active.
  - intros u pre t c post taskList1 Hrec Hpre Hin.
    pose proof (on_update_at _ _ _ _ _ _ _ Hrec Hpre) as Hu.
    pose proof (on_records_sublist _ _ _ Hpre) as Hsub1.
    split; [done|]. split.
    + intros Hs. destruct (on_change_success t taskList1 c Hs Hin) as (l' & Hl' & Hrem).
      exists l'. split; [done|]. split; [by eapply list_remove_length|].
      split; [|by rewrite Hu, Hl'].
      intros Hnd. assert (NoDup taskList1) as Hnd1.
      { apply (sublist_NoDup _ (task_str <$> tasks)); [done|]. by trans taskList. }
      rewrite (list_remove_NoDup _ _ _ Hnd1 Hrem).
      intros [H _]%list_elem_of_filter. by apply H.
    + intros Hs.
      assert (on_update taskList u = inl (TaskFault (task_info_error t))) as Hraise.
      { by rewrite Hu, on_change_error. }
      split; [done|]. intros pending.
      eapply WaitForTasks_raise_at; [done| |done].
      intros ->. apply sublist_nil_r in Hsub1 as ->. by apply elem_of_nil in Hin.
  - intros u taskList' Hu. rewrite on_update_records in Hu.
    split; [by eapply on_records_sublist|].
    intros h Hin Hnin. by destruct (on_records_left _ _ _ h Hu Hin).
Qed.

Lemma active_list_invariant_witness :
  (["'vim.Task:task-2'"] `sublist_of` task_str <$> [task_A; task_B; task_C]) ∧
  success_seen (task_str task_A) (all_records (take 2 schedule_CAB)) ∧
  ["'vim.Task:task-2'"] =
    filter (λ h, ¬ success_seen h (all_records (take 2 schedule_CAB)))
      (task_str <$> [task_A; task_B; task_C]) ∧
  (∃ taskList2,
     list_remove (task_str task_B) ["'vim.Task:task-2'"] = Some taskList2 ∧
     length ["'vim.Task:task-2'"] = S (length taskList2) ∧
     (NoDup (task_str <$> [task_A; task_B; task_C]) → task_str task_B ∉ taskList2) ∧
     on_update ["'vim.Task:task-2'"]
       (batch "3" [ (task_B, [change "info.state" (VState State_success)]) ]) =
       for_each on_record [] taskList2) ∧
  result (WaitForTasks [task_A; task_B; task_C] si_0
            ((inr <$> take 2 schedule_CAB) ++
             inr (batch "3" [ (task_B, [change "info" (VTaskInfo State_error)]) ]) ::
             [inr (batch "4" [])])) =
    Raise (TaskFault (task_info_error task_B)) ∧
  unread (WaitForTasks [task_A; task_B; task_C] si_0
            ((inr <$> take 2 schedule_CAB) ++
             inr (batch "3" [ (task_B, [change "info" (VTaskInfo State_error)]) ]) ::
             [inr (batch "4" [])])) =
    [inr (batch "4" [])].
Proof.
  destruct (active_list_invariant [task_A; task_B; task_C] si_0 (take 2 schedule_CAB)
              ["'vim.Task:task-2'"] eq_refl) as (_ & H2 & H3 & H4 & H5 & _).
  split; [|split; [|split; [|split]]].
  - destruct (H2 (take 2 schedule_CAB) [] eq_refl) as (taskList1 & _ & H21 & H22).
    by etrans.
  - apply H3; compute_done.
  - apply H4. compute_done.
  - destruct (H5 (batch "3" [ (task_B, [change "info.state" (VState State_success)]) ])
                [] task_B (change "info.state" (VState State_success)) []
                ["'vim.Task:task-2'"] eq_refl eq_refl ltac:(compute_done)) as (_ & H & _).
    apply H. compute_done.
  - destruct (H5 (batch "3" [ (task_B, [change "info" (VTaskInfo State_error)]) ])
                [] task_B (change "info" (VTaskInfo State_error)) []
                ["'vim.Task:task-2'"] eq_refl eq_refl ltac:(compute_done)) as (_ & _ & H).
    destruct (H ltac:(compute_done)) as [_ H'].
    apply (H' [inr (batch "4" [])]).
Defined.

(** ** The cursor *)

Lemma wait_loop_cursor pending taskList v k version :
  receives (events (wait_loop taskList v pending)) !! k = Some version →
  match k with
  | 0 => version = v
  | S j => ∃ update, pending !! j = Some (inr update) ∧
                     version = Some (update_version update)
  end.
Proof.
  revert taskList v k.
  induction pending as [|[e|u] rest IH]; intros taskList v k.
  - destruct taskList, k as [|[|j]]; simpl; congruence.
  - destruct taskList, k as [|[|j]]; simpl; congruence.
  - destruct taskList as [|h taskList]; [done|].
    rewrite wait_loop_update by done.
    destruct (on_update _ u) as [|taskList'].
    + destruct k as [|[|j]]; simpl; congruence.
    + specialize (IH taskList' (Some (update_version u))).
      destruct (wait_loop _ _ rest) as [[r p] ev].
      unfold events, receives in *. simpl in *.
      destruct k as [|j]; simpl; [congruence|].
      intros Hj. specialize (IH j Hj). destruct j as [|j].
      * exists u. by rewrite IH.
      * destruct IH as (u' & Hu' & ->). by exists u'.
Qed.

Lemma wait_loop_unread pending taskList v :
  unread (wait_loop taskList v pending) =
  drop (length (receives (events (wait_loop taskList v pending)))) pending.
Proof.
  revert taskList v.
  induction pending as [|[e|u] rest IH]; intros taskList v.
  - by destruct taskList.
  - by destruct taskList.
  - destruct taskList as [|h taskList]; [done|].
    rewrite wait_loop_update by done.
    destruct (on_update _ u) as [|taskList']; [done|].
    specialize (IH taskList' (Some (update_version u))).
    destruct (wait_loop _ _ rest) as [[r p] ev].
    unfold events, receives, unread in *. simpl in *. exact IH.
Qed.

(** C8. The first call of [pc.WaitForUpdates] is made with the cursor unset
    ([None]); every later call is made with the version of the update set
    that the call before it returned.  Each call takes one reply. *)
Theorem cursor_discipline tasks si pending :
  (∀ k version,
     receives (events (WaitForTasks tasks si pending)) !! k = Some version →
     match k with
     | 0 => version = None
     | S j => ∃ update, pending !! j = Some (inr update) ∧
                        version = Some (update_version update)
     end) ∧
  unread (WaitForTasks tasks si pending) =
    drop (length (receives (events (WaitForTasks tasks si pending)))) pending.
Proof.
  split.
  - intros k version. rewrite receives_WaitForTasks. apply wait_loop_cursor.
  - destruct (decide (tasks = [])) as [->|Hne]; [by rewrite WaitForTasks_nil|].
    rewrite receives_WaitForTasks, <-wait_loop_unread, WaitForTasks_run by done.
    by destruct (wait_loop _ _ _) as [[[a|e|] p] ev].
Qed.

Lemma cursor_discipline_witness :
  receives (events (WaitForTasks [task_A; task_B; task_C] si_0 (inr <$> schedule_CAB))) =
    [None; Some "1"; Some "2"] ∧
  ∃ update, (inr <$> schedule_CAB : Pending) !! 1 = Some (inr update) ∧
            Some "2" = Some (update_version update).
Proof.
  split; [reflexivity|].
  destruct (cursor_discipline [task_A; task_B; task_C] si_0 (inr <$> schedule_CAB)) as [H _].
  apply (H 2 (Some "2")). reflexivity.
Defined.

(** ** The power loops *)

Lemma turn_vm_on_power_loop : turn_vm_on = power_loop true.
Proof. reflexivity. Qed.

Lemma turn_vm_off_power_loop : turn_vm_off = power_loop false.
Proof. reflexivity. Qed.

Lemma power_loop_nil on vmnames si pending :
  power_loop on [] vmnames si pending = (Return tt, pending, []).
Proof. reflexivity. Qed.

Lemma power_loop_cons on vm vmList vmnames si pending :
  power_loop on (vm :: vmList) vmnames si pending =
  if decide (vm_name vm ∈ vmnames) then
    if decide (vm_powerState vm ≠ target on) then
      let '(r, p1, ev) := WaitForTasks [switch_task on vm] si pending in
      match r with
      | Return _ =>
          let '(r2, p2, ev2) := power_loop on vmList vmnames si p1 in
          (r2, p2, [EvPrint [if on then "Powering on machine!" else "Powering off machine!"];
                    switch_event on vm] ++ ev ++
                   EvPrint [if on then "Virtual Machine(s) have been powered ON successfully"
                            else "Virtual Machine(s) have been powered OFF successfully"] :: ev2)
      | Raise e =>
          (Raise e, p1,
           [EvPrint [if on then "Powering on machine!" else "Powering off machine!"];
            switch_event on vm] ++ ev)
      | Blocked =>
          (Blocked, p1,
           [EvPrint [if on then "Powering on machine!" else "Powering off machine!"];
            switch_event on vm] ++ ev)
      end
    else
      let '(r2, p2, ev2) := power_loop on vmList vmnames si pending in
      (r2, p2, EvPrint [if on then "Virtual Machine(s) already ON"
                        else "Virtual Machine(s) already OFF"] :: ev2)
  else power_loop on vmList vmnames si pending.
Proof.
  unfold power_loop at 1. simpl. rewrite !run_bind.
  destruct (decide (vm_name vm ∈ vmnames)); [destruct (decide (vm_powerState vm ≠ target on))|].
  - rewrite !run_bind. unfold print at 1. rewrite run_emit, run_bind.
    assert ((if on then vm_PowerOn vm else vm_PowerOff vm) pending =
            (Return (switch_task on vm), pending, [switch_event on vm])) as -> by by destruct on.
    rewrite run_bind.
    destruct (WaitForTasks _ si pending) as [[[[]|exn|] p1] ev]; simpl; [|done..].
    fold (power_loop on vmList vmnames si).
    destruct (power_loop on vmList vmnames si p1) as [[r2 p2] ev2].
    by rewrite app_nil_r, <-app_assoc.
  - unfold print at 1. rewrite run_emit. simpl.
    fold (power_loop on vmList vmnames si).
    by destruct (power_loop on vmList vmnames si pending) as [[r2 p2] ev2].
  - simpl. fold (power_loop on vmList vmnames si).
    by destruct (power_loop on vmList vmnames si pending) as [[r2 p2] ev2].
Qed.

Lemma WaitForTasks_events tasks si pending :
  tasks ≠ [] →
  ∃ rest, events (WaitForTasks tasks si pending) = EvCreateFilter tasks :: rest ∧
          Forall (wait_event tasks) (EvCreateFilter tasks :: rest).
Proof.
  intros Hne. rewrite WaitForTasks_run by done.
  pose proof (wait_loop_events (task_str <$> tasks) None pending) as Hev.
  assert (∀ ev, Forall is_receive ev → Forall (wait_event tasks) ev) as Himp.
  { intros ev H. eapply Forall_impl; [done|]. by intros []. }
  apply Himp in Hev.
  destruct (wait_loop _ _ _) as [[[a|e|] p] ev]; unfold events in *; simpl in *;
    eexists; (split; [reflexivity|]); (constructor; [done|]); [| |done];
    (apply Forall_app_2; [done|]); destruct (CreateFilter si tasks); by repeat constructor.
Qed.

(** What a power loop does to the outside: it prints, and for machines that
    are requested and not yet in the aimed-at state it submits the operation
    and waits for the task it got back. *)
Lemma power_loop_sound on vmList vmnames si pending :
  Forall (λ e, is_print e ∨
               ∃ vm, vm ∈ vmList ∧ to_switch vmnames (target on) vm ∧
                     (e = switch_event on vm ∨ wait_event [switch_task on vm] e))
         (events (power_loop on vmList vmnames si pending)).
Proof.
  revert pending. induction vmList as [|vm vmList IH]; intros pending; [by constructor|].
  assert (∀ p, Forall (λ e, is_print e ∨
               ∃ vm', vm' ∈ vm :: vmList ∧ to_switch vmnames (target on) vm' ∧
                     (e = switch_event on vm' ∨ wait_event [switch_task on vm'] e))
         (events (power_loop on vmList vmnames si p))) as IH'.
  { intros p. eapply Forall_impl; [apply IH|]. intros e [?|(vm' & ? & ?)]; [by left|].
    right. exists vm'. split; [by right|done]. }
  rewrite power_loop_cons.
  destruct (decide (vm_name vm ∈ vmnames)) as [Hn|Hn]; [|apply IH'].
  destruct (decide (vm_powerState vm ≠ target on)) as [Hp|Hp].
  - destruct (WaitForTasks_events [switch_task on vm] si pending ltac:(done))
      as (rest & Hev & Hwait).
    assert (Forall (λ e, is_print e ∨
               ∃ vm', vm' ∈ vm :: vmList ∧ to_switch vmnames (target on) vm' ∧
                     (e = switch_event on vm' ∨ wait_event [switch_task on vm'] e))
              (events (WaitForTasks [switch_task on vm] si pending))) as Hw.
    { rewrite Hev. eapply Forall_impl; [done|]. intros e He. right. exists vm.
      split; [left|]. split; [done|]. by right. }
    assert (is_print (EvPrint [if on then "Powering on machine!" else "Powering off machine!"]) ∨
            ∃ vm', vm' ∈ vm :: vmList ∧ to_switch vmnames (target on) vm' ∧
              (EvPrint [if on then "Powering on machine!" else "Powering off machine!"] =
                 switch_event on vm' ∨
               wait_event [switch_task on vm']
                 (EvPrint [if on then "Powering on machine!" else "Powering off machine!"])))
      as H1 by by left.
    assert (is_print (switch_event on vm) ∨
            ∃ vm', vm' ∈ vm :: vmList ∧ to_switch vmnames (target on) vm' ∧
              (switch_event on vm = switch_event on vm' ∨
               wait_event [switch_task on vm'] (switch_event on vm))) as H2.
    { right. exists vm. split; [left|]. split; [done|]. by left. }
    destruct (WaitForTasks _ si pending) as [[[[]|exn|] p1] ev]; unfold events in *; simpl in *.
    + specialize (IH' p1).
      destruct (power_loop on vmList vmnames si p1) as [[r2 p2] ev2]. simpl in *.
      constructor; [done|]. constructor; [done|]. apply Forall_app_2; [done|].
      constructor; [by left|done].
    + by repeat (constructor; [done|]).
    + by repeat (constructor; [done|]).
  - specialize (IH' pending).
    destruct (power_loop on vmList vmnames si pending) as [[r2 p2] ev2].
    unfold events in *. simpl in *. constructor; [by left|done].
Qed.

(** A power loop that returns has, for each machine to switch, submitted the
    operation and gone straight on to wait for its task. *)
Lemma power_loop_complete on vmList vmnames si pending vm :
  result (power_loop on vmList vmnames si pending) = Return tt →
  vm ∈ vmList → to_switch vmnames (target on) vm →
  adjacent (switch_event on vm) (EvCreateFilter [switch_task on vm])
           (events (power_loop on vmList vmnames si pending)).
Proof.
  revert pending. induction vmList as [|vm0 vmList IH]; intros pending Hres Hin Hsw.
  { by apply elem_of_nil in Hin. }
  rewrite power_loop_cons in Hres |- *.
  assert (∀ p pre,
    result (power_loop on vmList vmnames si p) = Return tt → vm ∈ vmList →
    adjacent (switch_event on vm) (EvCreateFilter [switch_task on vm])
             (pre ++ events (power_loop on vmList vmnames si p))) as IH'.
  { intros p pre Hr Hv. destruct (IH p Hr Hv Hsw) as (l1 & l2 & ->).
    exists (pre ++ l1), l2. by rewrite <-app_assoc. }
  destruct (decide (vm_name vm0 ∈ vmnames)) as [Hn|Hn].
  - destruct (decide (vm_powerState vm0 ≠ target on)) as [Hp|Hp].
    + destruct (WaitForTasks_events [switch_task on vm0] si pending ltac:(done))
        as (rest & Hev & _).
      destruct (WaitForTasks _ si pending) as [[[[]|exn|] p1] ev];
        unfold events, result in *; simpl in *; [|done..].
      apply elem_of_cons in Hin as [->|Hin].
      * exists [EvPrint [if on then "Powering on machine!" else "Powering off machine!"]].
        rewrite Hev. destruct (power_loop on vmList vmnames si p1) as [[r2 p2] ev2].
        simpl. by eexists.
      * specialize (IH' p1
          ([EvPrint [if on then "Powering on machine!" else "Powering off machine!"];
            switch_event on vm0] ++ ev ++
           [EvPrint [if on then "Virtual Machine(s) have been powered ON successfully"
                     else "Virtual Machine(s) have been powered OFF successfully"]])).
        destruct (power_loop on vmList vmnames si p1) as [[r2 p2] ev2]. simpl in *.
        specialize (IH' Hres Hin). by rewrite <-app_assoc in IH'.
    + apply elem_of_cons in Hin as [->|Hin]; [by destruct Hsw as [_ Hsw]|].
      specialize (IH' pending
        [EvPrint [if on then "Virtual Machine(s) already ON"
                  else "Virtual Machine(s) already OFF"]]).
      destruct (power_loop on vmList vmnames si pending) as [[r2 p2] ev2].
      unfold events, result in *. simpl in *. by apply IH'.
  - apply elem_of_cons in Hin as [->|Hin]; [by destruct Hsw as [Hsw _]|].
    by apply (IH' pending []).
Qed.

(** With nothing to switch, a power loop only prints. *)
Lemma power_loop_idle on vmList vmnames si pending :
  (∀ vm, vm ∈ vmList → ¬ to_switch vmnames (target on) vm) →
  result (power_loop on vmList vmnames si pending) = Return tt ∧
  unread (power_loop on vmList vmnames si pending) = pending ∧
  Forall is_print (events (power_loop on vmList vmnames si pending)).
Proof.
  induction vmList as [|vm vmList IH]; intros Hno; [by repeat split|].
  rewrite power_loop_cons.
  destruct IH as (Hres & Hun & Hev).
  { intros vm' Hvm'. apply Hno. by right. }
  destruct (decide (vm_name vm ∈ vmnames)) as [Hn|Hn]; [|done].
  destruct (decide (vm_powerState vm ≠ target on)) as [Hp|Hp].
  { destruct (Hno vm); [left|done]. }
  destruct (power_loop on vmList vmnames si pending) as [[r2 p2] ev2].
  unfold events, result, unread in *. simpl in *. repeat split; try done.
  by constructor.
Qed.

Lemma power_loop_frame on vmList vmnames si pending :
  (∀ vm, switch_event on vm ∈ events (power_loop on vmList vmnames si pending) →
     vm ∈ vmList ∧ to_switch vmnames (target on) vm) ∧
  (∀ vm, switch_event (negb on) vm ∉ events (power_loop on vmList vmnames si pending)) ∧
  (∀ tasks, EvCreateFilter tasks ∈ events (power_loop on vmList vmnames si pending) →
     ∃ vm, vm ∈ vmList ∧ to_switch vmnames (target on) vm ∧ tasks = [switch_task on vm]) ∧
  (result (power_loop on vmList vmnames si pending) = Return tt →
     ∀ vm, vm ∈ vmList → to_switch vmnames (target on) vm →
       adjacent (switch_event on vm) (EvCreateFilter [switch_task on vm])
                (events (power_loop on vmList vmnames si pending))) ∧
  ((∀ vm, vm ∈ vmList → vm_name vm ∈ vmnames → vm_powerState vm = target on) →
     result (power_loop on vmList vmnames si pending) = Return tt ∧
     unread (power_loop on vmList vmnames si pending) = pending ∧
     Forall is_print (events (power_loop on vmList vmnames si pending))).
Proof.
  pose proof (power_loop_sound on vmList vmnames si pending) as Hs.
  rewrite Forall_forall in Hs.
  split; [|split; [|split; [|split]]].
  - intros vm [Hp|(vm' & Hin & Hsw & [He|He])]%Hs.
    + destruct on; destruct Hp.
    + assert (vm = vm') as -> by (destruct on; by injection He). done.
    + destruct on; destruct He.
  - intros vm [Hp|(vm' & Hin & Hsw & [He|He])]%Hs.
    + destruct on; destruct Hp.
    + destruct on; discriminate He.
    + destruct on; destruct He.
  - intros tasks [Hp|(vm' & Hin & Hsw & [He|He])]%Hs.
    + destruct Hp.
    + destruct on; discriminate He.
    + exists vm'. simpl in He. split; [done|]. split; done.
  - intros Hres vm Hin Hsw. by apply power_loop_complete.
  - intros Hall. apply power_loop_idle. intros vm Hin [Hn Hp]. by apply Hp, Hall.
Qed.

(** C10. [turn_vm_on] submits [PowerOn] only for machines of the inventory
    that are requested and not powered on, never [PowerOff], and every wait
    it starts is for the task of such a submission; when it returns, each
    such machine has had its [PowerOn], followed at once by the wait for that
    task.  If every requested machine is already on, it only prints: no
    task, no wait, no reply read.  The same holds for [turn_vm_off] with
    [PowerOff] and the state [poweredOff]. *)
Theorem power_only_when_needed vmList vmnames si pending :
  ((∀ vm, EvPowerOn vm ∈ events (turn_vm_on vmList vmnames si pending) →
      vm ∈ vmList ∧ to_switch vmnames poweredOn vm) ∧
   (∀ vm, EvPowerOff vm ∉ events (turn_vm_on vmList vmnames si pending)) ∧
   (∀ tasks, EvCreateFilter tasks ∈ events (turn_vm_on vmList vmnames si pending) →
      ∃ vm, vm ∈ vmList ∧ to_switch vmnames poweredOn vm ∧ tasks = [PowerOn vm]) ∧
   (result (turn_vm_on vmList vmnames si pending) = Return tt →
      ∀ vm, vm ∈ vmList → to_switch vmnames poweredOn vm →
        adjacent (EvPowerOn vm) (EvCreateFilter [PowerOn vm])
                 (events (turn_vm_on vmList vmnames si pending))) ∧
   ((∀ vm, vm ∈ vmList → vm_name vm ∈ vmnames → vm_powerState vm = poweredOn) →
      result (turn_vm_on vmList vmnames si pending) = Return tt ∧
      unread (turn_vm_on vmList vmnames si pending) = pending ∧
      Forall is_print (events (turn_vm_on vmList vmnames si pending)))) ∧
  ((∀ vm, EvPowerOff vm ∈ events (turn_vm_off vmList vmnames si pending) →
      vm ∈ vmList ∧ to_switch vmnames poweredOff vm) ∧
   (∀ vm, EvPowerOn vm ∉ events (turn_vm_off vmList vmnames si pending)) ∧
   (∀ tasks, EvCreateFilter tasks ∈ events (turn_vm_off vmList vmnames si pending) →
      ∃ vm, vm ∈ vmList ∧ to_switch vmnames poweredOff vm ∧ tasks = [PowerOff vm]) ∧
   (result (turn_vm_off vmList vmnames si pending) = Return tt →
      ∀ vm, vm ∈ vmList → to_switch vmnames poweredOff vm →
        adjacent (EvPowerOff vm) (EvCreateFilter [PowerOff vm])
                 (events (turn_vm_off vmList vmnames si pending))) ∧
   ((∀ vm, vm ∈ vmList → vm_name vm ∈ vmnames → vm_powerState vm = poweredOff) →
      result (turn_vm_off vmList vmnames si pending) = Return tt ∧
      unread (turn_vm_off vmList vmnames si pending) = pending ∧
      Forall is_print (events (turn_vm_off vmList vmnames si pending)))).
Proof.
  split.
  - rewrite turn_vm_on_power_loop. apply (power_loop_frame true).
  - rewrite turn_vm_off_power_loop. apply (power_loop_frame false).
Qed.

(** ** The snapshot search *)

Lemma named_within_0 name node : ¬ named_within 0 name node.
Proof. intros (d & Hd & _). lia. Qed.

Lemma named_within_S k name node :
  named_within (S k) name node ↔
  name = tree_name node ∨ Exists (named_within k name) (childSnapshotList node).
Proof.
  split.
  - intros ([|[|d]] & Hd & H); [lia|by left|]. right.
    simpl in H. eapply Exists_impl; [exact H|].
    intros child Hc. exists (S d). split; [lia|done].
  - intros [Hn|Hex].
    + exists 1. split; [lia|done].
    + apply Exists_exists in Hex as (child & Hin & [|d] & Hd & Hc); [lia|].
      exists (S (S d)). split; [lia|]. simpl. apply Exists_exists. by exists child.
Qed.

Lemma snapshot_within_S k name snap node :
  snapshot_within (S k) name snap node ↔
  (name = tree_name node ∧ snap = tree_snapshot node) ∨
  Exists (snapshot_within k name snap) (childSnapshotList node).
Proof.
  split.
  - intros ([|[|d]] & Hd & H); [lia|by left|]. right.
    simpl in H. eapply Exists_impl; [exact H|].
    intros child Hc. exists (S d). split; [lia|done].
  - intros [Hn|Hex].
    + exists 1. split; [lia|done].
    + apply Exists_exists in Hex as (child & Hin & [|d] & Hd & Hc); [lia|].
      exists (S (S d)). split; [lia|]. simpl. apply Exists_exists. by exists child.
Qed.

Lemma for_M_cons {A S} (body : S → A → M (Flow * S)) x l s p :
  for_M body (x :: l) s p =
  match body s x p with
  | (Return (Break, s'), p1, ev1) => (Return s', p1, ev1 ++ [])
  | (Return (Next, s'), p1, ev1) =>
      let '(r, p2, ev2) := for_M body l s' p1 in (r, p2, ev1 ++ ev2)
  | (Raise e, p1, ev1) => (Raise e, p1, ev1)
  | (Blocked, p1, ev1) => (Blocked, p1, ev1)
  end.
Proof.
  simpl. rewrite run_bind. by destruct (body s x p) as [[[[[] s']|e|] p1] ev1].
Qed.

Lemma for_M_ext {A S} (body1 body2 : S → A → M (Flow * S)) l s p :
  (∀ s x p, body1 s x p = body2 s x p) → for_M body1 l s p = for_M body2 l s p.
Proof.
  intros Hext. revert s p. induction l as [|x l IH]; intros s p; [done|].
  rewrite !for_M_cons, Hext.
  destruct (body2 s x p) as [[[[[] s']|e|] p1] ev1]; try done. by rewrite IH.
Qed.

Lemma revert_here_run level node p :
  revert_here level node p =
  (Return (Break, found (tree_snapshot node)), p,
   [EvPrint [level +:+ " Reverting snapshot "; tree_name node];
    EvRevertToSnapshot (tree_snapshot node)]).
Proof. reflexivity. Qed.

(** One level of the search, over whatever the level below does. *)
Lemma search_level k name label (inner : RevertLocals → list SnapshotTree → M RevertLocals) :
  (∀ l s p, search_outcome k name l s p (inner s l p)) →
  ∀ l s p, search_outcome (S k) name l s p
    (for_M (λ s node,
       if decide (name = tree_name node) then revert_here label node
       else s' ← inner s (childSnapshotList node); mret (Next, s')) l s p).
Proof.
  intros Hinner l. induction l as [|node l IH]; intros s p.
  - exists s, []. split; [done|]. split; [done|]. right.
    split; [by intros H%Exists_nil|done].
  - rewrite for_M_cons. destruct (decide (name = tree_name node)) as [Hn|Hn].
    + rewrite revert_here_run. eexists _, _. split; [done|].
      split; [by repeat constructor|]. left. split.
      * apply Exists_cons. left. apply named_within_S. by left.
      * exists (tree_snapshot node). split; [|split; [done|]].
        -- apply Exists_cons. left. apply snapshot_within_S. by left.
        -- right. left.
    + rewrite run_bind.
      destruct (Hinner (childSnapshotList node) s p) as (s1 & ev1 & -> & Hloc1 & H1).
      rewrite run_ret.
      destruct (IH s1 p) as (s2 & ev2 & -> & Hloc2 & H2).
      exists s2, ((ev1 ++ []) ++ ev2). split; [done|].
      split; [by repeat apply Forall_app_2|].
      destruct H2 as [(Hex2 & snap & Hsn2 & -> & Hev2)|(Hno2 & -> & ->)].
      * left. split; [apply Exists_cons; by right|].
        exists snap. split; [apply Exists_cons; by right|]. split; [done|].
        apply elem_of_app. by right.
      * destruct H1 as [(Hex1 & snap & Hsn1 & -> & Hev1)|(Hno1 & -> & ->)].
        -- left. split; [apply Exists_cons; left; apply named_within_S; by right|].
           exists snap. split; [|split; [done|]].
           ++ apply Exists_cons. left. apply snapshot_within_S. by right.
           ++ rewrite !app_nil_r. done.
        -- right. split; [|done]. intros [Hc|Hc]%Exists_cons; [|done].
           apply named_within_S in Hc as [|]; done.
Qed.

Lemma level3_outcome name l s p :
  search_outcome 1 name l s p (for_M (level3 name) l s p).
Proof.
  rewrite (for_M_ext _ (λ s node,
    if decide (name = tree_name node) then revert_here "LEVEL3" node
    else s' ← (λ s (_ : list SnapshotTree), mret s) s (childSnapshotList node);
         mret (Next, s'))).
  - apply (search_level 0 name "LEVEL3"
             (λ s (_ : list SnapshotTree), (mret s : M RevertLocals))).
    clear. intros l s p.
    exists s, []. split; [done|]. split; [done|]. right. split; [|done].
    intros (node & _ & H)%Exists_exists. by apply named_within_0 in H.
  - intros s0 node p0. unfold level3. by destruct (decide _).
Qed.

Lemma level2_outcome name l s p :
  search_outcome 2 name l s p (for_M (level2 name) l s p).
Proof.
  apply (search_level 1 name "LEVEL2" (λ s l, for_M (level3 name) l s)).
  intros. apply level3_outcome.
Qed.

Lemma level1_outcome name l s p :
  search_outcome 3 name l s p (for_M (level1 name) l s p).
Proof.
  apply (search_level 2 name "LEVEL1" (λ s l, for_M (level2 name) l s)).
  intros. apply level2_outcome.
Qed.

Lemma found_shallow_cons vm vmList vmnames name :
  found_shallow (vm :: vmList) vmnames name ↔
  (vm_name vm ∈ vmnames ∧
   ∃ info, vm_snapshot vm = Some info ∧
           Exists (named_within 3 name) (rootSnapshotList info)) ∨
  found_shallow vmList vmnames name.
Proof.
  split.
  - intros (vm' & info & [->|Hin]%elem_of_cons & Hn & Hs & Hex).
    + left. split; [done|]. by exists info.
    + right. by exists vm', info.
  - intros [(Hn & info & Hs & Hex)|(vm' & info & Hin & Hn & Hs & Hex)].
    + exists vm, info. split; [left|done].
    + exists vm', info. split; [by right|done].
Qed.

Lemma shallow_snapshot_here vm vmList vmnames name snap info :
  vm_name vm ∈ vmnames → vm_snapshot vm = Some info →
  Exists (snapshot_within 3 name snap) (rootSnapshotList info) →
  shallow_snapshot (vm :: vmList) vmnames name snap.
Proof. intros Hn Hs Hex. exists vm, info. split; [left|done]. Qed.

Lemma shallow_snapshot_later vm vmList vmnames name snap :
  shallow_snapshot vmList vmnames name snap →
  shallow_snapshot (vm :: vmList) vmnames name snap.
Proof. intros (vm' & info & Hin & H). exists vm', info. split; [by right|done]. Qed.

(** The loop over the inventory, when every requested machine has snapshot
    information. *)
Lemma revert_search_outcome vmList vmnames name s p :
  (∀ vm, vm ∈ vmList → vm_name vm ∈ vmnames → is_Some (vm_snapshot vm)) →
  ∃ s' ev,
    for_M (revert_search vmnames name) vmList s p = (Return s', p, ev) ∧
    Forall is_local ev ∧
    ((found_shallow vmList vmnames name ∧
      ∃ snap, shallow_snapshot vmList vmnames name snap ∧
              s' = found snap ∧ EvRevertToSnapshot snap ∈ ev) ∨
     (¬ found_shallow vmList vmnames name ∧ s' = s ∧ ev = [])).
Proof.
  revert s. induction vmList as [|vm vmList IH]; intros s Hsnap.
  - exists s, []. split; [done|]. split; [done|]. right. split; [|done].
    intros (vm & info & Hin & _). by apply elem_of_nil in Hin.
  - assert (∀ vm', vm' ∈ vmList → vm_name vm' ∈ vmnames → is_Some (vm_snapshot vm'))
      as Hsnap' by (intros vm' Hin; apply Hsnap; by right).
    rewrite for_M_cons. unfold revert_search at 1.
    destruct (decide (vm_name vm ∈ vmnames)) as [Hn|Hn].
    + destruct (Hsnap vm ltac:(left) Hn) as [info Hinfo]. rewrite Hinfo, run_bind.
      destruct (level1_outcome name (rootSnapshotList info) s p)
        as (s1 & ev1 & -> & Hloc1 & H1).
      rewrite run_ret.
      destruct (IH s1 Hsnap') as (s2 & ev2 & -> & Hloc2 & H2).
      exists s2, ((ev1 ++ []) ++ ev2). split; [done|].
      split; [by repeat apply Forall_app_2|].
      destruct H2 as [(Hex2 & snap & Hsn2 & -> & Hev2)|(Hno2 & -> & ->)].
      * left. split; [apply found_shallow_cons; by right|].
        exists snap. split; [by apply shallow_snapshot_later|]. split; [done|].
        apply elem_of_app. by right.
      * destruct H1 as [(Hex1 & snap & Hsn1 & -> & Hev1)|(Hno1 & -> & ->)].
        -- left. split.
           { apply found_shallow_cons. left. split; [done|]. by exists info. }
           exists snap. split; [by eapply shallow_snapshot_here|]. split; [done|].
           by rewrite !app_nil_r.
        -- right. split; [|done].
           intros [(_ & info' & Hinfo' & Hex)|Hf]%found_shallow_cons; [|done].
           rewrite Hinfo in Hinfo'. by injection Hinfo' as <-.
    + rewrite run_ret.
      destruct (IH s Hsnap') as (s2 & ev2 & -> & Hloc2 & H2).
      exists s2, ([] ++ ev2). split; [done|]. split; [done|].
      destruct H2 as [(Hex2 & snap & Hsn2 & -> & Hev2)|(Hno2 & -> & ->)].
      * left. split; [apply found_shallow_cons; by right|].
        exists snap. split; [by apply shallow_snapshot_later|]. done.
      * right. split; [|done].
        intros [(Hn' & _)|Hf]%found_shallow_cons; done.
Qed.

Ltac invert_Exists :=
  repeat match goal with
  | H : Exists _ [] |- _ => by apply Exists_nil in H
  | H : Exists _ (_ :: _) |- _ => apply Exists_cons in H as [H|H]; simpl in H
  | H : _ = _ |- _ => discriminate H
  end.

Lemma power_only_when_needed_witness :
  adjacent (EvPowerOn vm_web) (EvCreateFilter [PowerOn vm_web])
    (events (turn_vm_on [vm_web; vm_db] ["web"; "db"] si_0
               [inr (batch "1" [(task_A, [change "info" (VTaskInfo State_success)])])])) ∧
  Forall is_print (events (turn_vm_on [vm_db] ["web"; "db"] si_0 [])) ∧
  Forall is_print (events (turn_vm_off [vm_web] ["web"; "db"] si_0 [])).
Proof.
  split; [|split].
  - destruct (power_only_when_needed [vm_web; vm_db] ["web"; "db"] si_0
                [inr (batch "1" [(task_A, [change "info" (VTaskInfo State_success)])])])
      as [(_ & _ & _ & H & _) _].
    apply H; [reflexivity|left|]. split; [left|discriminate].
  - destruct (power_only_when_needed [vm_db] ["web"; "db"] si_0 []) as [(_ & _ & _ & _ & H) _].
    apply H. intros vm Hin%list_elem_of_singleton _. by rewrite Hin.
  - destruct (power_only_when_needed [vm_web] ["web"; "db"] si_0 []) as [_ (_ & _ & _ & _ & H)].
    apply H. intros vm Hin%list_elem_of_singleton _. by rewrite Hin.
Defined.

(** ** Remarks on the edges of the statements above *)

(** The same task passed twice is kept twice in the list, and one Success
    record removes one occurrence only: the wait then goes on. *)
Example duplicate_handle_blocks :
  result (WaitForTasks [task_A; task_A] si_0
            [inr (batch "1" [(task_A, [change "info" (VTaskInfo State_success)])])]) = Blocked.
Proof. reflexivity. Qed.

(** A requested machine without snapshot information makes line 122 raise
    before anything is searched. *)
Example revert_without_snapshot_info :
  revert_vm [vm_db] ["db"] "base" si_0 [] = (Raise AttributeError, [], []).
Proof. reflexivity. Qed.

(** Several matches below different branches are all submitted; the wait is
    on the last one. *)
Example revert_submits_each_branch :
  let vm := {| vm_name := "web"; vm_powerState := poweredOff;
               vm_snapshot :=
                 Some {| rootSnapshotList :=
                           [ node "base" [ node "daily" [] ]; node "daily" [] ] |};
               PowerOn := task_A; PowerOff := task_B |} in
  events (revert_vm [vm] ["web"] "daily" si_0 []) =
    [ EvPrint ["LEVEL2 Reverting snapshot "; "daily"]; EvRevertToSnapshot (snap "daily");
      EvPrint ["LEVEL1 Reverting snapshot "; "daily"]; EvRevertToSnapshot (snap "daily");
      EvCreateFilter [RevertToSnapshot_Task (snap "daily")];
      EvWaitForUpdates None ].
Proof. reflexivity. Qed.

(** ** More on [WaitForTasks]: what every run guarantees *)

(** A loop that returns has taken a prefix of update sets, and they have
    emptied the list. *)
Lemma wait_loop_returned pending taskList version p ev :
  wait_loop taskList version pending = (Return tt, p, ev) →
  ∃ updates, pending = (inr <$> updates) ++ p ∧
             for_each on_update updates taskList = inr [].
Proof.
  revert taskList version ev.
  induction pending as [|[e|u] rest IH]; intros taskList version ev Hrun.
  - destruct taskList; [|done]. injection Hrun as <- <-. by exists [].
  - destruct taskList; [|done]. injection Hrun as <- <-. by exists [].
  - destruct taskList as [|h taskList]; [injection Hrun as <- <-; by exists []|].
    rewrite wait_loop_update in Hrun by done.
    destruct (on_update (h :: taskList) u) as [|taskList'] eqn:Hu; [done|].
    destruct (wait_loop taskList' _ rest) as [[r p'] ev'] eqn:Hrest.
    injection Hrun as -> -> <-.
    destruct (IH _ _ _ Hrest) as (updates & -> & Hup).
    exists (u :: updates). split; [done|]. simpl. by rewrite Hu.
Qed.

(** X1.  Whatever the server sends, [WaitForTasks] returns normally only
    after it has taken update sets that hold a Success record for every task
    it was given. *)
Theorem WaitForTasks_returns_only_on_success tasks si pending :
  result (WaitForTasks tasks si pending) = Return tt →
  ∃ updates,
    pending = (inr <$> updates) ++ unread (WaitForTasks tasks si pending) ∧
    all_seen tasks updates.
Proof.
  destruct (decide (tasks = [])) as [->|Hne]; [by rewrite WaitForTasks_nil|].
  rewrite WaitForTasks_run by done.
  destruct (wait_loop (task_str <$> tasks) None pending) as [[[[]|e|] p] ev] eqn:Hrun;
    [|done..].
  intros _. destruct (wait_loop_returned _ _ _ _ _ Hrun) as (updates & -> & Hup).
  exists updates. split; [done|].
  apply Forall_forall. intros t Ht. rewrite on_updates_records in Hup.
  destruct (on_records_left _ _ _ (task_str t) Hup) as [Hin|]; [|by apply elem_of_nil in Hin|done].
  by apply list_elem_of_fmap_2.
Qed.

Lemma WaitForTasks_returns_only_on_success_witness :
  ∃ updates,
    (inr <$> schedule_CAB : Pending) =
      (inr <$> updates) ++
      unread (WaitForTasks [task_A; task_B; task_C] si_0 (inr <$> schedule_CAB)) ∧
    all_seen [task_A; task_B; task_C] updates.
Proof.
  apply (WaitForTasks_returns_only_on_success [task_A; task_B; task_C] si_0
           (inr <$> schedule_CAB)).
  reflexivity.
Defined.

(** Benign records never raise, and leave in the list every handle without a
    Success record; duplicates are allowed here. *)
Lemma on_records_benign rs taskList :
  Forall (benign taskList) rs →
  ∃ taskList', for_each on_record rs taskList = inr taskList' ∧
    ∀ h, h ∈ taskList → ¬ success_seen h rs → h ∈ taskList'.
Proof.
  revert taskList. induction rs as [|[t c] rs IH]; intros taskList Hb.
  - exists taskList. by split.
  - apply Forall_cons in Hb as [[Ht Hne] Hb]. simpl in *.
    unfold on_record at 1. simpl.
    destruct (on_change t taskList c) as [e|l1] eqn:H1.
    { apply on_change_inl in H1 as [[_ H1]|(_ & H1 & Hin)]; [done|]. by destruct (Hne Hin). }
    assert (l1 `sublist_of` taskList) as Hsub by by eapply on_change_sublist.
    destruct (IH l1) as (l2 & Hl2 & Hkeep).
    { eapply Forall_impl; [done|]. intros r. by apply benign_sublist. }
    exists l2. split; [done|]. intros h Hin Hnot.
    apply Hkeep; [|intros H; apply Hnot; by apply Exists_cons_tl].
    apply on_change_inr in H1 as [->|(Hs & _ & Hrem)]; [done|].
    eapply list_remove_other; [done| |done].
    intros ->. apply Hnot. by apply Exists_cons_hd.
Qed.

(** X2.  There is no timeout.  If the update sets the server sends are
    benign and one of the tasks has no Success record in any of them, the
    wait takes them all, asks for more, and never comes back: the filter is
    not destroyed. *)
Theorem WaitForTasks_waits_for_ever tasks si updates t :
  Forall (benign (task_str <$> tasks)) (all_records updates) →
  t ∈ tasks →
  ¬ success_seen (task_str t) (all_records updates) →
  result (WaitForTasks tasks si (inr <$> updates)) = Blocked ∧
  unread (WaitForTasks tasks si (inr <$> updates)) = [] ∧
  receives (events (WaitForTasks tasks si (inr <$> updates))) =
    cursors None updates ++ [cursor_after None updates] ∧
  ∀ f, EvDestroy f ∉ events (WaitForTasks tasks si (inr <$> updates)).
Proof.
  intros Hb Ht Hnot.
  destruct (on_records_benign _ _ Hb) as (tl & Hrun & Hkeep).
  rewrite <-on_updates_records in Hrun.
  assert (tl ≠ []) as Hne.
  { intros ->. eapply elem_of_nil, Hkeep; [|done]. by apply list_elem_of_fmap_2. }
  assert (wait_loop (task_str <$> tasks) None (inr <$> updates) =
          (Blocked, [], EvWaitForUpdates <$> (cursors None updates ++ [cursor_after None updates])))
    as Hloop.
  { rewrite <-(app_nil_r (inr <$> updates)).
    rewrite (wait_loop_prefix _ _ _ _ _ Hrun Hne), wait_loop_starved by done.
    by rewrite fmap_app. }
  assert (tasks ≠ []) as Hne' by (intros ->; by apply elem_of_nil in Ht).
  rewrite receives_WaitForTasks, WaitForTasks_run, Hloop by done.
  split; [done|]. split; [done|]. split; [apply receives_fmap|].
  intros f [Hf|Hf]%elem_of_cons; [done|].
  apply list_elem_of_fmap in Hf as (v & Hv & _). done.
Qed.

Lemma WaitForTasks_waits_for_ever_witness :
  result (WaitForTasks [task_A; task_B; task_C] si_0 (inr <$> take 2 schedule_CAB)) = Blocked ∧
  receives (events (WaitForTasks [task_A; task_B; task_C] si_0 (inr <$> take 2 schedule_CAB))) =
    [None; Some "1"; Some "2"].
Proof.
  destruct (WaitForTasks_waits_for_ever [task_A; task_B; task_C] si_0
              (take 2 schedule_CAB) task_B) as (H1 & _ & H2 & _).
  - compute_done.
  - right. left.
  - compute_done.
  - split; [exact H1|exact H2].
Defined.

(** X3.  A fault of [pc.WaitForUpdates] is passed on as it is.  After update
    sets that leave some task active, a receive call that raises [e] makes
    [WaitForTasks] raise that same [e]; what the server would have sent later
    is not asked for, and the filter is destroyed on the way out. *)
Theorem WaitForTasks_receive_fault tasks si updates e pending taskList :
  for_each on_update updates (task_str <$> tasks) = inr taskList →
  taskList ≠ [] →
  result (WaitForTasks tasks si ((inr <$> updates) ++ inl e :: pending)) = Raise e ∧
  unread (WaitForTasks tasks si ((inr <$> updates) ++ inl e :: pending)) = pending ∧
  events (WaitForTasks tasks si ((inr <$> updates) ++ inl e :: pending)) =
    EvCreateFilter tasks ::
      (EvWaitForUpdates <$> (cursors None updates ++ [cursor_after None updates])) ++
      match CreateFilter si tasks with
      | Some f => [EvDestroy f]
      | None => []
      end.
Proof.
  intros Hrun Hne.
  rewrite WaitForTasks_run by by eapply tasks_not_nil.
  rewrite (wait_loop_prefix _ _ _ _ _ Hrun Hne), wait_loop_fault by done.
  by rewrite fmap_app.
Qed.

Lemma WaitForTasks_receive_fault_witness :
  result (WaitForTasks [task_A; task_B; task_C] si_0
            ((inr <$> take 1 schedule_CAB) ++ [inl (ServerFault "session expired")])) =
    Raise (ServerFault "session expired") ∧
  last (events (WaitForTasks [task_A; task_B; task_C] si_0
            ((inr <$> take 1 schedule_CAB) ++ [inl (ServerFault "session expired")]))) =
    Some (EvDestroy {| filter_id := 1 |}).
Proof.
  destruct (WaitForTasks_receive_fault [task_A; task_B; task_C] si_0 (take 1 schedule_CAB)
              (ServerFault "session expired") []
              (task_str <$> [task_A; task_B])) as (H1 & _ & H2).
  - reflexivity.
  - discriminate.
  - split; [exact H1|]. rewrite H2. reflexivity.
Defined.

Lemma on_records_raised rs taskList e :
  for_each on_record rs taskList = inl e →
  ∃ pre t c post taskList1,
    rs = pre ++ (t, c) :: post ∧
    for_each on_record pre taskList = inr taskList1 ∧
    on_change t taskList1 c = inl e.
Proof.
  revert taskList. induction rs as [|[t c] rs IH]; intros taskList Hrun; [done|].
  simpl in Hrun. unfold on_record at 1 in Hrun. simpl in Hrun.
  destruct (on_change t taskList c) as [e'|l1] eqn:H1.
  - injection Hrun as ->. by exists [], t, c, rs, taskList.
  - destruct (IH _ Hrun) as (pre & t' & c' & post & l2 & -> & Hpre & Hc).
    exists ((t, c) :: pre), t', c', post, l2. split; [done|]. split; [|done].
    simpl. unfold on_record at 1. simpl. by rewrite H1.
Qed.

(** X4.  [taskList.remove] never fails: line 87 is reached only behind the
    membership test of line 82.  So the loop body, run over an update set
    with whatever active list the update sets before it have left, never
    raises [ValueError].  And when it raises a task's error (line 89), that
    is [task.info.error] of a task of the update set that has an Error record
    there and is still in the active list, hence one of the tasks the caller
    has passed; the wait then ends with that error.  The Error record of a
    task that is not in the list is passed over. *)
Theorem WaitForTasks_remove_never_fails tasks si updates taskList u :
  for_each on_update updates (task_str <$> tasks) = inr taskList →
  on_update taskList u ≠ inl ValueError ∧
  ∀ f, on_update taskList u = inl (TaskFault f) →
    ∃ pre t c post taskList1,
      records u = pre ++ (t, c) :: post ∧
      for_each on_record pre taskList = inr taskList1 ∧
      f = task_info_error t ∧ shows State_error c ∧
      task_str t ∈ taskList1 ∧ task_str t ∈ task_str <$> tasks ∧
      ∀ pending,
        result (WaitForTasks tasks si ((inr <$> updates) ++ inr u :: pending)) =
          Raise (TaskFault f).
Proof.
  intros Hrun. split.
  - intros Hu. rewrite on_update_records in Hu.
    apply on_records_raised in Hu as (pre & t & c & post & l & _ & _ & Hc).
    apply on_change_inl in Hc as [[? _]|[? _]]; done.
  - intros f Hu. pose proof Hu as Hu'. rewrite on_update_records in Hu'.
    apply on_records_raised in Hu' as (pre & t & c & post & l & Hrec & Hpre & Hc).
    apply on_change_inl in Hc as [[? _]|(Hf & Hs & Hin)]; [done|].
    injection Hf as ->.
    pose proof (on_records_sublist _ _ _ Hpre) as Hsub1.
    pose proof (on_updates_sublist _ _ _ Hrun) as Hsub.
    exists pre, t, c, post, l. split; [done|]. split; [done|]. split; [done|].
    split; [done|]. split; [done|]. split.
    { eapply sublist_subseteq; [|done]. by etrans. }
    intros pending. eapply WaitForTasks_raise_at; [done| |done].
    intros ->. apply sublist_nil_r in Hsub1 as ->. by apply elem_of_nil in Hin.
Qed.

Lemma WaitForTasks_remove_never_fails_witness :
  on_update (task_str <$> [task_A; task_B])
    (batch "1" [ (task_B, [change "info" (VTaskInfo State_error)]);
                 (task_A, [change "info.state" (VState State_success)]) ]) ≠
    inl ValueError ∧
  ∃ pre t c post taskList1,
    records (batch "1" [ (task_A, [change "info.state" (VState State_success)]);
                         (task_C, [change "info" (VTaskInfo State_error)]);
                         (task_B, [change "info" (VTaskInfo State_error)]) ]) =
      pre ++ (t, c) :: post ∧
    for_each on_record pre (task_str <$> [task_A; task_B]) = inr taskList1 ∧
    {| fault_msg := "B failed" |} = task_info_error t ∧ shows State_error c ∧
    task_str t ∈ taskList1 ∧ task_str t ∈ task_str <$> [task_A; task_B] ∧
    ∀ pending,
      result (WaitForTasks [task_A; task_B] si_0
                ((inr <$> []) ++
                 inr (batch "1" [ (task_A, [change "info.state" (VState State_success)]);
                                  (task_C, [change "info" (VTaskInfo State_error)]);
                                  (task_B, [change "info" (VTaskInfo State_error)]) ]) ::
                 pending)) =
        Raise (TaskFault {| fault_msg := "B failed" |}).
Proof.
  split.
  - apply (WaitForTasks_remove_never_fails [task_A; task_B] si_0 []
             (task_str <$> [task_A; task_B])). reflexivity.
  - destruct (WaitForTasks_remove_never_fails [task_A; task_B] si_0 []
                (task_str <$> [task_A; task_B])
                (batch "1" [ (task_A, [change "info.state" (VState State_success)]);
                             (task_C, [change "info" (VTaskInfo State_error)]);
                             (task_B, [change "info" (VTaskInfo State_error)]) ])
                eq_refl) as [_ H].
    apply H. reflexivity.
Defined.

(** ** More on [WaitForTasks]: replies are taken one by one *)

Lemma wait_loop_frame pending extra taskList version :
  result (wait_loop taskList version pending) ≠ Blocked →
  wait_loop taskList version (pending ++ extra) =
  (result (wait_loop taskList version pending),
   unread (wait_loop taskList version pending) ++ extra,
   events (wait_loop taskList version pending)).
Proof.
  revert taskList version.
  induction pending as [|[e|u] rest IH]; intros taskList version Hres.
  - destruct taskList; [|done]. by rewrite !wait_loop_nil.
  - by destruct taskList.
  - destruct taskList as [|h taskList]; [by rewrite !wait_loop_nil|].
    rewrite <-app_comm_cons, !wait_loop_update in * by done.
    destruct (on_update (h :: taskList) u) as [|taskList'] eqn:Hu; [done|].
    specialize (IH taskList' (Some (update_version u))).
    destruct (wait_loop taskList' _ rest) as [[r p'] ev'] eqn:Hrest.
    rewrite IH by done. done.
Qed.

(** X5.  A wait that comes back has read only the replies it needed: with
    further replies queued behind, it ends the same way, issues the same
    calls, and leaves exactly those further replies for the next wait. *)
Theorem WaitForTasks_frame tasks si pending extra :
  result (WaitForTasks tasks si pending) ≠ Blocked →
  WaitForTasks tasks si (pending ++ extra) =
  (result (WaitForTasks tasks si pending),
   unread (WaitForTasks tasks si pending) ++ extra,
   events (WaitForTasks tasks si pending)).
Proof.
  destruct (decide (tasks = [])) as [->|Hne]; [by rewrite !WaitForTasks_nil|].
  rewrite !WaitForTasks_run by done. intros Hres.
  rewrite wait_loop_frame.
  - by destruct (wait_loop (task_str <$> tasks) None pending) as [[[[]|e|] p] ev].
  - by destruct (wait_loop (task_str <$> tasks) None pending) as [[[[]|e|] p] ev].
Qed.

Lemma WaitForTasks_frame_witness :
  unread (WaitForTasks [task_A; task_B; task_C] si_0
            ((inr <$> take 3 schedule_CAB) ++ (inr <$> drop 3 schedule_CAB))) =
    [] ++ (inr <$> drop 3 schedule_CAB).
Proof.
  rewrite (WaitForTasks_frame [task_A; task_B; task_C] si_0
             (inr <$> take 3 schedule_CAB) (inr <$> drop 3 schedule_CAB)).
  - reflexivity.
  - vm_compute. discriminate.
Defined.

(** X6.  The state is read off a record before the task is looked up: an
    ['info'] record whose value is no task info ends the wait with
    [AttributeError], whether or not its task is (still) in the list, and
    even when the records before it have emptied the list. *)
Theorem WaitForTasks_untyped_info tasks si updates u pending pre t c post taskList taskList' :
  for_each on_update updates (task_str <$> tasks) = inr taskList →
  taskList ≠ [] →
  records u = pre ++ (t, c) :: post →
  for_each on_record pre taskList = inr taskList' →
  change_name c = "info" →
  (∀ state, change_val c ≠ VTaskInfo state) →
  result (WaitForTasks tasks si ((inr <$> updates) ++ inr u :: pending)) =
    Raise AttributeError ∧
  unread (WaitForTasks tasks si ((inr <$> updates) ++ inr u :: pending)) = pending.
Proof.
  intros Hrun Hne Hrec Hpre Hn Hv.
  assert (on_update taskList u = inl AttributeError) as Hu.
  { rewrite on_update_records, Hrec, for_each_app, Hpre. simpl.
    unfold on_record at 1, on_change, change_state. simpl.
    rewrite decide_True by done. destruct (change_val c) eqn:Hc; try done.
    by destruct (Hv state). }
  rewrite WaitForTasks_run by by eapply tasks_not_nil.
  rewrite (wait_loop_prefix _ _ _ _ _ Hrun Hne), wait_loop_update, Hu by done.
  done.
Qed.

Lemma WaitForTasks_untyped_info_witness :
  result (WaitForTasks [task_A] si_0
            ((inr <$> []) ++
             inr (batch "1" [ (task_A, [change "info" (VTaskInfo State_success)]);
                              (task_B, [change "info" VNone]) ]) :: [])) =
    Raise AttributeError.
Proof.
  apply (WaitForTasks_untyped_info [task_A] si_0 []
           (batch "1" [ (task_A, [change "info" (VTaskInfo State_success)]);
                        (task_B, [change "info" VNone]) ]) []
           [(task_A, change "info" (VTaskInfo State_success))] task_B (change "info" VNone) []
           (task_str <$> [task_A]) []); try reflexivity; try discriminate.
Defined.

(** ** More on [WaitForTasks]: the order of the tasks *)

Lemma on_change_Permutation t l1 l2 c :
  l1 ≡ₚ l2 → sum_relation (=) (≡ₚ) (on_change t l1 c) (on_change t l2 c).
Proof.
  intros Hp. unfold on_change.
  destruct (change_state c) as [e|[state|]]; [by constructor| |by constructor].
  destruct (decide (task_str t ∈ l1)) as [Hin1|Hin1];
    destruct (decide (task_str t ∈ l2)) as [Hin2|Hin2];
    try (by rewrite Hp in Hin1); [|by constructor].
  destruct (decide (state = VState State_success)).
  - destruct (list_remove_elem _ _ Hin1) as [a Ha].
    destruct (list_remove_elem _ _ Hin2) as [b Hb]. rewrite Ha, Hb. constructor.
    apply list_remove_Permutation in Ha, Hb.
    rewrite Ha, Hb in Hp. by apply Permutation_cons_inv in Hp.
  - destruct (decide _); by constructor.
Qed.

Lemma for_each_Permutation {A} (body : list string → A → Exn + list string) l :
  (∀ l1 l2 x, l1 ≡ₚ l2 → sum_relation (=) (≡ₚ) (body l1 x) (body l2 x)) →
  ∀ l1 l2, l1 ≡ₚ l2 →
    sum_relation (=) (≡ₚ) (for_each body l l1) (for_each body l l2).
Proof.
  intros Hbody. induction l as [|x l IH]; intros l1 l2 Hp; simpl; [by constructor|].
  destruct (Hbody l1 l2 x Hp) as [e1 e2 ->|a b Hab]; [by constructor|]. by apply IH.
Qed.

Lemma on_update_Permutation l1 l2 u :
  l1 ≡ₚ l2 → sum_relation (=) (≡ₚ) (on_update l1 u) (on_update l2 u).
Proof.
  revert l1 l2. apply for_each_Permutation. intros l1 l2 fs.
  revert l1 l2. apply for_each_Permutation. intros l1 l2 os.
  revert l1 l2. apply for_each_Permutation. intros l1 l2 c.
  apply on_change_Permutation.
Qed.

Lemma wait_loop_Permutation pending l1 l2 version :
  l1 ≡ₚ l2 → wait_loop l1 version pending = wait_loop l2 version pending.
Proof.
  revert l1 l2 version.
  induction pending as [|[e|u] rest IH]; intros l1 l2 version Hp;
    pose proof (Permutation_length Hp) as Hlen.
  - destruct l1, l2; done.
  - destruct l1, l2; done.
  - destruct l1 as [|h1 l1], l2 as [|h2 l2]; try done.
    rewrite !wait_loop_update by done.
    destruct (on_update_Permutation _ _ u Hp) as [e1 e2 ->|a b Hab]; [done|].
    by rewrite (IH a b _ Hab).
Qed.

(** X7.  The order in which the tasks are passed does not matter: the wait
    ends the same way, after the same replies and the same receive calls. *)
Theorem WaitForTasks_order_irrelevant tasks1 tasks2 si pending :
  tasks1 ≡ₚ tasks2 →
  result (WaitForTasks tasks1 si pending) = result (WaitForTasks tasks2 si pending) ∧
  unread (WaitForTasks tasks1 si pending) = unread (WaitForTasks tasks2 si pending) ∧
  receives (events (WaitForTasks tasks1 si pending)) =
    receives (events (WaitForTasks tasks2 si pending)).
Proof.
  intros Hp. destruct (decide (tasks1 = [])) as [->|Hne1].
  { by apply Permutation_nil_l in Hp as <-. }
  assert (tasks2 ≠ []) as Hne2.
  { intros ->. by apply Permutation_nil_r in Hp. }
  rewrite !receives_WaitForTasks, !WaitForTasks_run by done.
  rewrite (wait_loop_Permutation pending (task_str <$> tasks1) (task_str <$> tasks2))
    by by apply fmap_Permutation.
  by destruct (wait_loop _ _ _) as [[[[]|e|] p] ev].
Qed.

Lemma WaitForTasks_order_irrelevant_witness :
  result (WaitForTasks [task_A; task_B; task_C] si_0 (inr <$> schedule_CAB)) =
  result (WaitForTasks [task_C; task_A; task_B] si_0 (inr <$> schedule_CAB)).
Proof.
  apply (WaitForTasks_order_irrelevant [task_A; task_B; task_C] [task_C; task_A; task_B]
           si_0 (inr <$> schedule_CAB)).
  change ([task_A; task_B] ++ [task_C] ≡ₚ [task_C] ++ [task_A; task_B]).
  apply Permutation_app_comm.
Defined.

(** ** More on [revert_vm]: which snapshots are reverted to *)

Lemma reverts_app ev1 ev2 : reverts (ev1 ++ ev2) = reverts ev1 ++ reverts ev2.
Proof. apply omap_app. Qed.

Lemma locals_after_app s rs1 rs2 :
  locals_after (locals_after s rs1) rs2 = locals_after s (rs1 ++ rs2).
Proof.
  unfold locals_after. rewrite last_app. by destruct (last rs2).
Qed.

Lemma named_nodes_cons k name node l :
  named_nodes (S k) name (node :: l) =
  ((if decide (name = tree_name node) then [tree_snapshot node] else []) ++
   named_nodes k name (childSnapshotList node)) ++ named_nodes (S k) name l.
Proof. reflexivity. Qed.

(** One level of the search, over whatever the level below does. *)
Lemma trace_level k name label (inner : RevertLocals → list SnapshotTree → M RevertLocals) :
  (∀ l s p, search_trace k name l s p (inner s l p)) →
  ∀ l s p, search_trace (S k) name l s p
    (for_M (λ s node,
       if decide (name = tree_name node) then revert_here label node
       else s' ← inner s (childSnapshotList node); mret (Next, s')) l s p).
Proof.
  intros Hinner l. induction l as [|node l IH]; intros s p.
  - exists []. split; [done|]. split; [done|]. split; [by destruct k|]. by destruct k.
  - unfold search_trace. rewrite for_M_cons, named_nodes_cons.
    destruct (decide (name = tree_name node)) as [Hn|Hn].
    + rewrite revert_here_run.
      exists ([EvPrint [label +:+ " Reverting snapshot "; tree_name node];
               EvRevertToSnapshot (tree_snapshot node)] ++ []).
      split; [done|]. split; [by repeat constructor|]. split; [|done].
      simpl. apply sublist_skip, sublist_nil_l.
    + rewrite run_bind.
      destruct (Hinner (childSnapshotList node) s p) as (ev1 & -> & Hloc1 & Hsub1 & Hne1).
      rewrite run_ret.
      destruct (IH (locals_after s (reverts ev1)) p) as (ev2 & -> & Hloc2 & Hsub2 & Hne2).
      exists ((ev1 ++ []) ++ ev2). rewrite app_nil_r, reverts_app, locals_after_app.
      split; [done|]. split; [by apply Forall_app_2|].
      split; [by apply sublist_app|]. simpl.
      intros Hne. destruct (named_nodes k name (childSnapshotList node)) as [|x xs].
      * destruct (reverts ev2); [by destruct Hne2|]. by destruct (reverts ev1).
      * destruct (reverts ev1); [by destruct Hne1|done].
Qed.

Lemma level3_trace name l s p :
  search_trace 1 name l s p (for_M (level3 name) l s p).
Proof.
  rewrite (for_M_ext _ (λ s node,
    if decide (name = tree_name node) then revert_here "LEVEL3" node
    else s' ← (λ s (_ : list SnapshotTree), mret s) s (childSnapshotList node);
         mret (Next, s'))).
  - apply (trace_level 0 name "LEVEL3"
             (λ s (_ : list SnapshotTree), (mret s : M RevertLocals))).
    clear. intros l s p. by exists [].
  - intros s0 node p0. unfold level3. by destruct (decide _).
Qed.

Lemma level2_trace name l s p :
  search_trace 2 name l s p (for_M (level2 name) l s p).
Proof.
  apply (trace_level 1 name "LEVEL2" (λ s l, for_M (level3 name) l s)).
  intros. apply level3_trace.
Qed.

Lemma level1_trace name l s p :
  search_trace 3 name l s p (for_M (level1 name) l s p).
Proof.
  apply (trace_level 2 name "LEVEL1" (λ s l, for_M (level2 name) l s)).
  intros. apply level2_trace.
Qed.

Lemma candidates_cons vm vmList vmnames name :
  candidates (vm :: vmList) vmnames name =
  (if decide (vm_name vm ∈ vmnames) then
     match vm_snapshot vm with
     | Some info => named_nodes 3 name (rootSnapshotList info)
     | None => []
     end
   else []) ++ candidates vmList vmnames name.
Proof. reflexivity. Qed.

(** The loop over the inventory: it either goes through, or stops at a
    requested machine without snapshot information. *)
Lemma revert_search_trace vmList vmnames name s p :
  ∃ r ev,
    for_M (revert_search vmnames name) vmList s p = (r, p, ev) ∧
    Forall is_search_event ev ∧
    reverts ev `sublist_of` candidates vmList vmnames name ∧
    ((r = Return (locals_after s (reverts ev)) ∧
      (∀ vm, vm ∈ vmList → vm_name vm ∈ vmnames → is_Some (vm_snapshot vm)) ∧
      (candidates vmList vmnames name ≠ [] → reverts ev ≠ [])) ∨
     (r = Raise AttributeError ∧
      ∃ vm, vm ∈ vmList ∧ vm_name vm ∈ vmnames ∧ vm_snapshot vm = None)).
Proof.
  revert s. induction vmList as [|vm vmList IH]; intros s.
  - exists (Return s), []. split; [done|]. split; [done|]. split; [done|]. left.
    split; [done|]. split; [|done]. intros vm Hin. by apply elem_of_nil in Hin.
  - rewrite for_M_cons, candidates_cons. unfold revert_search at 1.
    destruct (decide (vm_name vm ∈ vmnames)) as [Hn|Hn].
    + destruct (vm_snapshot vm) as [info|] eqn:Hinfo.
      * rewrite run_bind.
        destruct (level1_trace name (rootSnapshotList info) s p)
          as (ev1 & -> & Hloc1 & Hsub1 & Hne1).
        rewrite run_ret.
        destruct (IH (locals_after s (reverts ev1)))
          as (r2 & ev2 & -> & Hloc2 & Hsub2 & Hcase).
        exists r2, ((ev1 ++ []) ++ ev2). rewrite app_nil_r, reverts_app.
        split; [done|]. split; [by apply Forall_app_2|].
        split; [by apply sublist_app|].
        destruct Hcase as [(-> & Hsnap & Hne2)|(-> & vm' & Hin & Hn' & Hs')].
        -- left. rewrite locals_after_app. split; [done|]. split.
           { intros vm' [->|Hin]%elem_of_cons Hn'; [by rewrite Hinfo|by apply Hsnap]. }
           intros Hne. destruct (named_nodes 3 name (rootSnapshotList info)) as [|x xs].
           ++ destruct (reverts ev2); [by destruct Hne2|]. by destruct (reverts ev1).
           ++ destruct (reverts ev1); [by destruct Hne1|done].
        -- right. split; [done|]. exists vm'. split; [by right|done].
      * exists (Raise AttributeError), []. split; [done|]. split; [done|].
        split; [apply sublist_nil_l|]. right. split; [done|]. exists vm.
        split; [left|done].
    + rewrite run_ret. destruct (IH s) as (r2 & ev2 & -> & Hloc2 & Hsub2 & Hcase).
      exists r2, ([] ++ ev2). split; [done|]. split; [done|]. split; [done|].
      destruct Hcase as [(-> & Hsnap & Hne2)|(-> & vm' & Hin & Hn' & Hs')].
      * left. split; [done|]. split; [|done].
        intros vm' [->|Hin]%elem_of_cons Hn'; [done|by apply Hsnap].
      * right. split; [done|]. exists vm'. split; [by right|done].
Qed.

Lemma named_nodes_elem k name snap l :
  snap ∈ named_nodes k name l ↔ Exists (snapshot_within k name snap) l.
Proof.
  revert l. induction k as [|k IH]; intros l.
  - split; [by intros H%elem_of_nil|].
    intros (node & _ & d & Hd & _)%Exists_exists. lia.
  - simpl. rewrite list_elem_of_bind, Exists_exists.
    split; intros (node & H1 & H2).
    + exists node. split; [done|]. apply snapshot_within_S.
      apply elem_of_app in H1 as [H1|H1].
      * left. destruct (decide (name = tree_name node)); [|by apply elem_of_nil in H1].
        by apply list_elem_of_singleton in H1.
      * right. by apply IH.
    + exists node. split; [|done]. apply elem_of_app.
      apply snapshot_within_S in H2 as [[Hn ->]|H2].
      * left. rewrite decide_True by done. left.
      * right. by apply IH.
Qed.

Lemma candidates_elem vmList vmnames name snap :
  snap ∈ candidates vmList vmnames name ↔ shallow_snapshot vmList vmnames name snap.
Proof.
  unfold candidates, shallow_snapshot. rewrite list_elem_of_bind. split.
  - intros (vm & H & Hin). destruct (decide (vm_name vm ∈ vmnames)) as [Hn|];
      [|by apply elem_of_nil in H].
    destruct (vm_snapshot vm) as [info|] eqn:Hinfo; [|by apply elem_of_nil in H].
    exists vm, info. split; [done|]. split; [done|]. split; [done|].
    by apply named_nodes_elem.
  - intros (vm & info & Hin & Hn & Hinfo & H). exists vm. split; [|done].
    rewrite decide_True, Hinfo by done. by apply named_nodes_elem.
Qed.

Lemma reverts_elem snap evs : snap ∈ reverts evs ↔ EvRevertToSnapshot snap ∈ evs.
Proof.
  unfold reverts. rewrite list_elem_of_omap. split.
  - intros (e & He & Hs). destruct e; try done. by injection Hs as ->.
  - intros He. by exists (EvRevertToSnapshot snap).
Qed.

Lemma reverts_wait tasks evs : Forall (wait_event tasks) evs → reverts evs = [].
Proof.
  induction 1 as [|e evs He _ IH]; [done|]. unfold reverts in *. simpl.
  by destruct e.
Qed.

Lemma reverts_WaitForTasks tasks si p : reverts (events (WaitForTasks tasks si p)) = [].
Proof.
  destruct (decide (tasks = [])) as [->|Hne]; [done|].
  destruct (WaitForTasks_events tasks si p Hne) as (rest & -> & Hw).
  by eapply reverts_wait.
Qed.

(** [revert_vm], taken apart: the search, then the wait or the message. *)
Lemma revert_vm_run vmList vmnames name si pending :
  ∃ ev,
    Forall is_search_event ev ∧
    reverts ev `sublist_of` candidates vmList vmnames name ∧
    (((∃ vm, vm ∈ vmList ∧ vm_name vm ∈ vmnames ∧ vm_snapshot vm = None) ∧
      revert_vm vmList vmnames name si pending = (Raise AttributeError, pending, ev)) ∨
     ((∀ vm, vm ∈ vmList → vm_name vm ∈ vmnames → is_Some (vm_snapshot vm)) ∧
      (candidates vmList vmnames name ≠ [] → reverts ev ≠ []) ∧
      revert_vm vmList vmnames name si pending =
        match last (reverts ev) with
        | Some snap_obj =>
            let w := WaitForTasks [RevertToSnapshot_Task snap_obj] si pending in
            (result w, unread w,
             ev ++ events w ++
             match result w with Return _ => [EvPrint ["Done reverting"]] | _ => [] end)
        | None =>
            (Return tt, pending, ev ++ [EvPrint ["Snapshot *" +:+ name +:+ "* not found"]])
        end)).
Proof.
  destruct (revert_search_trace vmList vmnames name
              {| snapshot_found := false; task := None |} pending)
    as (r & ev & Hrun & Hloc & Hsub & Hcase).
  exists ev. split; [done|]. split; [done|]. unfold revert_vm. rewrite run_bind, Hrun.
  destruct Hcase as [(-> & Hsnap & Hne)|(-> & Hvm)]; [right|by left].
  split; [done|]. split; [done|].
  unfold locals_after. destruct (last (reverts ev)) as [snap|]; simpl; [|done].
  rewrite run_bind.
  destruct (WaitForTasks [RevertToSnapshot_Task snap] si pending) as [[[[]|e|] p1] ev1];
    unfold result, unread, events; simpl; by rewrite ?app_nil_r.
Qed.

Lemma events_run {A} (r : Result A) p ev : events (r, p, ev) = ev.
Proof. reflexivity. Qed.

Lemma reverts_local_tail ev tail :
  reverts tail = [] → reverts (ev ++ tail) = reverts ev.
Proof. intros H. by rewrite reverts_app, H, app_nil_r. Qed.

(** The reverts of a whole run are those of its search. *)
Lemma revert_vm_reverts vmList vmnames name si pending :
  reverts (events (revert_vm vmList vmnames name si pending))
    `sublist_of` candidates vmList vmnames name.
Proof.
  destruct (revert_vm_run vmList vmnames name si pending)
    as (ev & Hloc & Hsub & [(_ & ->)|(_ & _ & ->)]); [done|].
  destruct (last (reverts ev)) as [snap|]; cbv zeta; rewrite events_run.
  - rewrite reverts_local_tail; [done|].
    rewrite reverts_app, reverts_WaitForTasks. by destruct (result _).
  - by rewrite reverts_local_tail.
Qed.

(** X16.  [revert_vm] on every inventory.  The search looks three levels
    deep into the snapshot trees of the requested machines.

    A requested machine without snapshot information makes line 122 raise
    [AttributeError]: no reply is read and nothing is waited for.

    Otherwise: if the name occurs at depth 1, 2 or 3, [revert_vm] prints and
    submits reverts, all of them to snapshots of that name at such a depth,
    and then waits on the one-element list of the task of the last revert it
    has submitted; it ends as that wait ends, printing "Done reverting" when
    it returns.  If the name does not occur at those depths (it occurs only
    further down, or nowhere), [revert_vm] prints that the snapshot was not
    found and does nothing else: no revert, no wait, no reply read. *)
Theorem revert_vm_three_levels vmList vmnames snapshot_name si pending :
  ((∃ vm, vm ∈ vmList ∧ vm_name vm ∈ vmnames ∧ vm_snapshot vm = None) →
     result (revert_vm vmList vmnames snapshot_name si pending) = Raise AttributeError ∧
     unread (revert_vm vmList vmnames snapshot_name si pending) = pending ∧
     Forall is_search_event (events (revert_vm vmList vmnames snapshot_name si pending))) ∧
  ((∀ vm, vm ∈ vmList → vm_name vm ∈ vmnames → is_Some (vm_snapshot vm)) →
     (found_shallow vmList vmnames snapshot_name →
        ∃ snap_obj pre,
          Forall is_search_event pre ∧
          (∀ s, EvRevertToSnapshot s ∈ pre →
                shallow_snapshot vmList vmnames snapshot_name s) ∧
          last (reverts pre) = Some snap_obj ∧
          shallow_snapshot vmList vmnames snapshot_name snap_obj ∧
          result (revert_vm vmList vmnames snapshot_name si pending) =
            result (WaitForTasks [RevertToSnapshot_Task snap_obj] si pending) ∧
          unread (revert_vm vmList vmnames snapshot_name si pending) =
            unread (WaitForTasks [RevertToSnapshot_Task snap_obj] si pending) ∧
          events (revert_vm vmList vmnames snapshot_name si pending) =
            pre ++ events (WaitForTasks [RevertToSnapshot_Task snap_obj] si pending) ++
            match result (WaitForTasks [RevertToSnapshot_Task snap_obj] si pending) with
            | Return _ => [EvPrint ["Done reverting"]]
            | _ => []
            end) ∧
     (¬ found_shallow vmList vmnames snapshot_name →
        revert_vm vmList vmnames snapshot_name si pending =
          (Return tt, pending,
           [EvPrint ["Snapshot *" +:+ snapshot_name +:+ "* not found"]]))).
Proof.
  split.
  - intros (vm & Hin & Hn & Hnone).
    destruct (revert_vm_run vmList vmnames snapshot_name si pending)
      as (ev & Hloc & Hsub & [(_ & ->)|(Hsnap & _)]); [done|].
    destruct (Hsnap vm Hin Hn) as [info Hinfo]. congruence.
  - intros Hsnap. split.
    + intros Hfound.
      assert (candidates vmList vmnames snapshot_name ≠ []) as Hcand.
      { destruct (revert_search_outcome vmList vmnames snapshot_name
                    {| snapshot_found := false; task := None |} pending Hsnap)
          as (s' & ev & _ & _ & [(_ & snap & Hsn & _)|(Hnf & _)]); [|done].
        apply candidates_elem in Hsn. intros Hnil. rewrite Hnil in Hsn.
        by apply elem_of_nil in Hsn. }
      destruct (revert_vm_run vmList vmnames snapshot_name si pending)
        as (ev & Hloc & Hsub & [((vm & Hin & Hn & Hnone) & _)|(_ & Hne & Hrun)]).
      { destruct (Hsnap vm Hin Hn) as [info Hinfo]. congruence. }
      specialize (Hne Hcand).
      assert (∀ s, s ∈ reverts ev → shallow_snapshot vmList vmnames snapshot_name s)
        as Hshallow.
      { intros s Hs. apply candidates_elem. by eapply sublist_subseteq. }
      destruct (last (reverts ev)) as [snap_obj|] eqn:Hlast.
      2:{ apply last_None in Hlast. done. }
      exists snap_obj, ev. split; [done|]. split.
      { intros s Hs%reverts_elem. by apply Hshallow. }
      split; [done|]. split.
      { apply Hshallow. apply last_Some in Hlast as [l' ->].
        apply elem_of_app. right. left. }
      by rewrite Hrun.
    + intros Hnf. unfold revert_vm. rewrite run_bind.
      destruct (revert_search_outcome vmList vmnames snapshot_name
                  {| snapshot_found := false; task := None |} pending Hsnap)
        as (s' & ev & -> & _ & [(Hf & _)|(_ & -> & ->)]); done.
Qed.

Lemma revert_vm_three_levels_witness :
  (result (revert_vm [vm_web; vm_db] ["web"; "db"] "base" si_0 []) = Raise AttributeError ∧
   unread (revert_vm [vm_web; vm_db] ["web"; "db"] "base" si_0 []) = [] ∧
   Forall is_search_event (events (revert_vm [vm_web; vm_db] ["web"; "db"] "base" si_0 []))) ∧
  (∃ snap_obj pre,
     last (reverts pre) = Some snap_obj ∧
     shallow_snapshot [vm_web; vm_db] ["web"] "tested" snap_obj ∧
     events (revert_vm [vm_web; vm_db] ["web"] "tested" si_0 []) =
       pre ++ events (WaitForTasks [RevertToSnapshot_Task snap_obj] si_0 []) ++ []) ∧
  revert_vm [vm_web; vm_db] ["web"] "golden" si_0 [] =
    (Return tt, [], [EvPrint ["Snapshot *golden* not found"]]).
Proof.
  assert (∀ vm, vm ∈ [vm_web; vm_db] → vm_name vm ∈ ["web"] → is_Some (vm_snapshot vm))
    as Hsnap.
  { intros vm [->|Hin]%elem_of_cons Hn; [by eexists|].
    apply list_elem_of_singleton in Hin as ->.
    apply list_elem_of_singleton in Hn. discriminate Hn. }
  split; [|split].
  - apply (revert_vm_three_levels [vm_web; vm_db] ["web"; "db"] "base" si_0 []).
    exists vm_db. split; [right; left|]. split; [right; left|reflexivity].
  - destruct (revert_vm_three_levels [vm_web; vm_db] ["web"] "tested" si_0 [])
      as [_ Hsome].
    destruct (Hsome Hsnap) as [Hfound _].
    destruct Hfound as (snap_obj & pre & _ & _ & H1 & H2 & _ & _ & H3).
    { exists vm_web. eexists. split; [left|]. split; [left|]. split; [reflexivity|].
      apply Exists_cons. left. exists 3. split; [lia|].
      simpl. apply Exists_cons. left. apply Exists_cons. by left. }
    exists snap_obj, pre. split; [done|]. split; [done|].
    rewrite H3. reflexivity.
  - destruct (revert_vm_three_levels [vm_web; vm_db] ["web"] "golden" si_0 [])
      as [_ Hsome].
    destruct (Hsome Hsnap) as [_ Hnone]. apply Hnone.
    intros (vm & info & [->|Hin]%elem_of_cons & Hn & Hs & Hex).
    + injection Hs as <-. simpl in Hex.
      apply Exists_cons in Hex as [Hex|Hex]; [|apply Exists_cons in Hex as [Hex|Hex]].
      * destruct Hex as ([|[|[|[|d]]]] & Hd & H); try lia; simpl in H; invert_Exists.
      * destruct Hex as ([|[|[|[|d]]]] & Hd & H); try lia; simpl in H; invert_Exists.
      * by apply Exists_nil in Hex.
    + apply list_elem_of_singleton in Hin as ->. discriminate Hs.
Defined.

(** C9.  The search is three levels deep, but two runs of [revert_vm] go
    against the claim.  Machine "db" is requested and has no snapshot: the
    name occurs nowhere, and instead of reporting it as not found the call
    raises [AttributeError] on line 122 and prints nothing.  Machine "lab"
    has two snapshots named "daily" within three levels, under different
    branches: [break] leaves one loop only, so both are reverted to, and the
    wait is for the task of the second alone. *)
Lemma revert_vm_unreported_and_unwaited :
  (¬ found_shallow [vm_db] ["db"] "base") ∧
  revert_vm [vm_db] ["db"] "base" si_0 [] = (Raise AttributeError, [], []) ∧
  events (revert_vm [vm_lab] ["lab"] "daily" si_0 []) =
    [ EvPrint ["LEVEL2 Reverting snapshot "; "daily"];
      EvRevertToSnapshot (snap "daily-1");
      EvPrint ["LEVEL1 Reverting snapshot "; "daily"];
      EvRevertToSnapshot (snap "daily-2");
      EvCreateFilter [RevertToSnapshot_Task (snap "daily-2")];
      EvWaitForUpdates None ].
Proof.
  split; [|split; reflexivity].
  intros (vm & info & Hin%list_elem_of_singleton & _ & Hs & _).
  rewrite Hin in Hs. discriminate Hs.
Qed.

(** X8.  [revert_vm] reverts only to snapshots that bear the requested name,
    lie at depth 1, 2 or 3, and belong to a requested machine of the
    inventory; it reverts to each of them at most once, in the order of the
    trees.  This holds for every run, however it ends. *)
Theorem revert_vm_reverts_only_candidates vmList vmnames snapshot_name si pending :
  reverts (events (revert_vm vmList vmnames snapshot_name si pending))
    `sublist_of` candidates vmList vmnames snapshot_name ∧
  ∀ snap_obj,
    EvRevertToSnapshot snap_obj ∈ events (revert_vm vmList vmnames snapshot_name si pending) →
    shallow_snapshot vmList vmnames snapshot_name snap_obj.
Proof.
  split; [apply revert_vm_reverts|].
  intros snap Hin%reverts_elem. apply candidates_elem.
  eapply sublist_subseteq; [apply revert_vm_reverts|done].
Qed.

Lemma revert_vm_reverts_only_candidates_witness :
  shallow_snapshot [vm_web; vm_db] ["web"] "tested" (snap "tested").
Proof.
  apply (revert_vm_reverts_only_candidates [vm_web; vm_db] ["web"] "tested" si_0 []).
  vm_compute. right. left.
Defined.

(** X9.  When [revert_vm] waits at all, it waits on one task: that of the
    last revert it has submitted.  Reverts submitted before that one are left
    running without a wait. *)
Theorem revert_vm_waits_on_last vmList vmnames snapshot_name si pending tasks :
  EvCreateFilter tasks ∈ events (revert_vm vmList vmnames snapshot_name si pending) →
  ∃ snap_obj,
    last (reverts (events (revert_vm vmList vmnames snapshot_name si pending))) =
      Some snap_obj ∧
    tasks = [RevertToSnapshot_Task snap_obj].
Proof.
  destruct (revert_vm_run vmList vmnames snapshot_name si pending)
    as (ev & Hloc & _ & [(_ & ->)|(_ & _ & ->)]).
  { rewrite events_run. intros Hin.
    rewrite Forall_forall in Hloc. by destruct (Hloc _ Hin). }
  rewrite Forall_forall in Hloc.
  destruct (last (reverts ev)) as [snap|] eqn:Hlast; cbv zeta; rewrite !events_run.
  - intros [Hin|Hin]%elem_of_app; [by destruct (Hloc _ Hin)|].
    exists snap. rewrite reverts_local_tail.
    2:{ rewrite reverts_app, reverts_WaitForTasks. by destruct (result _). }
    split; [done|].
    destruct (WaitForTasks_events [RevertToSnapshot_Task snap] si pending ltac:(done))
      as (rest & Hev & Hw).
    rewrite Forall_forall in Hw.
    apply elem_of_app in Hin as [Hin|Hin].
    + rewrite Hev in Hin. by destruct (Hw _ Hin).
    + destruct (result _); [|by apply elem_of_nil in Hin..].
      by apply list_elem_of_singleton in Hin.
  - intros [Hin|Hin]%elem_of_app; [by destruct (Hloc _ Hin)|].
    by apply list_elem_of_singleton in Hin.
Qed.

Lemma revert_vm_waits_on_last_witness :
  ∃ snap_obj,
    last (reverts (events (revert_vm [vm_lab] ["lab"] "daily" si_0 []))) = Some snap_obj ∧
    [RevertToSnapshot_Task (snap "daily-2")] = [RevertToSnapshot_Task snap_obj].
Proof.
  apply (revert_vm_waits_on_last [vm_lab] ["lab"] "daily" si_0 []
           [RevertToSnapshot_Task (snap "daily-2")]).
  vm_compute. do 4 right. left.
Defined.

Lemma sublist_singleton {A} (l : list A) x : l `sublist_of` [x] → l ≠ [] → l = [x].
Proof.
  intros Hsub Hne. destruct l as [|y l]; [done|].
  apply sublist_cons_l in Hsub as (k1 & k2 & Hk & Hsub).
  destruct k1 as [|z k1]; [|by destruct k1].
  injection Hk as -> <-. by apply sublist_nil_r in Hsub as ->.
Qed.

(** X10.  Let every requested machine have snapshot information and let
    exactly one snapshot of the requested name lie within three levels in
    their trees.  Then [revert_vm] reverts to that snapshot and to no other,
    waits for its task, and ends as that wait ends. *)
Theorem revert_vm_single_match vmList vmnames snapshot_name si pending snap_obj :
  (∀ vm, vm ∈ vmList → vm_name vm ∈ vmnames → is_Some (vm_snapshot vm)) →
  candidates vmList vmnames snapshot_name = [snap_obj] →
  reverts (events (revert_vm vmList vmnames snapshot_name si pending)) = [snap_obj] ∧
  result (revert_vm vmList vmnames snapshot_name si pending) =
    result (WaitForTasks [RevertToSnapshot_Task snap_obj] si pending) ∧
  unread (revert_vm vmList vmnames snapshot_name si pending) =
    unread (WaitForTasks [RevertToSnapshot_Task snap_obj] si pending).
Proof.
  intros Hsnap Hone.
  destruct (revert_vm_run vmList vmnames snapshot_name si pending)
    as (ev & Hloc & Hsub & [((vm & Hin & Hn & Hnone) & _)|(_ & Hne & Hrun)]).
  { destruct (Hsnap vm Hin Hn) as [info Hinfo]. congruence. }
  rewrite Hone in Hsub, Hne.
  assert (reverts ev = [snap_obj]) as Hrev by (apply sublist_singleton; [done|by apply Hne]).
  rewrite Hrun, Hrev. cbv zeta. simpl last. cbv iota.
  split; [|done]. rewrite events_run, reverts_local_tail; [done|].
  rewrite reverts_app, reverts_WaitForTasks. by destruct (result _).
Qed.

Lemma revert_vm_single_match_witness :
  reverts (events (revert_vm [vm_web; vm_db] ["web"] "tested" si_0 [])) = [snap "tested"].
Proof.
  apply (revert_vm_single_match [vm_web; vm_db] ["web"] "tested" si_0 [] (snap "tested")).
  - intros vm [->|Hin]%elem_of_cons Hn; [by eexists|].
    apply list_elem_of_singleton in Hin as ->.
    apply list_elem_of_singleton in Hn. discriminate Hn.
  - reflexivity.
Defined.

(** X11.  A requested machine without snapshot information makes [revert_vm]
    raise [AttributeError]: it reads no reply and starts no wait, not even
    for reverts it has submitted for machines earlier in the inventory. *)
Theorem revert_vm_missing_snapshot_info vmList vmnames snapshot_name si pending vm :
  vm ∈ vmList → vm_name vm ∈ vmnames → vm_snapshot vm = None →
  result (revert_vm vmList vmnames snapshot_name si pending) = Raise AttributeError ∧
  unread (revert_vm vmList vmnames snapshot_name si pending) = pending ∧
  Forall is_search_event (events (revert_vm vmList vmnames snapshot_name si pending)).
Proof.
  intros Hin Hn Hnone.
  destruct (revert_vm_run vmList vmnames snapshot_name si pending)
    as (ev & Hloc & Hsub & [(_ & ->)|(Hsnap & _)]); [done|].
  destruct (Hsnap vm Hin Hn) as [info Hinfo]. congruence.
Qed.

Lemma revert_vm_missing_snapshot_info_witness :
  result (revert_vm [vm_web; vm_db] ["web"; "db"] "base" si_0 []) = Raise AttributeError ∧
  events (revert_vm [vm_web; vm_db] ["web"; "db"] "base" si_0 []) =
    [EvPrint ["LEVEL1 Reverting snapshot "; "base"]; EvRevertToSnapshot (snap "base")].
Proof.
  split; [|reflexivity].
  apply (revert_vm_missing_snapshot_info [vm_web; vm_db] ["web"; "db"] "base" si_0 [] vm_db).
  - right. left.
  - right. left.
  - reflexivity.
Defined.

(** ** More on the power loops: one machine after the other *)

Lemma power_loop_app on vms1 vms2 vmnames si pending :
  power_loop on (vms1 ++ vms2) vmnames si pending =
  match result (power_loop on vms1 vmnames si pending) with
  | Return _ =>
      (result (power_loop on vms2 vmnames si (unread (power_loop on vms1 vmnames si pending))),
       unread (power_loop on vms2 vmnames si (unread (power_loop on vms1 vmnames si pending))),
       events (power_loop on vms1 vmnames si pending) ++
       events (power_loop on vms2 vmnames si (unread (power_loop on vms1 vmnames si pending))))
  | _ => power_loop on vms1 vmnames si pending
  end.
Proof.
  revert pending. induction vms1 as [|vm vms1 IH]; intros pending.
  - rewrite power_loop_nil. unfold result, unread, events. simpl.
    by destruct (power_loop on vms2 vmnames si pending) as [[r2 p2] ev2].
  - rewrite <-app_comm_cons, !power_loop_cons.
    destruct (decide (vm_name vm ∈ vmnames)) as [Hn|Hn]; [|apply IH].
    destruct (decide (vm_powerState vm ≠ target on)) as [Hp|Hp].
    + destruct (WaitForTasks [switch_task on vm] si pending) as [[[[]|e|] p1] ev]; [|done..].
      rewrite IH.
      destruct (power_loop on vms1 vmnames si p1) as [[[[]|e|] p2] ev2];
        unfold result, unread, events; simpl; [|done..].
      destruct (power_loop on vms2 vmnames si p2) as [[r3 p3] ev3]. simpl.
      by rewrite <-!app_assoc.
    + rewrite IH.
      destruct (power_loop on vms1 vmnames si pending) as [[[[]|e|] p2] ev2];
        unfold result, unread, events; simpl; [|done..].
      by destruct (power_loop on vms2 vmnames si p2) as [[r3 p3] ev3].
Qed.

(** X12.  [turn_vm_on] and [turn_vm_off] handle the machines of the inventory
    one after the other: the run over a list is the run over its front part
    followed, on the replies that are left, by the run over the rest.  When
    the front part raises or hangs, that is the whole run: the machines
    behind are neither switched nor reported. *)
Theorem turn_vm_one_after_the_other vms1 vms2 vmnames si pending :
  turn_vm_on (vms1 ++ vms2) vmnames si pending =
    match result (turn_vm_on vms1 vmnames si pending) with
    | Return _ =>
        (result (turn_vm_on vms2 vmnames si (unread (turn_vm_on vms1 vmnames si pending))),
         unread (turn_vm_on vms2 vmnames si (unread (turn_vm_on vms1 vmnames si pending))),
         events (turn_vm_on vms1 vmnames si pending) ++
         events (turn_vm_on vms2 vmnames si (unread (turn_vm_on vms1 vmnames si pending))))
    | _ => turn_vm_on vms1 vmnames si pending
    end ∧
  turn_vm_off (vms1 ++ vms2) vmnames si pending =
    match result (turn_vm_off vms1 vmnames si pending) with
    | Return _ =>
        (result (turn_vm_off vms2 vmnames si (unread (turn_vm_off vms1 vmnames si pending))),
         unread (turn_vm_off vms2 vmnames si (unread (turn_vm_off vms1 vmnames si pending))),
         events (turn_vm_off vms1 vmnames si pending) ++
         events (turn_vm_off vms2 vmnames si (unread (turn_vm_off vms1 vmnames si pending))))
    | _ => turn_vm_off vms1 vmnames si pending
    end.
Proof.
  rewrite turn_vm_on_power_loop, turn_vm_off_power_loop.
  split; apply power_loop_app.
Qed.

(** ** The requested names *)

Lemma for_M_ext_in {A S} (body1 body2 : S → A → M (Flow * S)) l s p :
  (∀ s x p, x ∈ l → body1 s x p = body2 s x p) → for_M body1 l s p = for_M body2 l s p.
Proof.
  revert s p. induction l as [|x l IH]; intros s p Hext; [done|].
  rewrite !for_M_cons, Hext by left.
  destruct (body2 s x p) as [[[[[] s']|e|] p1] ev1]; try done.
  rewrite IH; [done|]. intros. apply Hext. by right.
Qed.

(** X13.  The three actions look at the requested names only to ask whether
    the name of a machine of the inventory is among them.  Two lists of names
    that answer alike for every machine of the inventory give the same run:
    names that fit no machine are passed over without a word, and order and
    repetition of the names are of no account. *)
Theorem names_only_through_inventory vmList names1 names2 snapshot_name si pending :
  (∀ vm, vm ∈ vmList → vm_name vm ∈ names1 ↔ vm_name vm ∈ names2) →
  turn_vm_on vmList names1 si pending = turn_vm_on vmList names2 si pending ∧
  turn_vm_off vmList names1 si pending = turn_vm_off vmList names2 si pending ∧
  revert_vm vmList names1 snapshot_name si pending =
    revert_vm vmList names2 snapshot_name si pending.
Proof.
  intros Hsame. split; [|split].
  - apply for_M_ext_in. intros [] vm p Hin.
    destruct (decide (vm_name vm ∈ names1)) as [H1|H1];
      destruct (decide (vm_name vm ∈ names2)) as [H2|H2]; try done;
      by apply (Hsame vm Hin) in H1 || apply (Hsame vm Hin) in H2.
  - apply for_M_ext_in. intros [] vm p Hin.
    destruct (decide (vm_name vm ∈ names1)) as [H1|H1];
      destruct (decide (vm_name vm ∈ names2)) as [H2|H2]; try done;
      by apply (Hsame vm Hin) in H1 || apply (Hsame vm Hin) in H2.
  - unfold revert_vm. rewrite !run_bind.
    rewrite (for_M_ext_in (revert_search names1 snapshot_name)
               (revert_search names2 snapshot_name)); [done|].
    intros s vm p Hin. unfold revert_search.
    destruct (decide (vm_name vm ∈ names1)) as [H1|H1];
      destruct (decide (vm_name vm ∈ names2)) as [H2|H2]; try done;
      by apply (Hsame vm Hin) in H1 || apply (Hsame vm Hin) in H2.
Qed.

Lemma names_only_through_inventory_witness :
  turn_vm_on [vm_web; vm_db] ["web"; "mail"; "web"] si_0 [] =
    turn_vm_on [vm_web; vm_db] ["web"] si_0 [] ∧
  revert_vm [vm_web; vm_db] ["web"; "mail"; "web"] "tested" si_0 [] =
    revert_vm [vm_web; vm_db] ["web"] "tested" si_0 [].
Proof.
  destruct (names_only_through_inventory [vm_web; vm_db] ["web"; "mail"; "web"] ["web"]
              "tested" si_0 []) as (H1 & _ & H2); [|by split].
  intros vm [->|Hin]%elem_of_cons; [|apply list_elem_of_singleton in Hin as ->];
    split; intros H.
  - left.
  - left.
  - repeat (apply elem_of_cons in H as [H|H]; [discriminate H|]).
    by apply elem_of_nil in H.
  - apply list_elem_of_singleton in H. discriminate H.
Defined.

(** ** [main] *)

Lemma main_run args host pending :
  ∃ asked,
    main_parsed args host pending =
      (main_result (main_body args host (password_used args host) pending),
       main_unread (main_body args host (password_used args host) pending),
       asked ++ main_events (main_body args host (password_used args host) pending)) ∧
    acts asked = [].
Proof.
  unfold main_parsed, password_used.
  destruct (args_password args) as [password|]; [destruct (decide (password ≠ ""))|].
  - exists []. by destruct (main_body _ _ _ _) as [[r p] ev].
  - eexists [_]. by destruct (main_body _ _ _ _) as [[r p] ev].
  - eexists [_]. by destruct (main_body _ _ _ _) as [[r p] ev].
Qed.

Lemma acts_app ev1 ev2 : acts (ev1 ++ ev2) = acts ev1 ++ acts ev2.
Proof. apply omap_app. Qed.

Lemma acts_fmap ev : acts (Act <$> ev) = ev.
Proof.
  induction ev as [|e ev IH]; [done|]. unfold acts in *. rewrite fmap_cons. simpl.
  by f_equal.
Qed.

Lemma name_present_spec vmList vmnames :
  name_present vmList vmnames = true ↔ ∃ vm, vm ∈ vmList ∧ vm_name vm ∈ vmnames.
Proof.
  unfold name_present.
  assert (∀ b, foldl (λ found vm, if decide (vm_name vm ∈ vmnames) then true else found)
                 b vmList = true ↔
               b = true ∨ ∃ vm, vm ∈ vmList ∧ vm_name vm ∈ vmnames) as Hgen.
  { induction vmList as [|vm vmList IH]; intros b; simpl.
    - split; [by left|]. intros [|(vm & Hin & _)]; [done|by apply elem_of_nil in Hin].
    - rewrite IH. split.
      + intros [Hb|(vm' & Hin & Hn)].
        * destruct (decide (vm_name vm ∈ vmnames)); [|by left].
          right. exists vm. split; [left|done].
        * right. exists vm'. split; [by right|done].
      + intros [->|(vm' & [->|Hin]%elem_of_cons & Hn)].
        * left. by destruct (decide _).
        * left. by rewrite decide_True.
        * right. by exists vm'. }
  rewrite Hgen. split; [by intros [|]|by right].
Qed.

Lemma guarded_acts host action pending e :
  e ∈ acts (main_events (guarded host action pending)) → touches_server e →
  e ∈ events (action pending).
Proof.
  unfold guarded. destruct (action pending) as [[[[]|exn|] p] ev];
    unfold main_events, events; simpl; rewrite ?acts_app, acts_fmap; try done.
  intros [|Hin]%elem_of_app; [done|]. apply list_elem_of_singleton in Hin as ->. done.
Qed.

(** The acts of [main] that reach the machines are those of the one action
    it has been asked for, on the inventory it has read. *)
Lemma main_acts args host pending e :
  e ∈ acts (main_events (main_parsed args host pending)) → touches_server e →
  ∃ si vmList,
    connect_reply args host = Connected si vmList ∧
    ((lower (args_action args) = "poweron" ∧
      e ∈ events (turn_vm_on vmList (args_vmname args) si pending)) ∨
     (lower (args_action args) = "poweroff" ∧
      e ∈ events (turn_vm_off vmList (args_vmname args) si pending)) ∨
     (lower (args_action args) = "revert" ∧
      ∃ snapshot_name, args_snapshot args = Some snapshot_name ∧
        e ∈ events (revert_vm vmList (args_vmname args) snapshot_name si pending))).
Proof.
  destruct (main_run args host pending) as (asked & -> & Hasked).
  unfold main_events at 1. simpl. rewrite acts_app, Hasked. simpl.
  unfold main_body, connect_reply.
  destruct (decide (length (args_vmname args) = 0)).
  { intros Hin%list_elem_of_singleton Ht. by subst. }
  destruct (SmartConnect host _ _ _ _) as [|exn|si vmList].
  - intros Hin%list_elem_of_singleton Ht. by subst.
  - intros Hin%list_elem_of_singleton Ht. by subst.
  - destruct (name_present vmList (args_vmname args)).
    2:{ intros Hin%list_elem_of_singleton Ht. by subst. }
    intros Hin Ht. exists si, vmList. split; [done|].
    unfold dispatch in Hin.
    destruct (decide (lower (args_action args) = "poweron")) as [Ha|_].
    { left. split; [done|].
      destruct (guarded _ _ _) as [[r p] ev] eqn:Hg.
      apply (guarded_acts host (turn_vm_on vmList (args_vmname args) si) pending); [|done].
      by rewrite Hg. }
    destruct (decide (lower (args_action args) = "poweroff")) as [Ha|_].
    { right. left. split; [done|].
      destruct (guarded _ _ _) as [[r p] ev] eqn:Hg.
      apply (guarded_acts host (turn_vm_off vmList (args_vmname args) si) pending); [|done].
      by rewrite Hg. }
    destruct (decide (lower (args_action args) = "revert")) as [Ha|_].
    + destruct (args_snapshot args) as [name|].
      * right. right. split; [done|]. exists name. split; [done|].
        destruct (guarded _ _ _) as [[r p] ev] eqn:Hg.
        apply (guarded_acts host (revert_vm vmList (args_vmname args) name si) pending);
          [|done].
        by rewrite Hg.
      * apply list_elem_of_singleton in Hin. by subst.
    + apply list_elem_of_singleton in Hin. by subst.
Qed.

Lemma revert_vm_no_power vmList vmnames name si pending e :
  e ∈ events (revert_vm vmList vmnames name si pending) →
  match e with EvPowerOn _ | EvPowerOff _ => False | _ => True end.
Proof.
  destruct (revert_vm_run vmList vmnames name si pending)
    as (ev & Hloc & _ & [(_ & ->)|(_ & _ & ->)]); rewrite Forall_forall in Hloc.
  { rewrite events_run. intros Hin. specialize (Hloc _ Hin). by destruct e. }
  destruct (last (reverts ev)) as [snap|]; cbv zeta; rewrite events_run.
  - intros [Hin|[Hin|Hin]%elem_of_app]%elem_of_app.
    + specialize (Hloc _ Hin). by destruct e.
    + destruct (WaitForTasks_events [RevertToSnapshot_Task snap] si pending ltac:(done))
        as (rest & Hev & Hw).
      rewrite Forall_forall in Hw. rewrite Hev in Hin. specialize (Hw _ Hin). by destruct e.
    + destruct (result _); [|by apply elem_of_nil in Hin..].
      apply list_elem_of_singleton in Hin. by subst.
  - intros [Hin|Hin]%elem_of_app.
    + specialize (Hloc _ Hin). by destruct e.
    + apply list_elem_of_singleton in Hin. by subst.
Qed.

Lemma power_loop_no_revert on vmList vmnames si pending snap :
  EvRevertToSnapshot snap ∉ events (power_loop on vmList vmnames si pending).
Proof.
  pose proof (power_loop_sound on vmList vmnames si pending) as Hs.
  rewrite Forall_forall in Hs.
  intros [Hp|(vm & _ & _ & [He|He])]%Hs; [done| |done]. by destruct on.
Qed.

(** X14.  [main] does to the machines only what it was asked to do.  A
    [PowerOn] is issued only when the command line was parsed and the
    action, in lower case, is "poweron", and then for a machine of the
    inventory that is requested and not on; likewise [PowerOff] for
    "poweroff"; a revert only when the action is "revert" and a snapshot name
    was given, and then to a snapshot of that name within three levels in the
    tree of a requested machine. *)
Theorem main_acts_as_asked parse host pending :
  (∀ vm, EvPowerOn vm ∈ acts (main_events (main parse host pending)) →
     ∃ args, parsed_args parse = Some args ∧
       lower (args_action args) = "poweron" ∧
       ∃ si vmList, connect_reply args host = Connected si vmList ∧
         vm ∈ vmList ∧ to_switch (args_vmname args) poweredOn vm) ∧
  (∀ vm, EvPowerOff vm ∈ acts (main_events (main parse host pending)) →
     ∃ args, parsed_args parse = Some args ∧
       lower (args_action args) = "poweroff" ∧
       ∃ si vmList, connect_reply args host = Connected si vmList ∧
         vm ∈ vmList ∧ to_switch (args_vmname args) poweredOff vm) ∧
  (∀ snap_obj, EvRevertToSnapshot snap_obj ∈ acts (main_events (main parse host pending)) →
     ∃ args, parsed_args parse = Some args ∧
       lower (args_action args) = "revert" ∧
       ∃ snapshot_name si vmList,
         args_snapshot args = Some snapshot_name ∧
         connect_reply args host = Connected si vmList ∧
         shallow_snapshot vmList (args_vmname args) snapshot_name snap_obj).
Proof.
  destruct parse as [|args given]; simpl.
  { split; [|split]; intros ? Hin; by apply elem_of_nil in Hin. }
  split; [|split].
  - intros vm Hin. exists args. split; [done|].
    destruct (main_acts _ _ _ _ Hin I)
      as (si & vmList & Hc & [(Ha & He)|[(Ha & He)|(Ha & name & Hs & He)]]).
    + split; [done|]. exists si, vmList. split; [done|].
      rewrite turn_vm_on_power_loop in He.
      by apply (power_loop_frame true) in He.
    + rewrite turn_vm_off_power_loop in He.
      by apply (power_loop_frame false) in He.
    + by apply revert_vm_no_power in He.
  - intros vm Hin. exists args. split; [done|].
    destruct (main_acts _ _ _ _ Hin I)
      as (si & vmList & Hc & [(Ha & He)|[(Ha & He)|(Ha & name & Hs & He)]]).
    + rewrite turn_vm_on_power_loop in He.
      by apply (power_loop_frame true) in He.
    + split; [done|]. exists si, vmList. split; [done|].
      rewrite turn_vm_off_power_loop in He.
      by apply (power_loop_frame false) in He.
    + by apply revert_vm_no_power in He.
  - intros snap Hin. exists args. split; [done|].
    destruct (main_acts _ _ _ _ Hin I)
      as (si & vmList & Hc & [(Ha & He)|[(Ha & He)|(Ha & name & Hs & He)]]).
    + rewrite turn_vm_on_power_loop in He. by apply power_loop_no_revert in He.
    + rewrite turn_vm_off_power_loop in He. by apply power_loop_no_revert in He.
    + split; [done|]. exists name, si, vmList. split; [done|]. split; [done|].
      apply candidates_elem. apply reverts_elem in He.
      eapply sublist_subseteq; [apply revert_vm_reverts|done].
Qed.

Lemma main_acts_as_asked_witness :
  ∃ args, parsed_args (parsed_web "PowerOn" None) = Some args ∧
    lower (args_action args) = "poweron" ∧
    ∃ si vmList, connect_reply args host_up = Connected si vmList ∧
      vm_web ∈ vmList ∧ to_switch (args_vmname args) poweredOn vm_web.
Proof.
  destruct (main_acts_as_asked (parsed_web "PowerOn" None) host_up []) as (H & _).
  apply (H vm_web). vm_compute. right. left.
Defined.

Lemma guarded_no_exit host action pending :
  main_result (guarded host action pending) ≠ MainExit.
Proof. unfold guarded. by destruct (action pending) as [[[[]|e|] p] ev]. Qed.

Lemma guarded_result host action pending :
  main_result (guarded host action pending) = MainExit ↔ False.
Proof. split; [apply guarded_no_exit|done]. Qed.

Lemma main_lift args host pending :
  main_result (main_parsed args host pending) =
    main_result (main_body args host (password_used args host) pending) ∧
  main_unread (main_parsed args host pending) =
    main_unread (main_body args host (password_used args host) pending) ∧
  acts (main_events (main_parsed args host pending)) =
    acts (main_events (main_body args host (password_used args host) pending)).
Proof.
  destruct (main_run args host pending) as (asked & -> & Hasked).
  split; [done|]. split; [done|].
  unfold main_events at 1. simpl. by rewrite acts_app, Hasked.
Qed.

(** [main], from the parsed options on, leaves through [exit] in three
    cases, each with a line of its own. *)
Lemma main_parsed_exit args host pending :
  args_vmname args ≠ [] →
  (main_result (main_parsed args host pending) = MainExit ↔
     connect_reply args host = ConnectIOError ∨
     ∃ si vmList, connect_reply args host = Connected si vmList ∧
       ((∀ vm, vm ∈ vmList → vm_name vm ∉ args_vmname args) ∨
        ((∃ vm, vm ∈ vmList ∧ vm_name vm ∈ args_vmname args) ∧
         lower (args_action args) = "revert" ∧ args_snapshot args = None))) ∧
  (main_result (main_parsed args host pending) = MainExit →
     main_unread (main_parsed args host pending) = pending ∧
     (acts (main_events (main_parsed args host pending)) =
        [EvPrint ["Cannot connect to specified host using specified username and password"]] ∨
      acts (main_events (main_parsed args host pending)) =
        [EvPrint ["VM specified was not found"]] ∨
      acts (main_events (main_parsed args host pending)) =
        [EvPrint ["You forgot to specify snapshot name. Example: -s snapshotname"]])).
Proof.
  intros Hne.
  destruct (main_lift args host pending) as (-> & -> & ->).
  unfold main_body, connect_reply.
  destruct (decide (length (args_vmname args) = 0)) as [Hlen|Hlen].
  { by apply length_zero_iff_nil in Hlen. }
  destruct (SmartConnect host _ _ _ _) as [|exn|si vmList].
  - split; [|intros _; split; [done|by left]].
    split; [|done]. intros _. by left.
  - split; [|done]. split; [done|].
    intros [|(si & vmList & ? & _)]; done.
  - destruct (name_present vmList (args_vmname args)) eqn:Hfound.
    2:{ split; [|intros _; split; [done|right; by left]].
        split; [|done]. intros _.
        right. exists si, vmList. split; [done|]. left. intros vm Hin Hn.
        assert (name_present vmList (args_vmname args) = true) as Ht
          by (apply name_present_spec; by exists vm).
        congruence. }
    apply name_present_spec in Hfound as (vm0 & Hin0 & Hn0).
    assert (∀ (r : MainResult) p ev G (Q : Prop),
              r ≠ MainExit →
              (lower (args_action args) = "revert" → args_snapshot args = None → False) →
              (main_result (r, p, G ++ ev) = MainExit ↔
               Connected si vmList = ConnectIOError ∨
               ∃ si' vmList', Connected si vmList = Connected si' vmList' ∧
                 ((∀ vm, vm ∈ vmList' → vm_name vm ∉ args_vmname args) ∨
                  ((∃ vm, vm ∈ vmList' ∧ vm_name vm ∈ args_vmname args) ∧
                   lower (args_action args) = "revert" ∧ args_snapshot args = None))) ∧
              (main_result (r, p, G ++ ev) = MainExit → Q)) as Hstay.
    { intros r p ev G Q Hr Hrev. split; [|done]. split; [done|].
      intros [|(si' & vmList' & [= <- <-] & [Hnone|(_ & Ha & Hs)])]; try done.
      - by destruct (Hnone vm0 Hin0).
      - by destruct (Hrev Ha Hs). }
    unfold dispatch.
    destruct (decide (lower (args_action args) = "poweron")) as [Ha|Ha1].
    { pose proof (guarded_no_exit host (turn_vm_on vmList (args_vmname args) si) pending)
        as Hno.
      destruct (guarded _ _ _) as [[r p] ev]. apply Hstay; [done|].
      intros Hrev. rewrite Ha in Hrev. discriminate Hrev. }
    destruct (decide (lower (args_action args) = "poweroff")) as [Ha|Ha2].
    { pose proof (guarded_no_exit host (turn_vm_off vmList (args_vmname args) si) pending)
        as Hno.
      destruct (guarded _ _ _) as [[r p] ev]. apply Hstay; [done|].
      intros Hrev. rewrite Ha in Hrev. discriminate Hrev. }
    destruct (decide (lower (args_action args) = "revert")) as [Ha|Ha3].
    + destruct (args_snapshot args) as [name|] eqn:Hsnap.
      * pose proof (guarded_no_exit host
                      (revert_vm vmList (args_vmname args) name si) pending) as Hno.
        destruct (guarded _ _ _) as [[r p] ev]. apply Hstay; [done|]. done.
      * split; [|intros _; split; [done|right; by right]].
        split; [|done]. intros _.
        right. exists si, vmList. split; [done|]. right. split; [by exists vm0|done].
    + apply Hstay; done.
Qed.

(** X15.  [main] leaves through [SystemExit] in four cases and no other:
    argparse has refused the command line; [SmartConnect] raised an
    [IOError]; no machine of the inventory bears a requested name; or the
    action is "revert" and no snapshot name was given.  The test of line 168
    never fires, since argparse hands over at least one name.  When [main]
    leaves that way it has read no reply and called nothing on a machine or
    on the property collector, and it has printed nothing (the first case) or
    the one line of its case. *)
Theorem main_exit_cases parse host pending :
  (main_result (main parse host pending) = MainExit ↔
     parse = ArgparseExit ∨
     ∃ args, parsed_args parse = Some args ∧
       (connect_reply args host = ConnectIOError ∨
        ∃ si vmList, connect_reply args host = Connected si vmList ∧
          ((∀ vm, vm ∈ vmList → vm_name vm ∉ args_vmname args) ∨
           ((∃ vm, vm ∈ vmList ∧ vm_name vm ∈ args_vmname args) ∧
            lower (args_action args) = "revert" ∧ args_snapshot args = None)))) ∧
  (main_result (main parse host pending) = MainExit →
     main_unread (main parse host pending) = pending ∧
     (acts (main_events (main parse host pending)) = [] ∨
      acts (main_events (main parse host pending)) =
        [EvPrint ["Cannot connect to specified host using specified username and password"]] ∨
      acts (main_events (main parse host pending)) =
        [EvPrint ["VM specified was not found"]] ∨
      acts (main_events (main parse host pending)) =
        [EvPrint ["You forgot to specify snapshot name. Example: -s snapshotname"]])).
Proof.
  destruct parse as [|args given]; simpl.
  { split; [|intros _; split; [done|by left]]. split; [by left|done]. }
  destruct (main_parsed_exit args host pending given) as [Hiff Hthen].
  split.
  - rewrite Hiff. split.
    + intros H. right. by exists args.
    + intros [?|(args' & [= <-] & H)]; done.
  - intros Hexit. destruct (Hthen Hexit) as [Hun Hline].
    split; [done|]. by right.
Qed.

Lemma main_exit_cases_witness :
  main_result (main ArgparseExit host_up []) = MainExit ∧
  main_result (main (parsed_web "poweron" None) host_down []) = MainExit ∧
  main_result (main (parsed_mail "poweron" None) host_up []) = MainExit ∧
  main_result (main (parsed_web "revert" None) host_up []) = MainExit ∧
  main_unread (main (parsed_web "revert" None) host_up []) = [] ∧
  (acts (main_events (main (parsed_mail "poweron" None) host_up [])) = [] ∨
   acts (main_events (main (parsed_mail "poweron" None) host_up [])) =
     [EvPrint ["Cannot connect to specified host using specified username and password"]] ∨
   acts (main_events (main (parsed_mail "poweron" None) host_up [])) =
     [EvPrint ["VM specified was not found"]] ∨
   acts (main_events (main (parsed_mail "poweron" None) host_up [])) =
     [EvPrint ["You forgot to specify snapshot name. Example: -s snapshotname"]]).
Proof.
  split; [|split; [|split; [|split; [|split]]]].
  - apply (main_exit_cases ArgparseExit host_up []). by left.
  - apply (main_exit_cases (parsed_web "poweron" None) host_down []).
    right. exists (args_web "poweron" None). split; [reflexivity|]. by left.
  - apply (main_exit_cases (parsed_mail "poweron" None) host_up []).
    right. exists (args_mail "poweron" None). split; [reflexivity|].
    right. exists si_0, [vm_web; vm_db]. split; [reflexivity|]. left.
    intros vm Hin Hn. apply list_elem_of_singleton in Hn.
    apply elem_of_cons in Hin as [->|Hin]; [discriminate Hn|].
    apply list_elem_of_singleton in Hin as ->. discriminate Hn.
  - apply (main_exit_cases (parsed_web "revert" None) host_up []).
    right. exists (args_web "revert" None). split; [reflexivity|].
    right. exists si_0, [vm_web; vm_db]. split; [reflexivity|]. right.
    split; [|done]. exists vm_web. split; left.
  - by apply (main_exit_cases (parsed_web "revert" None) host_up []).
  - by apply (main_exit_cases (parsed_mail "poweron" None) host_up []).
Defined.
